(** * GOGAR: the scorekeeping engine of the game of giving and asking for reasons

    A shallow embedding of [gogar.py] and [gogar_enh.py].  The two files share
    the engine ([Inference], [Challenge], [Agent] and the set algebra of
    [Game]) word for word; they differ in how a score is rendered and in
    whether an agent's intelligence can be chosen.

    Statements are Python [str] values, embedded as [string] (the UTF-8 bytes of
    the text).  A Python [set] or [frozenset] of hashable values is a [gset]: its
    equality is extensional, as [==] on Python sets is.  [incompatibilities] is a
    Python [list] and stays a [list].  Integers are unbounded in Python;
    [intelligence] is only ever [100] or the value of a [\d+] match, so it is a
    [nat]. *)

From stdpp Require Import gmap strings list sorting pretty.
From Stdlib Require Import String Ascii.
From Stdlib Require OrderedTypeEx.

Open Scope string_scope.

(** ** Data model *)

(** [class Inference]: [premises] is a [frozenset], [__eq__] compares both
    fields. *)
Record Inference := mkInference {
  premises : gset string;
  conclusion : string
}.

Global Instance Inference_eq_dec : EqDecision Inference.
Proof. solve_decision. Defined.

Global Instance Inference_countable : Countable Inference.
Proof.
  refine (inj_countable' (λ i, (premises i, conclusion i))
                         (λ p, mkInference p.1 p.2) _).
  by intros [].
Defined.

(** [class Challenge]: [target] is a reference to an [Agent]; [__eq__] and
    [__hash__] go through [Agent.__eq__] and [Agent.__hash__], which read the
    agent's [name] only, and a name is never reassigned.  The target is
    therefore kept as that name. *)
Record Challenge := mkChallenge {
  target : string;
  sentence : string
}.

Global Instance Challenge_eq_dec : EqDecision Challenge.
Proof. solve_decision. Defined.

Global Instance Challenge_countable : Countable Challenge.
Proof.
  refine (inj_countable' (λ c, (target c, sentence c))
                         (λ p, mkChallenge p.1 p.2) _).
  by intros [].
Defined.

(** [class Agent]: the value of every attribute of one agent object. *)
Record Agent := mkAgent {
  name : string;
  intelligence : nat;
  commitments_avowed : gset string;
  incompatibilities : list (gset string);
  committive_inferences : gset Inference;
  permissive_inferences : gset Inference;
  challenges_issued : gset Challenge
}.

Global Instance Agent_eq_dec : EqDecision Agent.
Proof. solve_decision. Defined.

(** [class Game]: [agents] is a Python [set] of agent objects hashed by name.
    The list is that set in the order a [for] loop visits it.  The [transcript]
    deque (and [previous_score] of the enhanced variant) is the log of the
    command loop, written by [process_command] after every command,
    whatever it was; it is not read by the engine and is not embedded. *)
Record Game := mkGame {
  agents : list Agent
}.

Global Instance Game_eq_dec : EqDecision Game.
Proof. solve_decision. Defined.

(** ** The engine ([class Game], both files) *)

(** A [for] loop over a list, or over a set in the order its elements are
    listed, that updates a local accumulator is a left fold.  A set is listed by
    [elements]; nothing the engine computes depends on the order. *)
Definition assertions_challenged (g : Game) (agent : Agent) : gset string :=
  foldl (λ challenged_sentences a,
           foldl (λ challenged_sentences c,
                    if decide (target c = name agent)
                    then challenged_sentences ∪ {[sentence c]}
                    else challenged_sentences)
                 challenged_sentences (elements (challenges_issued a)))
        ∅ (agents g).

Definition assertions_unchallenged (g : Game) (agent : Agent) : gset string :=
  commitments_avowed agent ∖ assertions_challenged g agent.

Definition all_unchallenged_assertions (g : Game) : gset string :=
  foldl (λ all_assertions agent, all_assertions ∪ assertions_unchallenged g agent)
        ∅ (agents g).

Definition consequences_once (inferences : gset Inference) (basis : gset string)
  : gset string :=
  let conclusions :=
    foldl (λ conclusions inference,
             if decide (premises inference ⊆ basis)
             then conclusions ∪ {[conclusion inference]}
             else conclusions)
          ∅ (elements inferences) in
  basis ∪ conclusions.

(** The loop returns [False] at the first incompatibility set that [sentence]
    completes. *)
Fixpoint compatible_with (incompatibilities : list (gset string))
    (commitments : gset string) (sentence : string) : bool :=
  match incompatibilities with
  | [] => true
  | inc :: rest =>
      if bool_decide (inc ⊆ commitments ∪ {[sentence]})
         && negb (bool_decide (inc ⊆ commitments))
      then false
      else compatible_with rest commitments sentence
  end.

Definition remove_incompatibles (sentences commitments : gset string)
    (incompatibilities : list (gset string)) : gset string :=
  filter (λ s, compatible_with incompatibilities commitments s = true) sentences.

Definition consequences_once_and_prune (inferences : gset Inference)
    (base commitments : gset string) (incompatibilities : list (gset string))
  : gset string :=
  remove_incompatibles (consequences_once inferences base) commitments incompatibilities.

(** [fixed_point] recurses on [times]; the test [times == 0] is the first
    branch.  [s == nxt] is equality of values. *)
Fixpoint fixed_point {A : Type} `{EqDecision A} (s : A) (times : nat) (func : A → A) : A :=
  match times with
  | 0 => s
  | S times' =>
      let nxt := func s in
      if decide (s = nxt) then s else fixed_point nxt times' func
  end.

(** The same recursion, returning beside the result how many times it called
    [func]. *)
Fixpoint fixed_point_calls {A : Type} `{EqDecision A} (s : A) (times : nat)
    (func : A → A) : A * nat :=
  match times with
  | 0 => (s, 0)
  | S times' =>
      let nxt := func s in
      if decide (s = nxt) then (s, 1)
      else let r := fixed_point_calls nxt times' func in (r.1, S r.2)
  end.


Definition commitments (scorekeeper other : Agent) : gset string :=
  fixed_point (commitments_avowed other) (intelligence scorekeeper)
              (λ s, consequences_once (committive_inferences scorekeeper) s).

Definition incompatibles (scorekeeper other : Agent) : gset (gset string) :=
  let coms := commitments scorekeeper other in
  list_to_set (filter (λ inc, inc ⊆ coms) (incompatibilities scorekeeper)).

Definition expand_entitlements (coms ents : gset string) (incs : list (gset string))
    (cominfs perminfs : gset Inference) (times : nat) : gset string :=
  let ents2 := consequences_once_and_prune cominfs ents coms incs in
  let ents3 := consequences_once_and_prune perminfs (ents ∩ coms) coms incs in
  ents2 ∪ ents3.

Definition entitlements (g : Game) (scorekeeper other : Agent) : gset string :=
  let coms := commitments scorekeeper other in
  let incs := incompatibilities scorekeeper in
  let times := intelligence other in
  let base := remove_incompatibles (all_unchallenged_assertions g) coms incs in
  fixed_point base times
    (λ s, expand_entitlements coms s incs
            (committive_inferences scorekeeper)
            (permissive_inferences scorekeeper) times).

(** ** Agents: construction and methods *)

Definition default_committive : list (list string * string) :=
  [ (["A is red"], "A is colored");
    (["A is blue"], "A is colored");
    (["A is green"], "A is colored") ].

Definition default_permissive : list (list string * string) :=
  [ (["A is red"; "A is fragrant"], "A is edible");
    (["A is blue"; "A is small"], "A is poisonous") ].

Definition default_incompatibles : list (list string) :=
  [ ["A is red"; "A is blue"];
    ["A is red"; "A is green"];
    ["A is blue"; "A is green"];
    ["A is edible"; "A is poisonous"] ].

(** [Agent.__init__] of [gogar_enh.py]; [gogar.py] has no [intelligence]
    argument and always stores [100]. *)
Definition Agent_init (name : string) (intelligence : nat)
    (committive permissive : list (list string * string))
    (incompatibles : list (list string)) : Agent :=
  {| name := name;
     intelligence := intelligence;
     commitments_avowed := ∅;
     incompatibilities := (λ inc, list_to_set inc) <$> incompatibles;
     committive_inferences :=
       list_to_set ((λ pc, mkInference (list_to_set pc.1) pc.2) <$> committive);
     permissive_inferences :=
       list_to_set ((λ pc, mkInference (list_to_set pc.1) pc.2) <$> permissive);
     challenges_issued := ∅ |}.

Definition default_Agent (name : string) : Agent :=
  Agent_init name 100 default_committive default_permissive default_incompatibles.

Definition set_commitments_avowed (v : gset string) (a : Agent) : Agent :=
  mkAgent (name a) (intelligence a) v (incompatibilities a)
          (committive_inferences a) (permissive_inferences a) (challenges_issued a).

Definition set_incompatibilities (v : list (gset string)) (a : Agent) : Agent :=
  mkAgent (name a) (intelligence a) (commitments_avowed a) v
          (committive_inferences a) (permissive_inferences a) (challenges_issued a).

Definition set_committive_inferences (v : gset Inference) (a : Agent) : Agent :=
  mkAgent (name a) (intelligence a) (commitments_avowed a) (incompatibilities a)
          v (permissive_inferences a) (challenges_issued a).

Definition set_permissive_inferences (v : gset Inference) (a : Agent) : Agent :=
  mkAgent (name a) (intelligence a) (commitments_avowed a) (incompatibilities a)
          (committive_inferences a) v (challenges_issued a).

Definition set_challenges_issued (v : gset Challenge) (a : Agent) : Agent :=
  mkAgent (name a) (intelligence a) (commitments_avowed a) (incompatibilities a)
          (committive_inferences a) (permissive_inferences a) v.

Definition set_intelligence (v : nat) (a : Agent) : Agent :=
  mkAgent (name a) v (commitments_avowed a) (incompatibilities a)
          (committive_inferences a) (permissive_inferences a) (challenges_issued a).

(** [set.add] and [set.discard] never raise. *)
Definition asserts (self : Agent) (sentence : string) : Agent :=
  set_commitments_avowed (commitments_avowed self ∪ {[sentence]}) self.

Definition disavows (self : Agent) (sentence : string) : Agent :=
  set_commitments_avowed (commitments_avowed self ∖ {[sentence]}) self.

Definition challenges (self agent : Agent) (sentence : string) : Agent :=
  if decide (sentence ∈ commitments_avowed agent)
  then set_challenges_issued
         (challenges_issued self ∪ {[mkChallenge (name agent) sentence]}) self
  else self.

Definition withdraws_challenge (self agent : Agent) (sentence : string) : Agent :=
  set_challenges_issued
    (challenges_issued self ∖ {[mkChallenge (name agent) sentence]}) self.

(** [list.remove(x)]: drops the first element equal to [x] and raises
    [ValueError] ([None]) when there is none. *)
Fixpoint list_remove {A : Type} `{EqDecision A} (x : A) (l : list A) : option (list A) :=
  match l with
  | [] => None
  | y :: l' => if decide (y = x) then Some l' else (y ::.) <$> list_remove x l'
  end.

(** ** What the interpreter decides

    The order in which a [for] loop, [repr] or [join] visits a [set] is the
    hash table's: it depends on the hash seed of the process and on the
    history of the table, not on the elements alone.  [str.lower] and [repr]
    of a [str] are those of the runtime too (full Unicode case mapping and
    escaping).  They are the fields of a [Runtime]; the engine uses none of
    them. *)
Record Runtime := mkRuntime {
  iter_statements : gset string → list string;
  iter_sets : gset (gset string) → list (gset string);
  str_lower : string → string;
  str_repr : string → string
}.

(** Iterating a set visits each of its elements once. *)
Definition runtime_ok (rt : Runtime) : Prop :=
  (∀ s, iter_statements rt s ≡ₚ elements s) ∧
  (∀ s, iter_sets rt s ≡ₚ elements s).

Definition nl : string := String (ascii_of_nat 10) EmptyString.
Definition dquote : string := String (ascii_of_nat 34) EmptyString.

(** [<=] on [str]: code point order, which on UTF-8 text is byte order. *)
Definition str_le (s1 s2 : string) : Prop := String.leb s1 s2 = true.

Global Instance str_le_dec s1 s2 : Decision (str_le s1 s2).
Proof. unfold str_le. apply _. Defined.

(** [sorted(xs)] on strings. *)
Definition sorted (xs : list string) : list string := merge_sort str_le xs.

(** ** Rendering a score, [gogar.py]

    An f-string field [{coms}] is [str(coms)], for a set its [repr]. *)
Definition repr_set (rt : Runtime) (s : gset string) : string :=
  if decide (s = ∅) then "set()"
  else "{" ++ String.concat ", " (str_repr rt <$> iter_statements rt s) ++ "}".

Definition repr_frozenset (rt : Runtime) (s : gset string) : string :=
  if decide (s = ∅) then "frozenset()"
  else "frozenset({" ++ String.concat ", " (str_repr rt <$> iter_statements rt s) ++ "})".

Definition repr_set_of_frozensets (rt : Runtime) (s : gset (gset string)) : string :=
  if decide (s = ∅) then "set()"
  else "{" ++ String.concat ", " (repr_frozenset rt <$> iter_sets rt s) ++ "}".

(** The f-string that [score] returns. *)
Definition score_text (rt : Runtime) (coms ents : gset string)
    (incs : gset (gset string)) : string :=
  nl ++ "Commitments:  " ++ repr_set rt coms ++ nl ++
  "Entitlements: " ++ repr_set rt ents ++ nl ++
  "Incompatibles: " ++ repr_set_of_frozensets rt incs ++ nl ++ nl.

Definition score (rt : Runtime) (g : Game) (scorekeeper other : Agent) : string :=
  let coms := commitments scorekeeper other in
  let ents := entitlements g scorekeeper other in
  let incs := incompatibles scorekeeper other in
  score_text rt coms ents incs.

(** [sorted(self.agents, key=lambda a: a.name)]. *)
Definition name_le (a b : Agent) : Prop := str_le (name a) (name b).

Global Instance name_le_dec a b : Decision (name_le a b).
Proof. unfold name_le. apply _. Defined.

Definition sorted_agents (g : Game) : list Agent := merge_sort name_le (agents g).

Definition score_all (rt : Runtime) (g : Game) : string :=
  let agents := sorted_agents g in
  foldl (λ output sk,
           foldl (λ output ot,
                    output ++ (name sk ++ "'s score on " ++ name ot ++ ":"
                               ++ score rt g sk ot))
                 output agents)
        EmptyString agents.

(** ** Rendering a score, [gogar_enh.py] *)
Module Enh.

Definition format_set (rt : Runtime) (s : gset string) : string :=
  if decide (s = ∅) then EmptyString
  else
    let elements := sorted (iter_statements rt s) in
    nl ++ String.concat nl ((λ e, "  " ++ e) <$> elements).

Definition format_incompatibilities (rt : Runtime) (incs : gset (gset string)) : string :=
  if decide (incs = ∅) then EmptyString
  else
    let formatted_incs :=
      (λ inc, String.concat nl ((λ s, "  " ++ s) <$> sorted (iter_statements rt inc)))
        <$> iter_sets rt incs in
    String.concat (nl ++ nl) formatted_incs.

Definition score (rt : Runtime) (g : Game) (scorekeeper other : Agent) : string :=
  let coms := commitments scorekeeper other in
  let ents := entitlements g scorekeeper other in
  let incs := incompatibles scorekeeper other in
  nl ++ name scorekeeper ++ "'s score on " ++ name other ++ ":" ++ nl ++
  "Commitments:" ++ format_set rt coms ++ nl ++
  "Entitlements:" ++ format_set rt ents ++ nl ++
  "Incompatibles:" ++ nl ++ format_incompatibilities rt incs ++ nl.

Definition score_all (rt : Runtime) (g : Game) : string :=
  let agents := sorted_agents g in
  foldl (λ output sk, foldl (λ output ot, output ++ score rt g sk ot) output agents)
        EmptyString agents.

End Enh.

(** ** Commands, [Game.process_command] of [gogar.py]

    A [Command] is what a branch of [process_command] has in hand once its
    regular expression has matched and the groups are stripped and split: the
    branches that read or change agent state are embedded, each with its own
    replies.  [None] stands for an exception that leaves the method. *)
Inductive InferenceKind := committive | permissive.

Inductive Command :=
  | ScoreOn (scorekeeper_name other_name : string)
  | ScoreAll
  | Asserts (agent_name sentence : string)
  | Disavows (agent_name sentence : string)
  | Challenges (agent_name target_name sentence : string)
  | WithdrawsChallenge (agent_name target_name sentence : string)
  | AddsInference (agent_name : string) (inf_type : InferenceKind)
                  (premises : list string) (conclusion : string)
  | RemovesInference (agent_name : string) (inf_type : InferenceKind)
                     (premises : list string) (conclusion : string)
  | AddsIncompatibility (agent_name : string) (sentences : list string)
  | RemovesIncompatibility (agent_name : string) (sentences : list string).

(** [agent_named] returns the first agent of the set whose lowered name is
    the lowered [name]; the position stands for the reference to that
    object. *)
Definition agent_named (rt : Runtime) (g : Game) (nm : string) : option (nat * Agent) :=
  list_find (λ agent, str_lower rt (name agent) = str_lower rt nm) (agents g).

(** Assigning through the reference changes the object in place, inside the
    set. *)
Definition store_agent (g : Game) (ref : nat) (a : Agent) : Game :=
  mkGame (<[ref := a]> (agents g)).

Definition not_found (agent_name : string) : string :=
  "Agent " ++ agent_name ++ " not found. Try: list agents" ++ nl.

Definition process_command (rt : Runtime) (cmd : Command) (g : Game)
  : option (string * Game) :=
  match cmd with
  | ScoreOn scorekeeper_name other_name =>
      match agent_named rt g scorekeeper_name, agent_named rt g other_name with
      | None, _ => Some (not_found scorekeeper_name, g)
      | Some _, None => Some (not_found other_name, g)
      | Some (_, scorekeeper), Some (_, other) => Some (score rt g scorekeeper other, g)
      end
  | ScoreAll => Some (score_all rt g, g)
  | Asserts agent_name sentence =>
      match agent_named rt g agent_name with
      | None => Some (not_found agent_name, g)
      | Some (ref, agent) =>
          let g' := store_agent g ref (asserts agent sentence) in
          Some (score_all rt g', g')
      end
  | Disavows agent_name sentence =>
      match agent_named rt g agent_name with
      | None => Some (not_found agent_name, g)
      | Some (ref, agent) =>
          if decide (sentence ∉ commitments_avowed agent)
          then Some ("Agent " ++ agent_name ++ " has not asserted "
                     ++ dquote ++ sentence ++ dquote ++ nl, g)
          else
            let g' := store_agent g ref (disavows agent sentence) in
            Some (score_all rt g', g')
      end
  | Challenges agent_name target_name sentence =>
      match agent_named rt g agent_name, agent_named rt g target_name with
      | None, _ => Some (not_found agent_name, g)
      | Some _, None => Some (not_found target_name, g)
      | Some (ref, agent), Some (_, target) =>
          if decide (sentence ∉ commitments_avowed target)
          then Some (name target ++ " never asserted "
                     ++ dquote ++ sentence ++ dquote ++ nl, g)
          else
            let g' := store_agent g ref (challenges agent target sentence) in
            Some (score_all rt g', g')
      end
  | WithdrawsChallenge agent_name target_name sentence =>
      match agent_named rt g agent_name, agent_named rt g target_name with
      | None, _ => Some (not_found agent_name, g)
      | Some _, None => Some (not_found target_name, g)
      | Some (ref, agent), Some (_, target) =>
          let g' := store_agent g ref (withdraws_challenge agent target sentence) in
          Some (score_all rt g', g')
      end
  | AddsInference agent_name inf_type premises conclusion =>
      match agent_named rt g agent_name with
      | None => Some (not_found agent_name, g)
      | Some (ref, agent) =>
          let inference := mkInference (list_to_set premises) conclusion in
          let agent' :=
            match inf_type with
            | committive =>
                set_committive_inferences (committive_inferences agent ∪ {[inference]}) agent
            | permissive =>
                set_permissive_inferences (permissive_inferences agent ∪ {[inference]}) agent
            end in
          let g' := store_agent g ref agent' in
          Some (score_all rt g', g')
      end
  | RemovesInference agent_name inf_type premises conclusion =>
      match agent_named rt g agent_name with
      | None => Some (not_found agent_name, g)
      | Some (ref, agent) =>
          let inference := mkInference (list_to_set premises) conclusion in
          let agent' :=
            match inf_type with
            | committive =>
                set_committive_inferences (committive_inferences agent ∖ {[inference]}) agent
            | permissive =>
                set_permissive_inferences (permissive_inferences agent ∖ {[inference]}) agent
            end in
          let g' := store_agent g ref agent' in
          Some (score_all rt g', g')
      end
  | AddsIncompatibility agent_name sentences =>
      match agent_named rt g agent_name with
      | None => Some (not_found agent_name, g)
      | Some (ref, agent) =>
          let agent' :=
            set_incompatibilities (incompatibilities agent ++ [list_to_set sentences]) agent in
          let g' := store_agent g ref agent' in
          Some (score_all rt g', g')
      end
  | RemovesIncompatibility agent_name sentences =>
      match agent_named rt g agent_name with
      | None => Some (not_found agent_name, g)
      | Some (ref, agent) =>
          let inc_set : gset string := list_to_set sentences in
          incs' ← (if decide (inc_set ∈ incompatibilities agent)
                   then list_remove inc_set (incompatibilities agent)
                   else Some (incompatibilities agent));
          let g' := store_agent g ref (set_incompatibilities incs' agent) in
          Some (score_all rt g', g')
      end
  end.

(** The command loop of [main]: one command after the other on the same
    game, the replies printed and dropped. *)
Fixpoint run_commands (rt : Runtime) (cmds : list Command) (g : Game) : option Game :=
  match cmds with
  | [] => Some g
  | cmd :: rest => r ← process_command rt cmd g; run_commands rt rest r.2
  end.

(** ** The engine over a store of set objects

    The scoring methods hand [set] objects around by reference:
    [fixed_point] returns the very object it was given when nothing changes, so
    [commitments] can return [other.commitments_avowed] itself, and three
    methods update a set in place ([add], [|=]).  This second embedding keeps
    every set of statements in a store and passes locations, to show which
    objects those updates reach.  Objects of the other kinds (the inference
    sets, the challenge sets, the incompatibility lists, the agents and their
    names and intelligence) are read by the scoring methods and handed to no
    operation that updates in place, so an agent object holds them by value. *)
Module Imp.

(** A location is a position in the store; the store lists the set objects
    made so far. *)
Abbreviation loc := nat (only parsing).
Abbreviation heap := (list (gset string)) (only parsing).

(** A computation: from the store to a result and the store afterwards. *)
Definition M (A : Type) : Type := heap → A * heap.

Global Instance M_ret : MRet M := λ A x h, (x, h).
Global Instance M_bind : MBind M := λ A B k m h, k (m h).1 (m h).2.

(** [set()], a set display, or an operator such as [|], [&], [-] that builds a
    new set: a fresh location. *)
Definition new_set (v : gset string) : M loc := λ h, (List.length h, (h ++ [v])%list).

(** Reading a set. *)
Definition value (l : loc) : M (gset string) := λ h, (default ∅ (h !! l), h).

(** [s.add(x)] and [s |= v]: the object at [l] changes, for every holder of
    a reference to it. *)
Definition set_add (l : loc) (x : string) : M unit :=
  λ h, (tt, alter (λ s, s ∪ {[x]}) l h).

Definition set_ior (l : loc) (v : gset string) : M unit :=
  λ h, (tt, alter (λ s, s ∪ v) l h).

Fixpoint for_each {A : Type} (xs : list A) (body : A → M unit) : M unit :=
  match xs with
  | [] => mret tt
  | x :: rest => _ ← body x; for_each rest body
  end.

(** A loop that rebinds a local variable to a new immutable value
    ([output += ...]). *)
Fixpoint fold_each {A B : Type} (xs : list A) (acc : B) (body : B → A → M B) : M B :=
  match xs with
  | [] => mret acc
  | x :: rest => acc' ← body acc x; fold_each rest acc' body
  end.

Record AgentObj := mkAgentObj {
  obj_name : string;
  obj_intelligence : nat;
  obj_commitments_avowed : loc;
  obj_incompatibilities : list (gset string);
  obj_committive_inferences : gset Inference;
  obj_permissive_inferences : gset Inference;
  obj_challenges_issued : gset Challenge
}.

Definition assertions_challenged (agents : list AgentObj) (agent : AgentObj) : M loc :=
  challenged_sentences ← new_set ∅;
  _ ← for_each agents (λ a,
        for_each (elements (obj_challenges_issued a)) (λ c,
          if decide (target c = obj_name agent)
          then set_add challenged_sentences (sentence c)
          else mret tt));
  mret challenged_sentences.

Definition assertions_unchallenged (agents : list AgentObj) (agent : AgentObj) : M loc :=
  challenged ← assertions_challenged agents agent;
  a ← value (obj_commitments_avowed agent);
  c ← value challenged;
  new_set (a ∖ c).

Definition all_unchallenged_assertions (agents : list AgentObj) : M loc :=
  all_assertions ← new_set ∅;
  _ ← for_each agents (λ agent,
        u ← assertions_unchallenged agents agent;
        v ← value u;
        set_ior all_assertions v);
  mret all_assertions.

Definition consequences_once (inferences : gset Inference) (basis : loc) : M loc :=
  conclusions ← new_set ∅;
  _ ← for_each (elements inferences) (λ inference,
        b ← value basis;
        if decide (premises inference ⊆ b)
        then set_add conclusions (conclusion inference)
        else mret tt);
  b ← value basis;
  c ← value conclusions;
  new_set (b ∪ c).

(** [compatible_with] only reads [commitments]; the sets it builds
    ([commitments | {sentence}]) are dropped before it returns. *)
Fixpoint compatible_with (incompatibilities : list (gset string))
    (commitments : loc) (sentence : string) : M bool :=
  match incompatibilities with
  | [] => mret true
  | inc :: rest =>
      c ← value commitments;
      if bool_decide (inc ⊆ c ∪ {[sentence]}) && negb (bool_decide (inc ⊆ c))
      then mret false
      else compatible_with rest commitments sentence
  end.

(** The comprehension fills a new set. *)
Definition remove_incompatibles (sentences commitments : loc)
    (incompatibilities : list (gset string)) : M loc :=
  kept ← new_set ∅;
  ss ← value sentences;
  _ ← for_each (elements ss) (λ s,
        ok ← compatible_with incompatibilities commitments s;
        if (ok : bool) then set_add kept s else mret tt);
  mret kept.

Definition consequences_once_and_prune (inferences : gset Inference)
    (base commitments : loc) (incompatibilities : list (gset string)) : M loc :=
  x ← consequences_once inferences base;
  remove_incompatibles x commitments incompatibilities.

(** [return s] hands back the reference it was given. *)
Fixpoint fixed_point (s : loc) (times : nat) (func : loc → M loc) : M loc :=
  match times with
  | 0 => mret s
  | S times' =>
      nxt ← func s;
      sv ← value s;
      nv ← value nxt;
      if decide (sv = nv) then mret s else fixed_point nxt times' func
  end.

Definition commitments (scorekeeper other : AgentObj) : M loc :=
  fixed_point (obj_commitments_avowed other) (obj_intelligence scorekeeper)
              (λ s, consequences_once (obj_committive_inferences scorekeeper) s).

Definition incompatibles (scorekeeper other : AgentObj) : M (gset (gset string)) :=
  coms ← commitments scorekeeper other;
  c ← value coms;
  mret (list_to_set (filter (λ inc, inc ⊆ c) (obj_incompatibilities scorekeeper))).

Definition expand_entitlements (coms ents : loc) (incs : list (gset string))
    (cominfs perminfs : gset Inference) (times : nat) : M loc :=
  ents2 ← consequences_once_and_prune cominfs ents coms incs;
  e ← value ents;
  c ← value coms;
  both ← new_set (e ∩ c);
  ents3 ← consequences_once_and_prune perminfs both coms incs;
  v2 ← value ents2;
  v3 ← value ents3;
  new_set (v2 ∪ v3).

Definition entitlements (agents : list AgentObj) (scorekeeper other : AgentObj) : M loc :=
  coms ← commitments scorekeeper other;
  let incs := obj_incompatibilities scorekeeper in
  let times := obj_intelligence other in
  unchallenged ← all_unchallenged_assertions agents;
  base ← remove_incompatibles unchallenged coms incs;
  fixed_point base times
    (λ s, expand_entitlements coms s incs
            (obj_committive_inferences scorekeeper)
            (obj_permissive_inferences scorekeeper) times).

Definition score (rt : Runtime) (agents : list AgentObj)
    (scorekeeper other : AgentObj) : M string :=
  coms ← commitments scorekeeper other;
  ents ← entitlements agents scorekeeper other;
  incs ← incompatibles scorekeeper other;
  c ← value coms;
  e ← value ents;
  mret (score_text rt c e incs).

Definition obj_name_le (a b : AgentObj) : Prop := str_le (obj_name a) (obj_name b).

Global Instance obj_name_le_dec a b : Decision (obj_name_le a b).
Proof. unfold obj_name_le. apply _. Defined.

Definition score_all (rt : Runtime) (agents : list AgentObj) : M string :=
  let sorted_agents := merge_sort obj_name_le agents in
  fold_each sorted_agents EmptyString (λ output sk,
    fold_each sorted_agents output (λ output ot,
      text ← score rt agents sk ot;
      mret (output ++ (obj_name sk ++ "'s score on " ++ obj_name ot ++ ":" ++ text)))).

(** What an agent object is worth in a given store. *)
Definition snapshot (h : heap) (o : AgentObj) : Agent :=
  {| name := obj_name o;
     intelligence := obj_intelligence o;
     commitments_avowed := default ∅ (h !! obj_commitments_avowed o);
     incompatibilities := obj_incompatibilities o;
     committive_inferences := obj_committive_inferences o;
     permissive_inferences := obj_permissive_inferences o;
     challenges_issued := obj_challenges_issued o |}.

Definition snapshot_game (h : heap) (agents : list AgentObj) : Game :=
  mkGame (snapshot h <$> agents).

(** The agent's set of avowed commitments is an object of the store. *)
Definition allocated (h : heap) (o : AgentObj) : Prop :=
  (obj_commitments_avowed o < List.length h)%nat.

(** Run from [h], [m] returns [a], and the store afterwards is [h] followed by
    the objects made on the way. *)
Definition returns_val {A : Type} (m : M A) (h : heap) (a : A) : Prop :=
  ∃ k, m h = (a, (h ++ k)%list).

(** The same for a computation that returns a reference: [v] is the value
    of the set it refers to. *)
Definition returns_set (m : M loc) (h : heap) (v : gset string) : Prop :=
  ∃ l k, m h = (l, (h ++ k)%list) ∧ ((h ++ k)%list) !! l = Some v.

(** Every set object of [h] has the same value in [h'], and so has every
    agent whose avowed commitments are an object of [h]. *)
Definition unchanged (h h' : heap) : Prop :=
  (∀ l v, h !! l = Some v → h' !! l = Some v)
  ∧ (∀ o, allocated h o → snapshot h' o = snapshot h o).

(** An agent object with the default rules. *)
Definition default_obj (name : string) (avowed : loc) : AgentObj :=
  {| obj_name := name;
     obj_intelligence := 100;
     obj_commitments_avowed := avowed;
     obj_incompatibilities := incompatibilities (default_Agent name);
     obj_committive_inferences := committive_inferences (default_Agent name);
     obj_permissive_inferences := permissive_inferences (default_Agent name);
     obj_challenges_issued := ∅ |}.

End Imp.

(** ** The claim's reading of the entitlement bound

    [entitlements] with the iteration bound taken from the scorekeeper, as the
    sentence "times is supplied by the evaluating agent's intelligence" has
    it.  It is here to be compared with [entitlements], which reads
    [other.intelligence]. *)
Definition entitlements_scorekeeper_bound (g : Game) (scorekeeper other : Agent)
  : gset string :=
  let coms := commitments scorekeeper other in
  let incs := incompatibilities scorekeeper in
  let times := intelligence scorekeeper in
  let base := remove_incompatibles (all_unchallenged_assertions g) coms incs in
  fixed_point base times
    (λ s, expand_entitlements coms s incs
            (committive_inferences scorekeeper)
            (permissive_inferences scorekeeper) times).

(** ** Concrete agents, games and runtimes *)

(** [str.lower] on ASCII text. *)
Definition ascii_lower (c : ascii) : ascii :=
  let n := nat_of_ascii c in
  if bool_decide (65 ≤ n ≤ 90)%nat then ascii_of_nat (n + 32) else c.

Fixpoint lower (s : string) : string :=
  match s with
  | EmptyString => EmptyString
  | String c s' => String (ascii_lower c) (lower s')
  end.

(** [repr] of a [str] that holds no quote, backslash or control character. *)
Definition quoted (s : string) : string := "'" ++ s ++ "'".

(** Two interpreters that differ in the order in which they visit a set of
    statements only. *)
Definition rt_ascending : Runtime :=
  {| iter_statements := λ s, sorted (elements s);
     iter_sets := elements;
     str_lower := lower;
     str_repr := quoted |}.

Definition rt_descending : Runtime :=
  {| iter_statements := λ s, reverse (sorted (elements s));
     iter_sets := elements;
     str_lower := lower;
     str_repr := quoted |}.

Definition red_colored : Inference := mkInference {["A is red"]} "A is colored".

Definition blue_small : Inference :=
  mkInference {["A is blue"; "A is small"]} "A is poisonous".

(** [new game]: Ann and Bob with the default rules. *)
Definition new_game : Game := mkGame [default_Agent "Ann"; default_Agent "Bob"].

(** Ann, added with intelligence 0 ([add agent Ann with intelligence 0] of the
    enhanced variant), and a Bob without rules who has asserted "A is red". *)
Definition ann_zero : Agent :=
  Agent_init "Ann" 0 default_committive default_permissive default_incompatibles.

Definition bob_no_rules : Agent := asserts (Agent_init "Bob" 100 [] [] []) "A is red".

(** Bob with the default rules less the one from "A is red" to "A is colored"
    ([Bob removes committive inference: {A is red} |- A is colored]), having
    asserted "A is red"; and the same Bob having asserted "A is blue" as
    well. *)
Definition bob_without_rule : Agent :=
  asserts (set_committive_inferences
             (committive_inferences (default_Agent "Bob") ∖ {[red_colored]})
             (default_Agent "Bob")) "A is red".

Definition bob_blue_too : Agent := asserts bob_without_rule "A is blue".

(** Ann of intelligence [n], who takes "A is colored" and "A is transparent"
    to be incompatible and has asserted "A is red", in a game where Bob has
    asserted "A is transparent". *)
Definition ann_transparent (n : nat) : Agent :=
  asserts (Agent_init "Ann" n default_committive default_permissive
             (default_incompatibles ++ [["A is colored"; "A is transparent"]]))
          "A is red".

Definition game_transparent (n : nat) : Game :=
  mkGame [ann_transparent n; asserts (default_Agent "Bob") "A is transparent"].

(** Bob with intelligence 0 and the default rules, having asserted
    "A is red", scored by a default Ann. *)
Definition bob_zero : Agent :=
  asserts (Agent_init "Bob" 0 default_committive default_permissive
                      default_incompatibles) "A is red".

Definition game_bob_zero : Game := mkGame [default_Agent "Ann"; bob_zero].

(** The end-to-end scenario: in a new game Bob has asserted "A is red" and Ann
    has challenged his entitlement to it. *)
Definition game_challenged : Game :=
  let bob := asserts (default_Agent "Bob") "A is red" in
  mkGame [challenges (default_Agent "Ann") bob "A is red"; bob].

(** A store with Ann's (empty) and Bob's avowed commitments, Bob having
    asserted "A is red". *)
Definition store_ann_bob : list (gset string) := [∅; {["A is red"]}].

Definition objs_ann_bob : list Imp.AgentObj :=
  [Imp.default_obj "Ann" 0; Imp.default_obj "Bob" 1].

(** ** The agent set: [add agent], [remove agent], [new game]

    The branches of [process_command] that change which agents there are.  A
    new element of a Python [set] takes a place in the iteration order that
    the hash table decides; here it is put last, and what is proved of the
    engine does not depend on the place. *)
Definition startup_message : string :=
  "Welcome to the game of giving and asking for reasons," ++ nl ++
  "a simulation of the linguistic scorekeeping dynamics" ++ nl ++
  "described in chapter 3 of Robert Brandom's book" ++ nl ++
  "Making It Explicit (Harvard University Press, 1994)." ++ nl ++ nl ++
  "Adapted from Gogar.rb - gogar in ruby (c) 2006 John MacFarlane." ++ nl ++ nl ++
  "For a list of sample commands, type help" ++ nl ++ nl.

Definition add_agent (rt : Runtime) (nm : string) (g : Game) : string * Game :=
  match agent_named rt g nm with
  | Some _ => ("An agent named " ++ nm ++ " already exists." ++ nl, g)
  | None => ("Agent " ++ nm ++ " added." ++ nl,
             mkGame (agents g ++ [default_Agent nm]))
  end.

(** [add agent Sal with intelligence 50] of [gogar_enh.py]; without the
    optional group the intelligence is 100. *)
Definition enh_add_agent (rt : Runtime) (nm : string) (intelligence : option nat)
    (g : Game) : string * Game :=
  let intelligence := default 100%nat intelligence in
  match agent_named rt g nm with
  | Some _ => ("An agent named " ++ nm ++ " already exists." ++ nl, g)
  | None => ("Agent " ++ nm ++ " added with intelligence "
             ++ pretty intelligence ++ "." ++ nl,
             mkGame (agents g ++ [Agent_init nm intelligence default_committive
                                    default_permissive default_incompatibles]))
  end.

(** [set intelligence of Bob to 50] of [gogar_enh.py]: [digits] is the text the
    pattern matched, echoed in the reply, and [value] is [int(digits)]. *)
Definition enh_set_intelligence (rt : Runtime) (agent_name digits : string)
    (value : nat) (g : Game) : string * Game :=
  match agent_named rt g agent_name with
  | None => (not_found agent_name, g)
  | Some (ref, agent) =>
      ("Set intelligence of " ++ agent_name ++ " to " ++ digits ++ "." ++ nl,
       store_agent g ref (set_intelligence value agent))
  end.

(** [self.agents.remove(agent)] takes the found object out of the set. *)
Definition remove_agent (rt : Runtime) (nm : string) (g : Game) : string * Game :=
  match agent_named rt g nm with
  | Some (ref, _) => ("Agent " ++ nm ++ " removed." ++ nl, mkGame (delete ref (agents g)))
  | None => ("There is no agent named " ++ nm ++ "." ++ nl, g)
  end.

(** [new game]: [reset] empties the set, then Ann and Bob are added. *)
Definition new_game_command (g : Game) : string * Game :=
  (startup_message, mkGame ([] ++ [default_Agent "Ann"] ++ [default_Agent "Bob"])).

(** No two agents of the game have names that are equal once lowered: what
    the guard of [add agent] is there for. *)
Definition unique_names (rt : Runtime) (g : Game) : Prop :=
  NoDup ((λ a, str_lower rt (name a)) <$> agents g).

(** ** The transcript

    [deque(maxlen=100)]: [append] adds at the right end and, when the deque
    is full, drops the entry at the left end. *)
Definition transcript_maxlen : nat := 100.

Definition transcript_append (transcript : list (string * string))
    (entry : string * string) : list (string * string) :=
  let t := (transcript ++ [entry])%list in
  drop (List.length t - transcript_maxlen) t.

(** ** Every branch that changes the game

    An [Input] is one line of the command loop, matched: the three branches
    on the agent set, the two of [gogar_enh.py] on intelligence, and the
    commands above. *)
Inductive Input :=
  | AddAgent (nm : string)
  | RemoveAgent (nm : string)
  | NewGame
  | EnhAddAgent (nm : string) (intelligence : option nat)
  | EnhSetIntelligence (agent_name digits : string) (value : nat)
  | AgentCommand (cmd : Command).

Definition process_input (rt : Runtime) (inp : Input) (g : Game)
  : option (string * Game) :=
  match inp with
  | AddAgent nm => Some (add_agent rt nm g)
  | RemoveAgent nm => Some (remove_agent rt nm g)
  | NewGame => Some (new_game_command g)
  | EnhAddAgent nm intelligence => Some (enh_add_agent rt nm intelligence g)
  | EnhSetIntelligence agent_name digits value =>
      Some (enh_set_intelligence rt agent_name digits value g)
  | AgentCommand cmd => process_command rt cmd g
  end.

Fixpoint run_inputs (rt : Runtime) (inps : list Input) (g : Game) : option Game :=
  match inps with
  | [] => Some g
  | inp :: rest => r ← process_input rt inp g; run_inputs rt rest r.2
  end.

(** [process_command] ends with [self.transcript.append((inp, result))],
    whatever the branch; [new game] has emptied the transcript before, in
    [reset].  [line] is the stripped input.  An exception leaves the method
    before the append. *)
Definition process_input_logged (rt : Runtime) (line : string) (inp : Input)
    (state : Game * list (string * string))
  : option (string * (Game * list (string * string))) :=
  r ← process_input rt inp state.1;
  let transcript := match inp with NewGame => [] | _ => state.2 end in
  Some (r.1, (r.2, transcript_append transcript (line, r.1))).

(** ** [wrap]

    [words] is [text.split()] and [len] is [len] on [str], the number of
    characters.  The loop keeps the finished lines and the line it is
    filling. *)
Definition wrap_step (len : string → nat) (indent : string) (width : nat)
    (st : list string * string) (word : string) : list string * string :=
  let '(lines, line) := st in
  if decide (width < len line + len word + 1)%nat
  then ((lines ++ [line])%list, indent ++ word)
  else (lines, line ++ (if decide (line = EmptyString) then EmptyString else " ") ++ word).

Definition wrap_lines (len : string → nat) (words : list string) (indent : string)
    (width : nat) : list string :=
  let '(lines, line) := foldl (wrap_step len indent width) ([], EmptyString) words in
  if decide (line = EmptyString) then lines else (lines ++ [line])%list.

Definition wrap (len : string → nat) (words : list string) (indent : string)
    (width : nat) : string :=
  String.concat nl (wrap_lines len words indent width).

(** ** Entitlement candidates

    What [remove_incompatibles] lets through, for the commitments and the
    incompatibility sets that [entitlements] passes to it. *)
Definition entitled_ok (scorekeeper other : Agent) (X : gset string) : Prop :=
  ∀ x, x ∈ X →
       compatible_with (incompatibilities scorekeeper)
         (commitments scorekeeper other) x = true.

(** A map over the stack of sorted runs that merge sort keeps. *)
Definition stack_fmap {A B : Type} (f : A → B) (st : list (option (list A)))
  : list (option (list B)) :=
  (λ o : option (list A), (λ l : list A, f <$> l) <$> o) <$> st.

(** Closed decidable facts are settled by evaluation. *)
Ltac by_compute := apply (bool_decide_unpack _); vm_compute; exact I.

(** ** Consequence expansion *)

(** A loop that adds [f x] to its accumulator for the [x] that pass a test. *)
Lemma elem_of_foldl_add {A : Type} (P : A → Prop) `{∀ x, Decision (P x)}
    (f : A → string) (l : list A) (init : gset string) (y : string) :
  y ∈ foldl (λ acc x, if decide (P x) then acc ∪ {[f x]} else acc) init l ↔
  y ∈ init ∨ ∃ x, x ∈ l ∧ P x ∧ f x = y.
Proof.
  revert init. induction l as [|a l IH]; intros init; simpl.
  - split; [tauto|]. intros [|(x & Hx & _)]; [done|]. by apply elem_of_nil in Hx.
  - rewrite IH. destruct (decide (P a)) as [Ha|Ha].
    + rewrite elem_of_union, elem_of_singleton. split.
      * intros [[| ->]|(x & Hx & HP & Hf)]; [tauto| |].
        -- right. exists a. split_and!; [left|done|done].
        -- right. exists x. split_and!; [by right|done|done].
      * intros [|(x & [->|Hx]%elem_of_cons & HP & Hf)]; [tauto|by left; right|].
        right. by exists x.
    + split.
      * intros [|(x & Hx & HP & Hf)]; [tauto|].
        right. exists x. split_and!; [by right|done|done].
      * intros [|(x & [->|Hx]%elem_of_cons & HP & Hf)]; [tauto|done|].
        right. by exists x.
Qed.

Lemma elem_of_consequences_once inferences basis x :
  x ∈ consequences_once inferences basis ↔
  x ∈ basis ∨ ∃ inf, inf ∈ inferences ∧ premises inf ⊆ basis ∧ conclusion inf = x.
Proof.
  unfold consequences_once. rewrite elem_of_union.
  rewrite (elem_of_foldl_add (λ inf, premises inf ⊆ basis) conclusion).
  rewrite elem_of_empty. setoid_rewrite elem_of_elements. tauto.
Qed.

Lemma consequences_once_superset inferences basis :
  basis ⊆ consequences_once inferences basis.
Proof. intros x Hx. apply elem_of_consequences_once. by left. Qed.

(** C6.  [consequences_once] returns the base together with the conclusion of
    every inference whose premises all lie in the base; the result contains the
    base, and a larger base gives a larger result. *)
Theorem consequences_once_spec (inferences : gset Inference) (base : gset string) :
  consequences_once inferences base
    = base ∪ set_map conclusion (filter (λ inf, premises inf ⊆ base) inferences)
  ∧ base ⊆ consequences_once inferences base
  ∧ ∀ base', base ⊆ base' →
      consequences_once inferences base ⊆ consequences_once inferences base'.
Proof.
  split_and!.
  - apply set_eq. intros x.
    rewrite elem_of_consequences_once, elem_of_union, elem_of_map.
    apply or_iff_compat_l. split.
    + intros (inf & Hin & Hsub & <-). exists inf. split; [done|].
      by apply elem_of_filter.
    + intros (inf & -> & [Hsub Hin]%elem_of_filter). by exists inf.
  - apply consequences_once_superset.
  - intros base' Hle x [Hx | (inf & Hin & Hsub & Hc)]%elem_of_consequences_once;
      apply elem_of_consequences_once.
    + left. by apply Hle.
    + right. exists inf. split_and!; [done| |done]. by transitivity base.
Qed.

Lemma consequences_once_spec_witness :
  consequences_once {[red_colored]} {["A is red"]}
  ⊆ consequences_once {[red_colored]} {["A is red"; "A is small"]}.
Proof.
  apply (proj2 (proj2 (consequences_once_spec {[red_colored]} {["A is red"]}))).
  by_compute.
Defined.

(** ** Incompatibility pruning *)

Lemma compatible_with_false incs coms s :
  compatible_with incs coms s = false ↔
  ∃ inc, inc ∈ incs ∧ inc ⊆ coms ∪ {[s]} ∧ ¬ inc ⊆ coms.
Proof.
  induction incs as [|inc rest IH]; simpl.
  - split; [done|]. intros (inc & Hin & _). by apply elem_of_nil in Hin.
  - destruct (bool_decide (inc ⊆ coms ∪ {[s]})) eqn:E1;
      destruct (bool_decide (inc ⊆ coms)) eqn:E2; simpl;
      try apply bool_decide_eq_true in E1; try apply bool_decide_eq_false in E1;
      try apply bool_decide_eq_true in E2; try apply bool_decide_eq_false in E2.
    2:{ split; [|done]. intros _. exists inc. split_and!; [left|done|done]. }
    all: rewrite IH; split.
    all: try (intros (i & Hi & H1 & H2); exists i; split_and!; [by right|done|done]).
    all: intros (i & [-> | Hi]%elem_of_cons & H1 & H2); [done|by exists i].
Qed.

Lemma compatible_with_true incs coms s :
  compatible_with incs coms s = true ↔
  ∀ inc, inc ∈ incs → inc ⊆ coms ∪ {[s]} → inc ⊆ coms.
Proof.
  rewrite <- not_false_iff_true, compatible_with_false. split.
  - intros Hno inc Hin Hsub. destruct (decide (inc ⊆ coms)) as [|Hn]; [done|].
    exfalso. apply Hno. by exists inc.
  - intros Hall (inc & Hin & Hsub & Hn). apply Hn. by apply Hall.
Qed.

Lemma elem_of_remove_incompatibles sentences coms incs x :
  x ∈ remove_incompatibles sentences coms incs ↔
  x ∈ sentences ∧ compatible_with incs coms x = true.
Proof. unfold remove_incompatibles. rewrite elem_of_filter. tauto. Qed.

(** C5.  [compatible_with] answers [False] exactly when some declared
    incompatibility set lies within [commitments ∪ {sentence}] without lying
    within [commitments]; a sentence that belongs to no incompatibility set is
    never rejected, whatever [commitments] holds; and with [{A, B}] declared
    and [A] committed, [B] is rejected and [C] is not. *)
Theorem compatible_with_spec (incompatibilities : list (gset string))
    (commitments : gset string) (sentence : string) :
  (compatible_with incompatibilities commitments sentence = false ↔
     ∃ inc, inc ∈ incompatibilities
            ∧ inc ⊆ commitments ∪ {[sentence]} ∧ ¬ inc ⊆ commitments)
  ∧ ((∀ inc, inc ∈ incompatibilities → sentence ∉ inc) →
       compatible_with incompatibilities commitments sentence = true)
  ∧ compatible_with [{["A"; "B"]}] {["A"]} "B" = false
  ∧ compatible_with [{["A"; "B"]}] {["A"]} "C" = true.
Proof.
  split_and!.
  - apply compatible_with_false.
  - intros Hfree. apply compatible_with_true. intros inc Hin Hsub x Hx.
    specialize (Hsub x Hx). apply elem_of_union in Hsub as [|Heq]; [done|].
    apply elem_of_singleton in Heq as ->. by destruct (Hfree inc Hin).
  - by_compute.
  - by_compute.
Qed.

Lemma compatible_with_spec_witness :
  compatible_with [{["A"; "B"]}; {["C"; "D"]}] {["A"; "B"]} "E" = true.
Proof.
  apply (proj1 (proj2 (compatible_with_spec [{["A"; "B"]}; {["C"; "D"]}]
                         {["A"; "B"]} "E"))).
  intros inc [->|[->|[]%elem_of_nil]%elem_of_cons]%elem_of_cons; by_compute.
Defined.

(** ** The bounded fixed point *)

Lemma fixed_point_calls_fst {A : Type} `{EqDecision A} (s : A) times (f : A → A) :
  (fixed_point_calls s times f).1 = fixed_point s times f.
Proof.
  revert s. induction times as [|t IH]; intros s; simpl; [done|].
  destruct (decide (s = f s)); simpl; [done|apply IH].
Qed.

(** The run stops at the first iterate [k] that [f] leaves unchanged, having
    called [f] on the iterates [0..k], or after [times] calls when there is
    none before. *)
Lemma fixed_point_calls_iter {A : Type} `{EqDecision A} (s : A) times (f : A → A) :
  ∃ k, (fixed_point_calls s times f).1 = Nat.iter k f s
       ∧ (∀ j, j < k → f (Nat.iter j f s) ≠ Nat.iter j f s)
       ∧ ((k < times ∧ f (Nat.iter k f s) = Nat.iter k f s
           ∧ (fixed_point_calls s times f).2 = S k)
          ∨ (k = times ∧ (fixed_point_calls s times f).2 = times)).
Proof.
  revert s. induction times as [|t IH]; intros s; simpl.
  - exists 0. split_and!; [done|lia|by right].
  - destruct (decide (s = f s)) as [Heq|Hne]; simpl.
    + exists 0. split_and!; [done|lia|]. left. split_and!; [lia|done|done].
    + destruct (IH (f s)) as (k & Hres & Hbefore & Hend).
      assert (∀ j, Nat.iter j f (f s) = Nat.iter (S j) f s) as Hshift
        by (intros j; symmetry; apply Nat.iter_succ_r).
      setoid_rewrite Hshift in Hbefore. rewrite !Hshift in Hend. rewrite Hshift in Hres.
      exists (S k). split_and!; [done| |].
      * intros [|j] Hj; [simpl; congruence|]. apply Hbefore. lia.
      * destruct Hend as [(Hlt & Hfix & Hcalls) | [-> Hcalls]].
        -- left. split_and!; [lia|done|by rewrite Hcalls].
        -- right. by rewrite Hcalls.
Qed.

Lemma fixed_point_calls_le {A : Type} `{EqDecision A} (s : A) times (f : A → A) :
  ((fixed_point_calls s times f).2 ≤ times)%nat.
Proof.
  destruct (fixed_point_calls_iter s times f) as (k & _ & _ & Hend).
  destruct Hend as [(? & _ & ->) | [_ ->]]; lia.
Qed.

Lemma iter_fixed {A : Type} (f : A → A) s n : f s = s → Nat.iter n f s = s.
Proof. intros Hfix. induction n as [|n IH]; simpl; [done|]. by rewrite IH. Qed.

Lemma fixed_point_is_iter {A : Type} `{EqDecision A} (s : A) times (f : A → A) :
  fixed_point s times f = Nat.iter times f s.
Proof.
  revert s. induction times as [|t IH]; intros s; [done|].
  rewrite Nat.iter_succ_r. simpl. destruct (decide (s = f s)) as [Heq|_].
  - rewrite <- Heq. symmetry. by apply iter_fixed.
  - apply IH.
Qed.

Lemma iter_mono (f : gset string → gset string) n s s' :
  (∀ x y, x ⊆ y → f x ⊆ f y) → s ⊆ s' → Nat.iter n f s ⊆ Nat.iter n f s'.
Proof. intros Hf Hs. induction n as [|n IH]; simpl; [done|]. by apply Hf. Qed.

Lemma iter_grows (f : gset string → gset string) n m s :
  (∀ x, x ⊆ f x) → (n ≤ m)%nat → Nat.iter n f s ⊆ Nat.iter m f s.
Proof.
  intros Hf Hle. induction Hle as [|m Hle IH]; [done|].
  simpl. etransitivity; [exact IH|apply Hf].
Qed.

Lemma consequences_once_mono infs x y :
  x ⊆ y → consequences_once infs x ⊆ consequences_once infs y.
Proof.
  intros Hle z [Hz | (inf & Hin & Hsub & Hc)]%elem_of_consequences_once;
    apply elem_of_consequences_once.
  - left. by apply Hle.
  - right. exists inf. split_and!; [done| |done]. by transitivity x.
Qed.

Lemma commitments_is_iter sk ot :
  commitments sk ot
  = Nat.iter (intelligence sk) (consequences_once (committive_inferences sk))
      (commitments_avowed ot).
Proof. unfold commitments. apply fixed_point_is_iter. Qed.

(** Convergence: the step can only add conclusions of the inferences, so it
    runs out of things to add. *)
Lemma fixed_point_converges (P : gset string → Prop) (f : gset string → gset string)
    (C : gset string) s times :
  (∀ x, P x → x ⊆ f x ∧ P (f x)) → (∀ x, f x ⊆ x ∪ C) → P s →
  (size (C ∖ s) ≤ times)%nat →
  f (fixed_point s times f) = fixed_point s times f.
Proof.
  intros Hinfl Hbound. revert s. induction times as [|t IH]; intros s Hs Hsize; simpl.
  - assert (C ∖ s = ∅) as Hempty by (apply leibniz_equiv, size_empty_iff; lia).
    apply set_eq. intros z. split; [|by apply Hinfl].
    intros Hz. apply Hbound, elem_of_union in Hz as [|Hz]; [done|].
    destruct (decide (z ∈ s)) as [|Hn]; [done|].
    assert (z ∈ C ∖ s) as Hin by (by apply elem_of_difference).
    rewrite Hempty in Hin. by apply elem_of_empty in Hin.
  - destruct (decide (s = f s)) as [Heq|Hne]; [by rewrite <- Heq|].
    apply IH; [by apply Hinfl|].
    assert (C ∖ f s ⊂ C ∖ s) as Hstrict.
    { split.
      - intros w [HwC Hw]%elem_of_difference. apply elem_of_difference.
        split; [done|]. intros Hws. by apply Hw, Hinfl.
      - intros Hsub. destruct Hne. apply set_eq. intros z. split; [by apply Hinfl|].
        intros Hz. destruct (decide (z ∈ s)) as [|Hzs]; [done|].
        pose proof (Hbound s z Hz) as [|HzC]%elem_of_union; [done|].
        assert (z ∈ C ∖ f s) as Hout by (apply Hsub; by apply elem_of_difference).
        by apply elem_of_difference in Hout as [_ ?]. }
    apply subset_size in Hstrict. lia.
Qed.

Lemma size_list_to_set_le `{Countable A} (l : list A) :
  (size (list_to_set l : gset A) ≤ List.length l)%nat.
Proof.
  induction l as [|x l IH].
  - rewrite list_to_set_nil, size_empty. done.
  - rewrite list_to_set_cons. simpl.
    destruct (decide (x ∈ (list_to_set l : gset A))) as [Hin|Hout].
    + replace ({[x]} ∪ list_to_set l) with (list_to_set l : gset A); [lia|].
      apply set_eq. intros y. rewrite elem_of_union, elem_of_singleton.
      split; [tauto|]. by intros [->|].
    + rewrite size_union, size_singleton; [lia|].
      intros y ->%elem_of_singleton. done.
Qed.

Lemma size_conclusions (infs : gset Inference) :
  (size (set_map conclusion infs : gset string) ≤ size infs)%nat.
Proof.
  unfold set_map. etransitivity; [apply size_list_to_set_le|].
  by rewrite length_fmap.
Qed.







(** A step that never stabilises makes exactly [times] calls, when the frames
    allow that many. *)
Example fixed_point_cycle :
  fixed_point_calls true 5 negb = (false, 5) ∧ fixed_point true 100 negb = true.
Proof. split; reflexivity. Qed.

(** ** Entitlement expansion *)

Lemma elem_of_expand_entitlements coms ents incs cominfs perminfs times x :
  x ∈ expand_entitlements coms ents incs cominfs perminfs times ↔
  compatible_with incs coms x = true ∧
  (x ∈ ents
   ∨ (∃ inf, inf ∈ cominfs ∧ premises inf ⊆ ents ∧ conclusion inf = x)
   ∨ (∃ inf, inf ∈ perminfs ∧ premises inf ⊆ ents ∩ coms ∧ conclusion inf = x)).
Proof.
  unfold expand_entitlements, consequences_once_and_prune.
  rewrite elem_of_union, !elem_of_remove_incompatibles, !elem_of_consequences_once.
  rewrite elem_of_intersection. tauto.
Qed.

(** C2.  One step of entitlement expansion is the union of two pruned halves:
    the committive inferences applied to the whole entitlement set, and the
    permissive inferences applied to the entitlements that are also
    commitments.  A permissive inference with a premise outside that
    intersection (so also one whose premises are all entitled but not all
    committed) adds nothing: the step is the same without it. *)
Theorem expand_entitlements_spec (coms ents : gset string) (incs : list (gset string))
    (cominfs perminfs : gset Inference) (times : nat) :
  expand_entitlements coms ents incs cominfs perminfs times
    = remove_incompatibles (consequences_once cominfs ents) coms incs
      ∪ remove_incompatibles (consequences_once perminfs (ents ∩ coms)) coms incs
  ∧ (∀ inf, ¬ premises inf ⊆ ents ∩ coms →
       expand_entitlements coms ents incs cominfs perminfs times
       = expand_entitlements coms ents incs cominfs (perminfs ∖ {[inf]}) times)
  ∧ (∀ inf, premises inf ⊆ ents → ¬ premises inf ⊆ coms →
       expand_entitlements coms ents incs cominfs perminfs times
       = expand_entitlements coms ents incs cominfs (perminfs ∖ {[inf]}) times).
Proof.
  assert (∀ inf, ¬ premises inf ⊆ ents ∩ coms →
       expand_entitlements coms ents incs cominfs perminfs times
       = expand_entitlements coms ents incs cominfs (perminfs ∖ {[inf]}) times) as Hdrop.
  { intros inf Hout. apply set_eq. intros x.
    rewrite !elem_of_expand_entitlements.
    apply and_iff_compat_l, or_iff_compat_l, or_iff_compat_l. split.
    - intros (i & Hi & Hp & Hc). exists i. split_and!; [|done..].
      apply elem_of_difference. split; [done|].
      intros ->%elem_of_singleton. by apply Hout.
    - intros (i & [Hi _]%elem_of_difference & Hp & Hc). by exists i. }
  split_and!; [done|done|].
  intros inf _ Hcoms. apply Hdrop. intros Hsub. apply Hcoms.
  intros x Hx. specialize (Hsub x Hx). by apply elem_of_intersection in Hsub as [_ ?].
Qed.

Lemma expand_entitlements_spec_witness :
  expand_entitlements ∅ {["A is blue"; "A is small"]} [] ∅ {[blue_small]} 100
  = expand_entitlements ∅ {["A is blue"; "A is small"]} [] ∅
      ({[blue_small]} ∖ {[blue_small]}) 100.
Proof.
  apply (proj2 (proj2 (expand_entitlements_spec ∅ {["A is blue"; "A is small"]} [] ∅
                         {[blue_small]} 100))); by_compute.
Defined.

(** The permissive rule of the default agents, with both premises entitled and
    none committed: no firing.  With both also committed it fires. *)
Example permissive_gating :
  expand_entitlements ∅ {["A is blue"; "A is small"]} [] ∅ {[blue_small]} 100
    = {["A is blue"; "A is small"]}
  ∧ expand_entitlements {["A is blue"; "A is small"]} {["A is blue"; "A is small"]}
      [] ∅ {[blue_small]} 100
    = {["A is blue"; "A is small"; "A is poisonous"]}.
Proof. split; by_compute. Qed.

(** ** Commitments *)

Lemma fixed_point_preserves {A : Type} `{EqDecision A} (P : A → Prop) (f : A → A) s times :
  (∀ x, P x → P (f x)) → P s → P (fixed_point s times f).
Proof.
  intros Hstep. revert s. induction times as [|t IH]; intros s Hs; simpl; [done|].
  destruct (decide (s = f s)); [done|]. apply IH. by apply Hstep.
Qed.

(** After at least one round the result holds the first iterate, when the
    step never loses an element. *)
Lemma fixed_point_first_step (f : gset string → gset string) s times :
  (∀ x, x ⊆ f x) → (1 ≤ times)%nat → f s ⊆ fixed_point s times f.
Proof.
  intros Hinfl Htimes. destruct times as [|t]; [lia|]. simpl.
  destruct (decide (s = f s)) as [Heq|_].
  - by rewrite <- Heq.
  - apply (fixed_point_preserves (λ x, f s ⊆ x)); [|done].
    intros x Hx. by transitivity x.
Qed.

Lemma commitments_fires scorekeeper other inf :
  inf ∈ committive_inferences scorekeeper →
  premises inf ⊆ commitments_avowed other →
  (1 ≤ intelligence scorekeeper)%nat →
  conclusion inf ∈ commitments scorekeeper other.
Proof.
  intros Hin Hsub Hint. unfold commitments.
  apply (fixed_point_first_step
           (λ s, consequences_once (committive_inferences scorekeeper) s)); [|done|].
  - intros x. apply consequences_once_superset.
  - apply elem_of_consequences_once. right. by exists inf.
Qed.

Lemma commitments_closed scorekeeper other x :
  x ∉ commitments_avowed other →
  (∀ inf, inf ∈ committive_inferences scorekeeper → conclusion inf ≠ x) →
  x ∉ commitments scorekeeper other.
Proof.
  intros Hav Hno. unfold commitments.
  apply (fixed_point_preserves (λ s, x ∉ s)); [|done].
  intros s Hs [?|(inf & Hin & _ & Hc)]%elem_of_consequences_once; [done|].
  by apply (Hno inf).
Qed.

(** ** Unchallenged assertions *)

Lemma elem_of_assertions_challenged g agent x :
  x ∈ assertions_challenged g agent ↔
  ∃ a, a ∈ agents g ∧ mkChallenge (name agent) x ∈ challenges_issued a.
Proof.
  unfold assertions_challenged.
  assert (∀ l (init : gset string),
            x ∈ foldl (λ acc a,
                         foldl (λ acc c, if decide (target c = name agent)
                                         then acc ∪ {[sentence c]} else acc)
                               acc (elements (challenges_issued a))) init l
            ↔ x ∈ init ∨ ∃ a, a ∈ l ∧ mkChallenge (name agent) x ∈ challenges_issued a)
    as Houter.
  { induction l as [|a l IH]; intros init; simpl.
    - split; [tauto|]. intros [|(a & Ha & _)]; [done|]. by apply elem_of_nil in Ha.
    - rewrite IH, (elem_of_foldl_add (λ c, target c = name agent) sentence). split.
      + intros [[|(c & Hc & Ht & Hs)]|(b & Hb & Hc)]; [tauto| |].
        * right. exists a. split; [left|]. apply elem_of_elements in Hc.
          destruct c as [t s]; simpl in *. by subst.
        * right. exists b. split; [by right|done].
      + intros [|(b & [->|Hb]%elem_of_cons & Hc)]; [tauto| |].
        * left. right. exists (mkChallenge (name agent) x).
          split_and!; [by apply elem_of_elements|done|done].
        * right. by exists b. }
  rewrite Houter, elem_of_empty. tauto.
Qed.

Lemma elem_of_all_unchallenged_assertions g x :
  x ∈ all_unchallenged_assertions g ↔
  ∃ agent, agent ∈ agents g ∧ x ∈ assertions_unchallenged g agent.
Proof.
  unfold all_unchallenged_assertions.
  assert (∀ l (init : gset string),
            x ∈ foldl (λ acc agent, acc ∪ assertions_unchallenged g agent) init l
            ↔ x ∈ init ∨ ∃ agent, agent ∈ l ∧ x ∈ assertions_unchallenged g agent) as Hfold.
  { induction l as [|a l IH]; intros init; simpl.
    - split; [tauto|]. intros [|(a & Ha & _)]; [done|]. by apply elem_of_nil in Ha.
    - rewrite IH, elem_of_union. split.
      + intros [[|]|(b & Hb & Hx)]; [tauto| |].
        * right. exists a. split; [left|done].
        * right. exists b. split; [by right|done].
      + intros [|(b & [->|Hb]%elem_of_cons & Hx)]; [tauto|tauto|].
        right. by exists b. }
  rewrite Hfold, elem_of_empty. tauto.
Qed.

(** C7.  A statement is among the unchallenged assertions exactly when some
    agent of the game has avowed it and no agent of the game has issued a
    challenge with that agent as target and that statement as sentence.  So a
    statement whose every avowal is challenged is not among them, and is in no
    scorekeeper's entitlement base, which is a subset of them. *)
Theorem all_unchallenged_assertions_spec (g : Game) (s : string) :
  (s ∈ all_unchallenged_assertions g ↔
     ∃ x, x ∈ agents g ∧ s ∈ commitments_avowed x
          ∧ ∀ y, y ∈ agents g → mkChallenge (name x) s ∉ challenges_issued y)
  ∧ ((∀ x, x ∈ agents g → s ∈ commitments_avowed x →
           ∃ y, y ∈ agents g ∧ mkChallenge (name x) s ∈ challenges_issued y) →
       (s ∉ all_unchallenged_assertions g)
       ∧ ∀ scorekeeper other,
           s ∉ remove_incompatibles (all_unchallenged_assertions g)
                 (commitments scorekeeper other) (incompatibilities scorekeeper)).
Proof.
  assert (s ∈ all_unchallenged_assertions g ↔
            ∃ x, x ∈ agents g ∧ s ∈ commitments_avowed x
                 ∧ ∀ y, y ∈ agents g → mkChallenge (name x) s ∉ challenges_issued y)
    as Hiff.
  { rewrite elem_of_all_unchallenged_assertions. unfold assertions_unchallenged.
    split.
    - intros (x & Hx & [Hav Hnc]%elem_of_difference). exists x. split_and!; [done..|].
      intros y Hy Hc. apply Hnc, elem_of_assertions_challenged. by exists y.
    - intros (x & Hx & Hav & Hnc). exists x. split; [done|].
      apply elem_of_difference. split; [done|].
      intros (y & Hy & Hc)%elem_of_assertions_challenged. by apply (Hnc y). }
  split; [done|]. intros Hall.
  assert (s ∉ all_unchallenged_assertions g) as Hout.
  { rewrite Hiff. intros (x & Hx & Hav & Hnc).
    destruct (Hall x Hx Hav) as (y & Hy & Hc). by apply (Hnc y). }
  split; [done|]. intros scorekeeper other [Hin _]%elem_of_remove_incompatibles. done.
Qed.

(** C7 on the end-to-end scenario: in a new game Bob asserts "A is red" and
    Ann challenges it; the statement is then no unchallenged assertion and is
    in nobody's entitlement base. *)
Lemma all_unchallenged_assertions_witness :
  ("A is red" ∉ all_unchallenged_assertions game_challenged)
  ∧ ∀ scorekeeper other,
      ("A is red" ∉ remove_incompatibles (all_unchallenged_assertions game_challenged)
                      (commitments scorekeeper other) (incompatibilities scorekeeper)).
Proof.
  apply (proj2 (all_unchallenged_assertions_spec game_challenged "A is red")).
  intros x Hx Hav. simpl in Hx.
  apply elem_of_cons in Hx as [->|Hx].
  - exfalso. revert Hav. by_compute.
  - apply list_elem_of_singleton in Hx as ->. eexists. split; [left|]. by_compute.
Defined.

Example game_challenged_by_commands :
  run_commands rt_ascending
    [Asserts "Bob" "A is red"; Challenges "Ann" "Bob" "A is red"] new_game
  = Some game_challenged.
Proof. by_compute. Qed.

Lemma commitments_justified sk ot x :
  x ∈ commitments sk ot →
  x ∈ commitments_avowed ot
  ∨ ∃ inf, inf ∈ committive_inferences sk ∧ conclusion inf = x
           ∧ premises inf ⊆ commitments sk ot.
Proof.
  rewrite commitments_is_iter. generalize (intelligence sk). intros n.
  induction n as [|n IH]; simpl; [by left|].
  intros [Hx|(inf & Hin & Hsub & Hc)]%elem_of_consequences_once.
  - destruct (IH Hx) as [|(inf & Hin & Hc & Hsub)]; [by left|].
    right. exists inf. split_and!; [done..|].
    etransitivity; [exact Hsub|apply consequences_once_superset].
  - right. exists inf. split_and!; [done..|].
    etransitivity; [exact Hsub|apply consequences_once_superset].
Qed.

Lemma commitments_saturated sk ot :
  (size (committive_inferences sk) ≤ intelligence sk)%nat →
  consequences_once (committive_inferences sk) (commitments sk ot) = commitments sk ot.
Proof.
  intros Hsmart. unfold commitments.
  apply (fixed_point_converges (λ _, True)
           (λ s, consequences_once (committive_inferences sk) s)
           (set_map conclusion (committive_inferences sk))); [| |done|].
  - intros x _. split; [apply consequences_once_superset|done].
  - intros x z [Hz | (inf & Hin & _ & <-)]%elem_of_consequences_once.
    + by apply elem_of_union_l.
    + apply elem_of_union_r, elem_of_map. by exists inf.
  - etransitivity; [|exact Hsmart]. etransitivity; [|apply size_conclusions].
    apply subseteq_size. apply subseteq_difference_l. done.
Qed.

(** C3, as amended.  [commitments] is the bounded fixed point of
    [consequences_once] under the scorekeeper's committive inferences, started
    from the other agent's avowed commitments and bounded by the scorekeeper's
    intelligence: an iterate [k <= intelligence] that is closed under the
    inferences unless the bound is used up.  If Ann accepts the inference from
    "A is red" to "A is colored", her intelligence is at least 1 and Bob has
    avowed "A is red", she attributes "A is colored" to Bob, whatever rules Bob
    holds.  A sentence that the other agent has not avowed, and that every
    committive inference of the scorekeeper concluding it has a premise
    outside the attributed commitments, is not attributed: so Bob, holding the
    default rules less that one and having avowed "A is red" only, does not
    attribute "A is colored" to himself.  When the scorekeeper's intelligence
    is at least the number of its committive inferences that condition is
    exact: the attributed commitments are the avowed sentences and the
    conclusions of the inferences whose premises are attributed. *)
Theorem commitments_spec :
  (∀ scorekeeper other,
     commitments scorekeeper other
     = fixed_point (commitments_avowed other) (intelligence scorekeeper)
         (consequences_once (committive_inferences scorekeeper))
     ∧ ∃ k, (k ≤ intelligence scorekeeper)%nat
            ∧ commitments scorekeeper other
              = Nat.iter k (consequences_once (committive_inferences scorekeeper))
                  (commitments_avowed other)
            ∧ (consequences_once (committive_inferences scorekeeper)
                 (commitments scorekeeper other) = commitments scorekeeper other
               ∨ k = intelligence scorekeeper))
  ∧ (∀ ann bob,
       red_colored ∈ committive_inferences ann →
       (1 ≤ intelligence ann)%nat →
       "A is red" ∈ commitments_avowed bob →
       "A is colored" ∈ commitments ann bob)
  ∧ (∀ scorekeeper other x,
       x ∉ commitments_avowed other →
       (∀ inf, inf ∈ committive_inferences scorekeeper → conclusion inf = x →
               ¬ premises inf ⊆ commitments scorekeeper other) →
       x ∉ commitments scorekeeper other)
  ∧ (∀ scorekeeper other x,
       (size (committive_inferences scorekeeper) ≤ intelligence scorekeeper)%nat →
       x ∈ commitments scorekeeper other ↔
       x ∈ commitments_avowed other
       ∨ ∃ inf, inf ∈ committive_inferences scorekeeper ∧ conclusion inf = x
                ∧ premises inf ⊆ commitments scorekeeper other).
Proof.
  split_and!.
  - intros sk ot. split; [done|].
    destruct (fixed_point_calls_iter (commitments_avowed ot) (intelligence sk)
                (λ s, consequences_once (committive_inferences sk) s))
      as (k & Hres & _ & Hend).
    rewrite fixed_point_calls_fst in Hres.
    change (commitments sk ot
            = Nat.iter k (consequences_once (committive_inferences sk))
                (commitments_avowed ot)) in Hres.
    exists k. split_and!; [|done|].
    + destruct Hend as [(? & _) | [-> _]]; lia.
    + destruct Hend as [(_ & Hfix & _) | [-> _]]; [left|by right].
      rewrite Hres. exact Hfix.
  - intros ann bob Hrule Hint Hred.
    apply (commitments_fires ann bob red_colored); [done| |done].
    simpl. by apply singleton_subseteq_l.
  - intros sk ot x Hav Hno [?|(inf & Hin & Hc & Hsub)]%commitments_justified; [done|].
    by apply (Hno inf).
  - intros sk ot x Hsmart. split; [apply commitments_justified|].
    intros [Hav|(inf & Hin & Hc & Hsub)].
    + rewrite commitments_is_iter.
      apply (iter_grows (consequences_once (committive_inferences sk)) 0
               (intelligence sk)); [|lia|done].
      intros X. apply consequences_once_superset.
    + rewrite <- (commitments_saturated sk ot Hsmart).
      apply elem_of_consequences_once. right. by exists inf.
Qed.

Lemma commitments_spec_witness :
  "A is colored" ∈ commitments (default_Agent "Ann") bob_without_rule
  ∧ "A is colored" ∉ commitments bob_without_rule bob_without_rule.
Proof.
  split.
  - apply (proj1 (proj2 commitments_spec) (default_Agent "Ann") bob_without_rule);
      [by_compute|simpl; lia|by_compute].
  - apply (proj1 (proj2 (proj2 commitments_spec)) bob_without_rule bob_without_rule);
      [by_compute|].
    assert (set_Forall (λ inf, conclusion inf = "A is colored" →
                               ¬ premises inf ⊆ commitments bob_without_rule
                                                  bob_without_rule)
              (committive_inferences bob_without_rule)) as Hall by by_compute.
    exact Hall.
Defined.

(** C3 as stated fails twice.  With a scorekeeper of intelligence 0, Ann
    accepts the rule, Bob has asserted "A is red" without holding it, and Ann
    attributes to Bob what he avowed and nothing more.  And a Bob who does not
    hold the rule attributes "A is colored" to himself all the same when he
    has also asserted "A is blue" and holds the default rule from that. *)
Lemma commitments_claim_fails :
  (red_colored ∈ committive_inferences ann_zero
   ∧ "A is red" ∈ commitments_avowed bob_no_rules
   ∧ (red_colored ∉ committive_inferences bob_no_rules)
   ∧ commitments ann_zero bob_no_rules = {["A is red"]}
   ∧ "A is colored" ∉ commitments ann_zero bob_no_rules)
  ∧ (red_colored ∈ committive_inferences (default_Agent "Ann")
     ∧ "A is red" ∈ commitments_avowed bob_blue_too
     ∧ (red_colored ∉ committive_inferences bob_blue_too)
     ∧ "A is colored" ∈ commitments bob_blue_too bob_blue_too).
Proof. split; split_and!; by_compute. Qed.

(** ** Which intelligence bounds which fixed point *)

(** C4, as amended.  [commitments] iterates [consequences_once] as many times
    as the scorekeeper's intelligence says, and [entitlements] iterates
    [expand_entitlements] as many times as the intelligence of the other agent,
    the one scored, says; neither run calls its step more often than its
    bound.  The other agent's intelligence plays no part in the commitments;
    with an other agent of intelligence 0 the entitlements are the pruned
    base, whatever the scorekeeper's intelligence; and in an agent's score on
    itself its one intelligence bounds both. *)
Theorem fixed_point_bounds (g : Game) (scorekeeper other : Agent) :
  let coms := commitments scorekeeper other in
  let incs := incompatibilities scorekeeper in
  let base := remove_incompatibles (all_unchallenged_assertions g) coms incs in
  let step := λ s, expand_entitlements coms s incs (committive_inferences scorekeeper)
                     (permissive_inferences scorekeeper) (intelligence other) in
  commitments scorekeeper other
    = Nat.iter (intelligence scorekeeper)
        (consequences_once (committive_inferences scorekeeper))
        (commitments_avowed other)
  ∧ entitlements g scorekeeper other = Nat.iter (intelligence other) step base
  ∧ (fixed_point_calls (commitments_avowed other) (intelligence scorekeeper)
       (consequences_once (committive_inferences scorekeeper))).1
    = commitments scorekeeper other
  ∧ ((fixed_point_calls (commitments_avowed other) (intelligence scorekeeper)
        (consequences_once (committive_inferences scorekeeper))).2
     ≤ intelligence scorekeeper)%nat
  ∧ (fixed_point_calls base (intelligence other) step).1
    = entitlements g scorekeeper other
  ∧ ((fixed_point_calls base (intelligence other) step).2 ≤ intelligence other)%nat
  ∧ (∀ m, commitments scorekeeper (set_intelligence m other)
          = commitments scorekeeper other)
  ∧ (intelligence other = 0%nat → entitlements g scorekeeper other = base)
  ∧ (scorekeeper = other →
     entitlements g scorekeeper scorekeeper
     = Nat.iter (intelligence scorekeeper) step base).
Proof.
  intros coms incs base step.
  assert (entitlements g scorekeeper other = Nat.iter (intelligence other) step base)
    as Hents by apply fixed_point_is_iter.
  split_and!.
  - apply fixed_point_is_iter.
  - done.
  - apply fixed_point_calls_fst.
  - apply fixed_point_calls_le.
  - apply fixed_point_calls_fst.
  - apply fixed_point_calls_le.
  - done.
  - intros Hzero. rewrite Hents, Hzero. done.
  - intros Heq. clear Hents. subst step base incs coms. subst other.
    apply fixed_point_is_iter.
Qed.

Lemma fixed_point_bounds_witness :
  entitlements game_bob_zero (default_Agent "Ann") bob_zero
  = remove_incompatibles (all_unchallenged_assertions game_bob_zero)
      (commitments (default_Agent "Ann") bob_zero)
      (incompatibilities (default_Agent "Ann")).
Proof.
  apply (proj1 (proj2 (proj2 (proj2 (proj2 (proj2 (proj2 (proj2
           (fixed_point_bounds game_bob_zero (default_Agent "Ann") bob_zero))))))))).
  reflexivity.
Defined.

(** C4 as stated fails for [entitlements]: Ann (intelligence 100) scoring a Bob
    of intelligence 0 who asserted "A is red" stops at the base, where the
    bound taken from the scorekeeper would add "A is colored". *)
Lemma entitlements_bound_is_the_others :
  intelligence (default_Agent "Ann") = 100%nat
  ∧ intelligence bob_zero = 0%nat
  ∧ entitlements game_bob_zero (default_Agent "Ann") bob_zero = {["A is red"]}
  ∧ entitlements_scorekeeper_bound game_bob_zero (default_Agent "Ann") bob_zero
    = {["A is red"; "A is colored"]}
  ∧ entitlements game_bob_zero (default_Agent "Ann") bob_zero
    ≠ entitlements_scorekeeper_bound game_bob_zero (default_Agent "Ann") bob_zero.
Proof.
  split_and!; by_compute.
Qed.

(** ** The store embedding refines the engine *)

Lemma bind_run {A B : Type} (m : Imp.M A) (k : A → Imp.M B) h a h' :
  m h = (a, h') → (m ≫= k) h = k a h'.
Proof. intros Hm. unfold mbind, Imp.M_bind. by rewrite Hm. Qed.

Lemma new_set_run v h : Imp.new_set v h = (List.length h, (h ++ [v])%list).
Proof. done. Qed.

Lemma value_run h l v : h !! l = Some v → Imp.value l h = (v, h).
Proof. intros Hl. unfold Imp.value. by rewrite Hl. Qed.

Lemma set_add_run (h k : Imp.heap) acc x :
  Imp.set_add (List.length h) x (h ++ acc :: k)%list = (tt, (h ++ (acc ∪ {[x]}) :: k)%list).
Proof.
  unfold Imp.set_add. f_equal.
  rewrite alter_app_r_alt by lia. by rewrite Nat.sub_diag.
Qed.

Lemma set_ior_run (h k : Imp.heap) acc v :
  Imp.set_ior (List.length h) v (h ++ acc :: k)%list = (tt, (h ++ (acc ∪ v) :: k)%list).
Proof.
  unfold Imp.set_ior. f_equal.
  rewrite alter_app_r_alt by lia. by rewrite Nat.sub_diag.
Qed.

Lemma for_each_add {A : Type} (P : A → Prop) `{∀ x, Decision (P x)} (f : A → string)
    (body : A → Imp.M unit) (xs : list A) (h k : Imp.heap) (acc : gset string) :
  (∀ x acc', x ∈ xs →
     body x (h ++ acc' :: k)%list
     = (tt, (h ++ (if decide (P x) then acc' ∪ {[f x]} else acc') :: k)%list)) →
  Imp.for_each xs body (h ++ acc :: k)%list
  = (tt, (h ++ foldl (λ a x, if decide (P x) then a ∪ {[f x]} else a) acc xs :: k)%list).
Proof.
  revert acc. induction xs as [|x xs IH]; intros acc Hbody; simpl; [done|].
  erewrite bind_run; [|apply Hbody; left].
  apply IH. intros y acc' Hy. apply Hbody. by right.
Qed.

Lemma consequences_once_returns infs basis b h :
  h !! basis = Some b →
  Imp.returns_set (Imp.consequences_once infs basis) h (consequences_once infs b).
Proof.
  intros Hb. unfold Imp.consequences_once.
  exists (S (List.length h)). eexists. 
  erewrite bind_run; [|apply new_set_run].
  erewrite bind_run.
  2:{ apply (for_each_add (λ inf, premises inf ⊆ b) conclusion).
      intros inf acc' _. erewrite bind_run; [|apply value_run; by apply lookup_app_l_Some].
      destruct (decide (premises inf ⊆ b)); [apply set_add_run|done]. }
  erewrite bind_run; [|apply value_run; by apply lookup_app_l_Some].
  erewrite bind_run; [|apply value_run; by apply list_lookup_middle].
  rewrite new_set_run. rewrite <- app_assoc. simpl. split.
  - f_equal. rewrite length_app. simpl. lia.
  - rewrite (lookup_app_r h); [|lia]. replace (S (List.length h) - List.length h)%nat with 1%nat by lia. done.
Qed.

Lemma returns_set_bind {B : Type} (m : Imp.M nat) (f : nat → Imp.M B) h v Q :
  Imp.returns_set m h v →
  (∀ l k, ((h ++ k)%list) !! l = Some v →
          ∃ b k', f l (h ++ k)%list = (b, ((h ++ k) ++ k')%list) ∧ Q b (k ++ k')%list) →
  ∃ b k, (m ≫= f) h = (b, (h ++ k)%list) ∧ Q b k.
Proof.
  intros (l & k & Hrun & Hl) Hf. destruct (Hf l k Hl) as (b & k' & Hrun' & HQ).
  exists b, (k ++ k')%list. split; [|done].
  erewrite bind_run; [|done]. by rewrite Hrun', <- app_assoc.
Qed.

Lemma returns_set_then m (f : nat → Imp.M nat) h v w :
  Imp.returns_set m h v →
  (∀ l k, ((h ++ k)%list) !! l = Some v → Imp.returns_set (f l) (h ++ k)%list w) →
  Imp.returns_set (m ≫= f) h w.
Proof.
  intros Hm Hf.
  destruct (returns_set_bind m f h v (λ l k, ((h ++ k)%list) !! l = Some w) Hm)
    as (l & k & Hrun & Hl).
  - intros l k Hl. destruct (Hf l k Hl) as (l' & k' & Hrun & Hl').
    exists l', k'. split; [done|]. by rewrite app_assoc.
  - by exists l, k.
Qed.

Lemma value_then {B : Type} (f : gset string → Imp.M B) h l v :
  h !! l = Some v → (Imp.value l ≫= f) h = f v h.
Proof. intros Hl. by apply bind_run, value_run. Qed.

Lemma returns_set_value (f : gset string → Imp.M nat) h l v w :
  h !! l = Some v → Imp.returns_set (f v) h w → Imp.returns_set (Imp.value l ≫= f) h w.
Proof. intros Hl Hf. unfold Imp.returns_set. by rewrite (value_then f h l v Hl). Qed.

Lemma new_set_returns v h : Imp.returns_set (Imp.new_set v) h v.
Proof.
  exists (List.length h), [v]. split; [done|]. by apply list_lookup_middle.
Qed.

Lemma compatible_with_run incs coms c s h :
  h !! coms = Some c →
  Imp.compatible_with incs coms s h = (compatible_with incs c s, h).
Proof.
  intros Hc. induction incs as [|inc rest IH]; simpl; [done|].
  rewrite (value_then _ h coms c Hc).
  by destruct (bool_decide (inc ⊆ c ∪ {[s]}) && negb (bool_decide (inc ⊆ c))).
Qed.

Lemma foldl_add_filter (P : string → Prop) `{∀ x, Decision (P x)} (X : gset string) :
  foldl (λ a x, if decide (P x) then a ∪ {[x]} else a) ∅ (elements X) = filter P X.
Proof.
  apply set_eq. intros y.
  rewrite (elem_of_foldl_add P (λ x, x)), elem_of_filter, elem_of_empty.
  setoid_rewrite elem_of_elements. split.
  - intros [[]|(x & Hx & HP & <-)]. done.
  - intros [HP Hy]. right. by exists y.
Qed.

Lemma remove_incompatibles_returns sentences coms incs ss c h :
  h !! sentences = Some ss → h !! coms = Some c →
  Imp.returns_set (Imp.remove_incompatibles sentences coms incs) h
              (remove_incompatibles ss c incs).
Proof.
  intros Hss Hc. unfold Imp.remove_incompatibles.
  exists (List.length h). eexists.
  erewrite bind_run; [|apply new_set_run].
  rewrite (value_then _ _ sentences ss) by (by apply lookup_app_l_Some).
  erewrite bind_run.
  2:{ apply (for_each_add (λ x, compatible_with incs c x = true) (λ x, x)).
      intros x acc' _.
      erewrite bind_run; [|apply compatible_with_run; by apply lookup_app_l_Some].
      destruct (compatible_with incs c x); simpl; [apply set_add_run|done]. }
  split; [done|]. rewrite list_lookup_middle by done.
  unfold remove_incompatibles. by rewrite foldl_add_filter.
Qed.

Lemma consequences_once_and_prune_returns infs base coms incs b c h :
  h !! base = Some b → h !! coms = Some c →
  Imp.returns_set (Imp.consequences_once_and_prune infs base coms incs) h
              (consequences_once_and_prune infs b c incs).
Proof.
  intros Hb Hc. unfold Imp.consequences_once_and_prune.
  eapply returns_set_then; [by apply consequences_once_returns|].
  intros l k Hl. cbv beta. apply remove_incompatibles_returns; [done|].
  by apply lookup_app_l_Some.
Qed.

Lemma expand_entitlements_returns coms ents incs cominfs perminfs times c e h :
  h !! coms = Some c → h !! ents = Some e →
  Imp.returns_set (Imp.expand_entitlements coms ents incs cominfs perminfs times) h
              (expand_entitlements c e incs cominfs perminfs times).
Proof.
  intros Hc He. unfold Imp.expand_entitlements.
  eapply returns_set_then; [by apply consequences_once_and_prune_returns|].
  intros l2 k2 Hl2. cbv beta.
  eapply returns_set_value; [by apply lookup_app_l_Some|].
  eapply returns_set_value; [by apply lookup_app_l_Some|].
  eapply returns_set_then; [apply new_set_returns|]. intros lb kb Hlb. cbv beta.
  eapply returns_set_then.
  { apply consequences_once_and_prune_returns; [done|].
    by apply lookup_app_l_Some, lookup_app_l_Some. }
  intros l3 k3 Hl3. cbv beta.
  eapply returns_set_value; [by apply lookup_app_l_Some, lookup_app_l_Some|].
  eapply returns_set_value; [done|].
  apply new_set_returns.
Qed.

Lemma fixed_point_returns (func : nat → Imp.M nat) (pf : gset string → gset string)
    (h0 : list (gset string)) :
  (∀ h l v, h0 `prefix_of` h → h !! l = Some v → Imp.returns_set (func l) h (pf v)) →
  ∀ times h s v, h0 `prefix_of` h → h !! s = Some v →
    Imp.returns_set (Imp.fixed_point s times func) h (fixed_point v times pf).
Proof.
  intros Hfunc. induction times as [|t IH]; intros h s v Hpre Hs; simpl.
  - exists s, []. by rewrite app_nil_r.
  - eapply returns_set_then; [by apply Hfunc|]. intros nxt k Hnxt. cbv beta.
    eapply returns_set_value; [by apply lookup_app_l_Some|].
    eapply returns_set_value; [done|].
    destruct (decide (v = pf v)) as [Heq|Hne].
    + exists s, []. rewrite app_nil_r. split; [done|]. by apply lookup_app_l_Some.
    + apply IH; [|done]. etransitivity; [done|]. by apply prefix_app_r.
Qed.

Lemma allocated_lookup h o :
  Imp.allocated h o →
  h !! Imp.obj_commitments_avowed o = Some (commitments_avowed (Imp.snapshot h o)).
Proof.
  intros Ho. apply lookup_lt_is_Some in Ho as [v Hv]. simpl. by rewrite Hv.
Qed.

Lemma snapshot_app h k o :
  Imp.allocated h o → Imp.snapshot (h ++ k) o = Imp.snapshot h o.
Proof.
  intros Ho. unfold Imp.snapshot. f_equal.
  apply lookup_lt_is_Some in Ho as [v Hv].
  by rewrite (lookup_app_l_Some _ _ _ _ Hv), Hv.
Qed.

Lemma snapshot_game_app h k objs :
  Forall (Imp.allocated h) objs →
  Imp.snapshot_game (h ++ k) objs = Imp.snapshot_game h objs.
Proof.
  intros Hall. unfold Imp.snapshot_game. f_equal.
  apply Forall_fmap_ext_1. eapply Forall_impl; [done|].
  intros o Ho. by apply snapshot_app.
Qed.

Lemma allocated_app h k o : Imp.allocated h o → Imp.allocated (h ++ k) o.
Proof. unfold Imp.allocated. rewrite length_app. lia. Qed.

Lemma for_each_challenges objs (nm : string) (h k : list (gset string)) acc :
  Imp.for_each objs (λ a,
    Imp.for_each (elements (Imp.obj_challenges_issued a)) (λ c,
      if decide (target c = nm)
      then Imp.set_add (List.length h) (sentence c) else mret tt))
    (h ++ acc :: k)%list
  = (tt, (h ++ foldl (λ acc a,
                        foldl (λ acc c, if decide (target c = nm)
                                        then acc ∪ {[sentence c]} else acc)
                              acc (elements (Imp.obj_challenges_issued a)))
                     acc objs :: k)%list).
Proof.
  revert acc. induction objs as [|a objs IH]; intros acc; simpl; [done|].
  erewrite bind_run; [apply IH|].
  apply (for_each_add (λ c, target c = nm) sentence).
  intros c acc' _. destruct (decide (target c = nm)); [apply set_add_run|done].
Qed.

Lemma assertions_challenged_returns objs agent h h' :
  Imp.returns_set (Imp.assertions_challenged objs agent) h
    (assertions_challenged (Imp.snapshot_game h' objs) (Imp.snapshot h' agent)).
Proof.
  unfold Imp.assertions_challenged. exists (List.length h). eexists.
  erewrite bind_run; [|apply new_set_run].
  erewrite bind_run; [|apply for_each_challenges].
  split; [done|]. rewrite list_lookup_middle by done. f_equal.
  unfold assertions_challenged. simpl. by rewrite foldl_fmap.
Qed.

Lemma assertions_unchallenged_returns objs agent h :
  Imp.allocated h agent →
  Imp.returns_set (Imp.assertions_unchallenged objs agent) h
    (assertions_unchallenged (Imp.snapshot_game h objs) (Imp.snapshot h agent)).
Proof.
  intros Hagent. unfold Imp.assertions_unchallenged.
  eapply returns_set_then; [apply (assertions_challenged_returns _ _ _ h)|].
  intros l k Hl. cbv beta.
  eapply returns_set_value; [by apply lookup_app_l_Some, allocated_lookup|].
  eapply returns_set_value; [done|].
  apply new_set_returns.
Qed.

Lemma for_each_unchallenged (all objs : list Imp.AgentObj) (h : list (gset string)) :
  Forall (Imp.allocated h) all →
  ∀ k acc, Forall (Imp.allocated h) objs →
    ∃ k', Imp.for_each objs (λ agent,
            u ← Imp.assertions_unchallenged all agent;
            v ← Imp.value u;
            Imp.set_ior (List.length h) v) (h ++ acc :: k)%list
          = (tt, (h ++ foldl (λ acc agent,
                                acc ∪ assertions_unchallenged (Imp.snapshot_game h all)
                                        (Imp.snapshot h agent))
                             acc objs :: k')%list).
Proof.
  intros Hall. induction objs as [|a objs IH]; intros k acc Hobjs; simpl.
  - by exists k.
  - apply Forall_cons in Hobjs as [Ha Hobjs].
    destruct (assertions_unchallenged_returns all a (h ++ acc :: k)%list)
      as (u & k1 & Hrun & Hu); [by apply allocated_app|].
    rewrite snapshot_app, snapshot_game_app in Hu by done.
    destruct (IH (k ++ k1)%list
                 (acc ∪ assertions_unchallenged (Imp.snapshot_game h all)
                          (Imp.snapshot h a)) Hobjs) as (k' & Hrest).
    exists k'. erewrite bind_run; [exact Hrest|].
    erewrite bind_run; [|exact Hrun].
    rewrite (value_then _ _ u _ Hu).
    rewrite <- app_assoc. simpl. apply set_ior_run.
Qed.

Lemma all_unchallenged_assertions_returns objs h :
  Forall (Imp.allocated h) objs →
  Imp.returns_set (Imp.all_unchallenged_assertions objs) h
              (all_unchallenged_assertions (Imp.snapshot_game h objs)).
Proof.
  intros Hall. unfold Imp.all_unchallenged_assertions.
  destruct (for_each_unchallenged objs objs h Hall [] ∅ Hall) as (k' & Hloop).
  exists (List.length h). eexists.
  erewrite bind_run; [|apply new_set_run].
  erewrite bind_run; [|exact Hloop].
  split; [done|]. rewrite list_lookup_middle by done. f_equal.
  unfold all_unchallenged_assertions. simpl. by rewrite foldl_fmap.
Qed.

Lemma commitments_returns sk ot h :
  Imp.allocated h ot →
  Imp.returns_set (Imp.commitments sk ot) h
              (commitments (Imp.snapshot h sk) (Imp.snapshot h ot)).
Proof.
  intros Hot. unfold Imp.commitments, commitments.
  apply (fixed_point_returns _ (λ s, consequences_once (Imp.obj_committive_inferences sk) s) h).
  - intros h1 l v _ Hl. by apply consequences_once_returns.
  - done.
  - by apply allocated_lookup.
Qed.

Lemma entitlements_returns objs sk ot h :
  Forall (Imp.allocated h) objs → Imp.allocated h ot →
  Imp.returns_set (Imp.entitlements objs sk ot) h
              (entitlements (Imp.snapshot_game h objs) (Imp.snapshot h sk)
                            (Imp.snapshot h ot)).
Proof.
  intros Hobjs Hot. unfold Imp.entitlements, entitlements.
  eapply returns_set_then; [by apply commitments_returns|].
  intros coms k1 Hcoms. cbv beta.
  eapply returns_set_then.
  { apply all_unchallenged_assertions_returns.
    eapply Forall_impl; [done|]. intros o. apply allocated_app. }
  intros un k2 Hun. cbv beta. rewrite snapshot_game_app in Hun by done.
  eapply returns_set_then.
  { apply remove_incompatibles_returns; [done|]. by apply lookup_app_l_Some. }
  intros base k3 Hbase. cbv beta.
  apply (fixed_point_returns _
           (λ s, expand_entitlements
                   (commitments (Imp.snapshot h sk) (Imp.snapshot h ot)) s
                   (Imp.obj_incompatibilities sk)
                   (Imp.obj_committive_inferences sk)
                   (Imp.obj_permissive_inferences sk)
                   (Imp.obj_intelligence ot)) (((h ++ k1) ++ k2) ++ k3)%list).
  - intros h1 l v [k4 ->] Hl. apply expand_entitlements_returns; [|done].
    by do 3 apply lookup_app_l_Some.
  - done.
  - done.
Qed.

Lemma returns_val_of_set {B : Type} (m : Imp.M nat) (f : nat → Imp.M B) h v b :
  Imp.returns_set m h v →
  (∀ l k, ((h ++ k)%list) !! l = Some v → Imp.returns_val (f l) (h ++ k)%list b) →
  Imp.returns_val (m ≫= f) h b.
Proof.
  intros Hm Hf.
  destruct (returns_set_bind m f h v (λ b' _, b' = b) Hm) as (b' & k & Hrun & ->).
  - intros l k Hl. destruct (Hf l k Hl) as (k' & Hrun). by exists b, k'.
  - by exists k.
Qed.

Lemma returns_val_value {B : Type} (f : gset string → Imp.M B) h l v b :
  h !! l = Some v → Imp.returns_val (f v) h b → Imp.returns_val (Imp.value l ≫= f) h b.
Proof. intros Hl Hf. unfold Imp.returns_val. by rewrite (value_then f h l v Hl). Qed.

Lemma returns_val_ret {B : Type} (b : B) h : Imp.returns_val (mret b) h b.
Proof. exists []. by rewrite app_nil_r. Qed.

Lemma returns_val_bind {B C : Type} (m : Imp.M B) (f : B → Imp.M C) h b c :
  Imp.returns_val m h b →
  (∀ k, Imp.returns_val (f b) (h ++ k)%list c) →
  Imp.returns_val (m ≫= f) h c.
Proof.
  intros (k & Hrun) Hf. destruct (Hf k) as (k' & Hrun').
  exists (k ++ k')%list. erewrite bind_run; [|done]. by rewrite Hrun', app_assoc.
Qed.

Lemma incompatibles_returns sk ot h :
  Imp.allocated h ot →
  Imp.returns_val (Imp.incompatibles sk ot) h
              (incompatibles (Imp.snapshot h sk) (Imp.snapshot h ot)).
Proof.
  intros Hot. unfold Imp.incompatibles.
  eapply returns_val_of_set; [by apply commitments_returns|].
  intros l k Hl. cbv beta.
  eapply returns_val_value; [done|]. apply returns_val_ret.
Qed.

Lemma score_returns rt objs sk ot h :
  Forall (Imp.allocated h) objs → Imp.allocated h sk → Imp.allocated h ot →
  Imp.returns_val (Imp.score rt objs sk ot) h
              (score rt (Imp.snapshot_game h objs) (Imp.snapshot h sk) (Imp.snapshot h ot)).
Proof.
  intros Hobjs Hsk Hot. unfold Imp.score, score.
  eapply returns_val_of_set; [by apply commitments_returns|].
  intros coms k1 Hcoms. cbv beta.
  eapply returns_val_of_set.
  { apply entitlements_returns; [|by apply allocated_app].
    eapply Forall_impl; [done|]. intros o. apply allocated_app. }
  intros ents k2 Hents. cbv beta.
  rewrite snapshot_game_app, !snapshot_app in Hents by done.
  eapply returns_val_bind.
  { apply incompatibles_returns. by do 2 apply allocated_app. }
  intros k3. rewrite <- !app_assoc, !snapshot_app by done.
  eapply returns_val_value.
  { rewrite app_assoc. by apply lookup_app_l_Some. }
  eapply returns_val_value.
  { rewrite !app_assoc. by apply lookup_app_l_Some. }
  apply returns_val_ret.
Qed.

Lemma fold_each_returns {A B : Type} (xs : list A) (body : B → A → Imp.M B)
    (g : B → A → B) (h0 : list (gset string)) :
  (∀ h acc x, h0 `prefix_of` h → x ∈ xs → Imp.returns_val (body acc x) h (g acc x)) →
  ∀ h acc, h0 `prefix_of` h → Imp.returns_val (Imp.fold_each xs acc body) h (foldl g acc xs).
Proof.
  induction xs as [|x xs IH]; intros Hbody h acc Hpre; simpl.
  - apply returns_val_ret.
  - eapply returns_val_bind; [apply Hbody; [done|left]|].
    intros k. apply IH.
    + intros h1 acc1 y Hh1 Hy. apply Hbody; [done|by right].
    + etransitivity; [done|]. by apply prefix_app_r.
Qed.

(** Sorting commutes with a map that respects the order. *)
Section merge_sort_fmap.
  Context {A B : Type} (R : relation A) (R' : relation B) (f : A → B).
  Context `{∀ x y, Decision (R x y)} `{∀ x y, Decision (R' x y)}.
  Hypothesis Hf : ∀ x y, R x y ↔ R' (f x) (f y).

Lemma list_merge_fmap (l1 l2 : list A) :
  list_merge R' (f <$> l1) (f <$> l2) = f <$> list_merge R l1 l2.
Proof.
  revert l2. induction l1 as [|x1 l1 IH1]; intros l2; [by destruct l2|].
  induction l2 as [|x2 l2 IH2]; [done|]. simpl.
  destruct (decide (R x1 x2)) as [HR|HR], (decide (R' (f x1) (f x2))) as [HR'|HR'].
  - simpl. f_equal. apply (IH1 (x2 :: l2)).
  - by apply Hf in HR.
  - by apply Hf in HR'.
  - simpl. f_equal. apply IH2.
Qed.

Lemma merge_list_to_stack_fmap (st : list (option (list A))) (l : list A) :
  merge_list_to_stack R' (stack_fmap f st) (f <$> l)
  = stack_fmap f (merge_list_to_stack R st l).
Proof.
  revert l. induction st as [|[l'|] st IH]; intros l; simpl; [done| |done].
  f_equal. rewrite list_merge_fmap. apply IH.
Qed.

Lemma merge_stack_fmap (st : list (option (list A))) :
  merge_stack R' (stack_fmap f st) = f <$> merge_stack R st.
Proof.
  induction st as [|[l|] st IH]; simpl; [done| |done].
  by rewrite IH, list_merge_fmap.
Qed.

Lemma merge_sort_aux_fmap (st : list (option (list A))) (l : list A) :
  merge_sort_aux R' (stack_fmap f st) (f <$> l) = f <$> merge_sort_aux R st l.
Proof.
  revert st. induction l as [|x l IH]; intros st; simpl.
  - apply merge_stack_fmap.
  - rewrite <- IH. f_equal. apply (merge_list_to_stack_fmap st [x]).
Qed.

Lemma merge_sort_fmap (l : list A) : merge_sort R' (f <$> l) = f <$> merge_sort R l.
Proof. apply (merge_sort_aux_fmap []). Qed.
End merge_sort_fmap.

Lemma score_all_returns rt objs h :
  Forall (Imp.allocated h) objs →
  Imp.returns_val (Imp.score_all rt objs) h (score_all rt (Imp.snapshot_game h objs)).
Proof.
  intros Hobjs. unfold Imp.score_all, score_all, sorted_agents. simpl.
  rewrite (merge_sort_fmap Imp.obj_name_le name_le (Imp.snapshot h)) by done.
  rewrite foldl_fmap.
  assert (∀ o, o ∈ merge_sort Imp.obj_name_le objs → Imp.allocated h o) as Hsorted.
  { intros o Ho. rewrite merge_sort_Permutation in Ho.
    by apply (proj1 (Forall_forall _ _) Hobjs). }
  apply (fold_each_returns _ _ _ h); [|done].
  intros h1 acc sk [k1 ->] Hsk. rewrite foldl_fmap.
  apply (fold_each_returns _ _ _ (h ++ k1)%list); [|done].
  intros h2 acc2 ot [k2 ->] Hot.
  eapply returns_val_bind.
  - apply score_returns.
    + eapply Forall_impl; [done|]. intros o Ho. by do 2 apply allocated_app.
    + do 2 apply allocated_app. by apply Hsorted.
    + do 2 apply allocated_app. by apply Hsorted.
  - intros k3. rewrite <- !app_assoc.
    rewrite snapshot_game_app, !snapshot_app by (done || by apply Hsorted).
    apply returns_val_ret.
Qed.

(** ** Scoring reads and never writes *)

Lemma returns_val_unchanged {A : Type} (m : Imp.M A) h a :
  Imp.returns_val m h a → Imp.unchanged h (m h).2.
Proof.
  intros (k & ->). simpl. split.
  - intros l v Hl. by apply lookup_app_l_Some.
  - intros o Ho. by apply snapshot_app.
Qed.

Lemma returns_set_unchanged (m : Imp.M nat) h v :
  Imp.returns_set m h v → Imp.unchanged h (m h).2.
Proof.
  intros (l & k & Hrun & _). apply (returns_val_unchanged m h l). by exists k.
Qed.

Lemma score_commands_keep_game rt g scorekeeper_name other_name :
  (∃ out, process_command rt (ScoreOn scorekeeper_name other_name) g = Some (out, g))
  ∧ process_command rt ScoreAll g = Some (score_all rt g, g).
Proof.
  split; [|done]. simpl.
  destruct (agent_named rt g scorekeeper_name) as [[? sk]|]; [|by eexists].
  destruct (agent_named rt g other_name) as [[? ot]|]; by eexists.
Qed.

(** C8.  Run on any store in which the agents' sets of avowed commitments
    live, each of [commitments], [entitlements], [incompatibles], [score] and
    [score_all] ends with a store that is the one it started from followed by
    the sets it made: every set that existed before the call has its value,
    and every agent its fields.  What each returns is what the engine computes
    from the values the agents had when it was called.  The two commands that
    only score hand the game back as they got it. *)
Theorem scoring_reads_only (rt : Runtime) (h : list (gset string))
    (objs : list Imp.AgentObj) (sk ot : Imp.AgentObj) :
  Forall (Imp.allocated h) objs → Imp.allocated h sk → Imp.allocated h ot →
  let g := Imp.snapshot_game h objs in
  let scorekeeper := Imp.snapshot h sk in
  let other := Imp.snapshot h ot in
  (Imp.returns_set (Imp.commitments sk ot) h (commitments scorekeeper other)
   ∧ Imp.unchanged h (Imp.commitments sk ot h).2)
  ∧ (Imp.returns_set (Imp.entitlements objs sk ot) h (entitlements g scorekeeper other)
     ∧ Imp.unchanged h (Imp.entitlements objs sk ot h).2)
  ∧ (Imp.returns_val (Imp.incompatibles sk ot) h (incompatibles scorekeeper other)
     ∧ Imp.unchanged h (Imp.incompatibles sk ot h).2)
  ∧ (Imp.returns_val (Imp.score rt objs sk ot) h (score rt g scorekeeper other)
     ∧ Imp.unchanged h (Imp.score rt objs sk ot h).2)
  ∧ (Imp.returns_val (Imp.score_all rt objs) h (score_all rt g)
     ∧ Imp.unchanged h (Imp.score_all rt objs h).2)
  ∧ (∀ game scorekeeper_name other_name,
       (∃ out, process_command rt (ScoreOn scorekeeper_name other_name) game
               = Some (out, game))
       ∧ process_command rt ScoreAll game = Some (score_all rt game, game)).
Proof.
  intros Hobjs Hsk Hot g scorekeeper other.
  pose proof (commitments_returns sk ot h Hot) as Hcoms.
  pose proof (entitlements_returns objs sk ot h Hobjs Hot) as Hents.
  pose proof (incompatibles_returns sk ot h Hot) as Hincs.
  pose proof (score_returns rt objs sk ot h Hobjs Hsk Hot) as Hscore.
  pose proof (score_all_returns rt objs h Hobjs) as Hall.
  split_and!; try done.
  - by eapply returns_set_unchanged.
  - by eapply returns_set_unchanged.
  - by eapply returns_val_unchanged.
  - by eapply returns_val_unchanged.
  - by eapply returns_val_unchanged.
  - intros game sn on. apply score_commands_keep_game.
Qed.

Lemma scoring_reads_only_witness :
  Imp.returns_val
    (Imp.score rt_ascending objs_ann_bob (Imp.default_obj "Ann" 0) (Imp.default_obj "Bob" 1))
    store_ann_bob
    (score rt_ascending (Imp.snapshot_game store_ann_bob objs_ann_bob)
       (Imp.snapshot store_ann_bob (Imp.default_obj "Ann" 0))
       (Imp.snapshot store_ann_bob (Imp.default_obj "Bob" 1)))
  ∧ Imp.unchanged store_ann_bob
      (Imp.score rt_ascending objs_ann_bob (Imp.default_obj "Ann" 0)
         (Imp.default_obj "Bob" 1) store_ann_bob).2.
Proof.
  apply (scoring_reads_only rt_ascending store_ann_bob objs_ann_bob
           (Imp.default_obj "Ann" 0) (Imp.default_obj "Bob" 1)).
  - repeat constructor; unfold Imp.allocated; simpl; lia.
  - unfold Imp.allocated; simpl; lia.
  - unfold Imp.allocated; simpl; lia.
Defined.

(** The store embedding on the scenario: Bob's avowed set is returned by
    reference when Bob, who holds the rule, has also asserted
    "A is colored"; nothing is allocated. *)
Example commitments_returns_the_avowed_set :
  (Imp.commitments (Imp.default_obj "Bob" 0) (Imp.default_obj "Bob" 0)
     [{["A is red"; "A is colored"]}]).1 = 0%nat.
Proof. by_compute. Qed.

(** ** The order on statements *)

Lemma str_le_cases s1 s2 :
  str_le s1 s2 ↔ OrderedTypeEx.String_as_OT.lt s1 s2 ∨ s1 = s2.
Proof.
  unfold str_le, String.leb.
  rewrite <- OrderedTypeEx.String_as_OT.cmp_lt, <- (OrderedTypeEx.String_as_OT.cmp_eq s1 s2).
  unfold OrderedTypeEx.String_as_OT.cmp.
  destruct (String.compare s1 s2); split; intros; try tauto; try done.
  by destruct H.
Qed.

Lemma str_le_trans : Transitive str_le.
Proof.
  intros x y z. rewrite !str_le_cases. intros [Hxy| ->] [Hyz| ->]; [|tauto..].
  left. by apply (OrderedTypeEx.String_as_OT.lt_trans x y z).
Qed.

Lemma str_le_total : Total str_le.
Proof. intros x y. apply String.leb_total. Qed.

Lemma str_le_antisymm : AntiSymm eq str_le.
Proof. intros x y. apply String.leb_antisym. Qed.

Lemma str_le_refl : Reflexive str_le.
Proof. intros x. apply str_le_cases. by right. Qed.

#[local] Existing Instances str_le_trans str_le_total str_le_antisymm str_le_refl.

Lemma sorted_Permutation xs ys : xs ≡ₚ ys → sorted xs = sorted ys.
Proof.
  intros Hperm. unfold sorted.
  apply (Sorted_unique str_le); [apply Sorted_merge_sort, _..|].
  by rewrite !merge_sort_Permutation.
Qed.

Lemma sorted_spec xs : StronglySorted str_le (sorted xs) ∧ sorted xs ≡ₚ xs.
Proof.
  split; [apply StronglySorted_merge_sort; apply _|apply merge_sort_Permutation].
Qed.

Lemma rt_ascending_ok : runtime_ok rt_ascending.
Proof. split; intros s; simpl; [apply merge_sort_Permutation|done]. Qed.

Lemma rt_descending_ok : runtime_ok rt_descending.
Proof.
  split; intros s; simpl; [|done].
  unfold sorted. by rewrite reverse_Permutation, (merge_sort_Permutation str_le).
Qed.

Lemma format_set_canonical rt s :
  (∀ X, iter_statements rt X ≡ₚ elements X) →
  Enh.format_set rt s
  = (if decide (s = ∅) then EmptyString
     else nl ++ String.concat nl ((λ e, "  " ++ e) <$> sorted (elements s))).
Proof.
  intros Hok. unfold Enh.format_set. destruct (decide (s = ∅)); [done|].
  by rewrite (sorted_Permutation _ _ (Hok s)).
Qed.

Lemma format_incompatibilities_same rt1 rt2 incs :
  runtime_ok rt1 → runtime_ok rt2 →
  iter_sets rt1 incs = iter_sets rt2 incs →
  Enh.format_incompatibilities rt1 incs = Enh.format_incompatibilities rt2 incs.
Proof.
  intros [Hok1 _] [Hok2 _] Hsets. unfold Enh.format_incompatibilities.
  destruct (decide (incs = ∅)); [done|]. rewrite Hsets. f_equal.
  apply list_fmap_ext. intros _ inc _.
  by rewrite (sorted_Permutation _ (elements inc)), <- (sorted_Permutation _ _ (Hok2 inc)).
Qed.

Lemma sorted_agents_Permutation g1 g2 :
  NoDup (name <$> agents g1) →
  agents g1 ≡ₚ agents g2 →
  sorted_agents g1 = sorted_agents g2.
Proof.
  intros Hnodup Hperm. unfold sorted_agents.
  assert (Transitive name_le) as Htrans.
  { intros x y z. unfold name_le. apply str_le_trans. }
  assert (Total name_le) as Htotal.
  { intros x y. unfold name_le. apply str_le_total. }
  apply (Sorted_unique_strong name_le).
  - intros x1 x2 Hx1 Hx2 H12 H21.
    rewrite merge_sort_Permutation in Hx1. rewrite merge_sort_Permutation, <- Hperm in Hx2.
    assert (name x1 = name x2) as Hname by (by apply str_le_antisymm).
    apply list_elem_of_lookup in Hx1 as [i Hi], Hx2 as [j Hj].
    assert (i = j) as ->.
    { apply (NoDup_lookup _ i j (name x1) Hnodup).
      - by rewrite list_lookup_fmap, Hi.
      - by rewrite list_lookup_fmap, Hj, Hname. }
    congruence.
  - by apply Sorted_merge_sort.
  - by apply Sorted_merge_sort.
  - by rewrite !merge_sort_Permutation.
Qed.

Lemma foldl_ext_all {A B : Type} (f f' : A → B → A) (l : list B) (a : A) :
  (∀ a b, f a b = f' a b) → foldl f a l = foldl f' a l.
Proof.
  intros Hext. revert a. induction l as [|b l IH]; intros a; simpl; [done|].
  by rewrite Hext, IH.
Qed.

Lemma string_app_nil_r (s : string) : s ++ EmptyString = s.
Proof.
  induction s as [|c s IH]; [done|].
  change (String c (s ++ EmptyString) = String c s). by rewrite IH.
Qed.

Lemma string_app_assoc (s1 s2 s3 : string) : (s1 ++ s2) ++ s3 = s1 ++ s2 ++ s3.
Proof.
  induction s1 as [|c s1 IH]; [done|].
  change (String c ((s1 ++ s2) ++ s3) = String c (s1 ++ s2 ++ s3)). by rewrite IH.
Qed.

Lemma string_concat_cons (x : string) (l : list string) :
  String.concat EmptyString (x :: l) = x ++ String.concat EmptyString l.
Proof. destruct l as [|y l]; [symmetry; apply string_app_nil_r|done]. Qed.

Lemma string_concat_app (l1 l2 : list string) :
  String.concat EmptyString (l1 ++ l2)
  = String.concat EmptyString l1 ++ String.concat EmptyString l2.
Proof.
  induction l1 as [|x l1 IH]; [done|].
  rewrite <- app_comm_cons, !string_concat_cons, IH. by rewrite string_app_assoc.
Qed.

Lemma foldl_append {A : Type} (f : A → string) (l : list A) (init : string) :
  foldl (λ out x, out ++ f x) init l = init ++ String.concat EmptyString (f <$> l).
Proof.
  revert init. induction l as [|x l IH]; intros init.
  - simpl. symmetry. apply string_app_nil_r.
  - cbn [foldl]. rewrite IH, fmap_cons, string_concat_cons. apply string_app_assoc.
Qed.

Lemma foldl_append_pairs {A : Type} (f : A → A → string) (l1 l2 : list A)
    (init : string) :
  foldl (λ out sk, foldl (λ out ot, out ++ f sk ot) out l2) init l1
  = init ++ String.concat EmptyString (List.concat ((λ sk, f sk <$> l2) <$> l1)).
Proof.
  revert init. induction l1 as [|sk l1 IH]; intros init.
  - simpl. symmetry. apply string_app_nil_r.
  - cbn [foldl]. rewrite IH, foldl_append. rewrite fmap_cons. cbn [List.concat].
    rewrite string_concat_app. apply string_app_assoc.
Qed.

Lemma enh_score_same rt1 rt2 g1 g2 sk ot :
  runtime_ok rt1 → runtime_ok rt2 →
  iter_sets rt1 (incompatibles sk ot) = iter_sets rt2 (incompatibles sk ot) →
  entitlements g1 sk ot = entitlements g2 sk ot →
  Enh.score rt1 g1 sk ot = Enh.score rt2 g2 sk ot.
Proof.
  intros Hok1 Hok2 Hsets Hents. unfold Enh.score. rewrite Hents.
  rewrite (format_incompatibilities_same rt1 rt2) by done.
  rewrite !(format_set_canonical rt1), !(format_set_canonical rt2);
    [done|apply Hok2..|apply Hok1|apply Hok1].
Qed.

Lemma sorted_agents_spec g :
  StronglySorted name_le (sorted_agents g) ∧ sorted_agents g ≡ₚ agents g.
Proof.
  assert (Transitive name_le) as Htrans.
  { intros x y z. unfold name_le. apply str_le_trans. }
  assert (Total name_le) as Htotal.
  { intros x y. unfold name_le. apply str_le_total. }
  split; [apply StronglySorted_merge_sort; apply _|apply merge_sort_Permutation].
Qed.

(** C9, as amended.  In the enhanced variant [format_set] lists a set of
    statements in ascending lexicographic order of their text, one to a line,
    whatever order the interpreter visits the set in: on any two interpreters
    the text is the same.  The commitments and entitlements of [score] are
    rendered this way, so those two blocks are the same text on every
    interpreter, and the whole text of [score] and of [score_all] is the same
    on two interpreters that visit the attributed incompatibility sets in the
    same order.  [score_all], in both variants, is the text of the blocks for
    the pairs of agents taken in ascending order of name, whatever the order
    of the agent set. *)
Theorem format_set_sorted (rt1 rt2 : Runtime) (s : gset string) :
  runtime_ok rt1 → runtime_ok rt2 →
  Enh.format_set rt1 s = Enh.format_set rt2 s
  ∧ Enh.format_set rt1 s
    = (if decide (s = ∅) then EmptyString
       else nl ++ String.concat nl ((λ e, "  " ++ e) <$> sorted (elements s)))
  ∧ StronglySorted str_le (sorted (elements s))
  ∧ sorted (elements s) ≡ₚ elements s
  ∧ (∀ g scorekeeper other,
       iter_sets rt1 (incompatibles scorekeeper other)
       = iter_sets rt2 (incompatibles scorekeeper other) →
       Enh.score rt1 g scorekeeper other = Enh.score rt2 g scorekeeper other)
  ∧ (∀ g1 g2, NoDup (name <$> agents g1) → agents g1 ≡ₚ agents g2 →
              sorted_agents g1 = sorted_agents g2)
  ∧ (∀ g scorekeeper other,
       Enh.score rt1 g scorekeeper other
       = nl ++ name scorekeeper ++ "'s score on " ++ name other ++ ":" ++ nl ++
         "Commitments:" ++ Enh.format_set rt2 (commitments scorekeeper other) ++ nl ++
         "Entitlements:" ++ Enh.format_set rt2 (entitlements g scorekeeper other) ++ nl ++
         "Incompatibles:" ++ nl ++
         Enh.format_incompatibilities rt1 (incompatibles scorekeeper other) ++ nl)
  ∧ (∀ g, StronglySorted name_le (sorted_agents g) ∧ sorted_agents g ≡ₚ agents g)
  ∧ (∀ g, score_all rt1 g
          = String.concat EmptyString
              (List.concat
                 ((λ sk, (λ ot, name sk ++ "'s score on " ++ name ot ++ ":"
                                ++ score rt1 g sk ot) <$> sorted_agents g)
                    <$> sorted_agents g)))
  ∧ (∀ g, Enh.score_all rt1 g
          = String.concat EmptyString
              (List.concat
                 ((λ sk, (λ ot, Enh.score rt1 g sk ot) <$> sorted_agents g)
                    <$> sorted_agents g)))
  ∧ (∀ g, (∀ scorekeeper other,
             iter_sets rt1 (incompatibles scorekeeper other)
             = iter_sets rt2 (incompatibles scorekeeper other)) →
          Enh.score_all rt1 g = Enh.score_all rt2 g).
Proof.
  intros Hok1 Hok2. split_and!.
  - rewrite !format_set_canonical; [done|apply Hok2|apply Hok1].
  - apply format_set_canonical, Hok1.
  - apply sorted_spec.
  - apply sorted_spec.
  - intros g scorekeeper other Hsets. by apply enh_score_same.
  - apply sorted_agents_Permutation.
  - intros g scorekeeper other. unfold Enh.score.
    rewrite !(format_set_canonical rt1), !(format_set_canonical rt2);
      [done|apply Hok2..|apply Hok1|apply Hok1].
  - apply sorted_agents_spec.
  - intros g. unfold score_all.
    apply (foldl_append_pairs
             (λ sk ot, name sk ++ "'s score on " ++ name ot ++ ":" ++ score rt1 g sk ot)).
  - intros g. unfold Enh.score_all.
    apply (foldl_append_pairs (λ sk ot, Enh.score rt1 g sk ot)).
  - intros g Hsets. unfold Enh.score_all.
    apply foldl_ext_all. intros out sk. apply foldl_ext_all. intros out' ot.
    f_equal. by apply enh_score_same.
Qed.

Lemma format_set_sorted_witness :
  Enh.format_set rt_ascending {["A is red"; "A is colored"]}
  = Enh.format_set rt_descending {["A is red"; "A is colored"]}.
Proof.
  apply (proj1 (format_set_sorted rt_ascending rt_descending
                  {["A is red"; "A is colored"]} rt_ascending_ok rt_descending_ok)).
Defined.

(** C9 as stated fails for [gogar.py]: its [score] prints each set with [repr],
    in the order the interpreter visits it and with no sort, so two
    interpreters give two texts for the same agents. *)
Lemma score_depends_on_iteration_order :
  runtime_ok rt_ascending ∧ runtime_ok rt_descending
  ∧ commitments bob_no_rules bob_no_rules = {["A is red"]}
  ∧ repr_set rt_ascending (commitments (default_Agent "Ann") bob_no_rules)
    = "{'A is colored', 'A is red'}"
  ∧ repr_set rt_descending (commitments (default_Agent "Ann") bob_no_rules)
    = "{'A is red', 'A is colored'}"
  ∧ score rt_ascending (mkGame [default_Agent "Ann"; bob_no_rules])
          (default_Agent "Ann") bob_no_rules
    ≠ score rt_descending (mkGame [default_Agent "Ann"; bob_no_rules])
            (default_Agent "Ann") bob_no_rules.
Proof.
  split_and!; [apply rt_ascending_ok|apply rt_descending_ok|by_compute..].
Qed.

(** ** Removing what is not there *)

Lemma list_remove_is_Some {A : Type} `{EqDecision A} (x : A) (l : list A) :
  x ∈ l → is_Some (list_remove x l).
Proof.
  induction l as [|y l IH]; intros Hin; simpl.
  - by apply elem_of_nil in Hin.
  - destruct (decide (y = x)) as [|Hne]; [by eexists|].
    apply elem_of_cons in Hin as [->|Hin]; [done|].
    destruct (IH Hin) as [l' ->]. by eexists.
Qed.

Lemma agent_named_lookup rt g nm ref agent :
  agent_named rt g nm = Some (ref, agent) → agents g !! ref = Some agent.
Proof. unfold agent_named. by intros (Hl & _)%list_find_Some. Qed.

Lemma store_agent_same g ref agent :
  agents g !! ref = Some agent → store_agent g ref agent = g.
Proof.
  intros Hl. unfold store_agent. rewrite list_insert_id by done. by destruct g.
Qed.

Lemma withdraws_challenge_absent self agent s :
  mkChallenge (name agent) s ∉ challenges_issued self →
  withdraws_challenge self agent s = self.
Proof.
  intros Habs. unfold withdraws_challenge, set_challenges_issued.
  replace (challenges_issued self ∖ {[mkChallenge (name agent) s]})
    with (challenges_issued self).
  - by destruct self.
  - apply set_eq. intros c. rewrite elem_of_difference, elem_of_singleton.
    split; [|tauto]. intros Hc. split; [done|]. by intros ->.
Qed.

Lemma discard_absent `{Countable A} (x : A) (X : gset A) : x ∉ X → X ∖ {[x]} = X.
Proof.
  intros Habs. apply set_eq. intros c. rewrite elem_of_difference, elem_of_singleton.
  split; [tauto|]. intros Hc. split; [done|]. by intros ->.
Qed.

(** C10.  Withdrawing a challenge, removing an inference and removing an
    incompatibility raise no error, whatever the game and the arguments; and
    when the challenge, inference or incompatibility set is not among those of
    the agent named (or no such agent exists), the game after the command is
    the game before it.  [withdraws_challenge] itself returns the agent
    unchanged when the challenge is absent. *)
Theorem removal_of_absent_is_noop (rt : Runtime) (g : Game) :
  (∀ agent_name target_name s,
     (∀ ref agent j tgt,
        agent_named rt g agent_name = Some (ref, agent) →
        agent_named rt g target_name = Some (j, tgt) →
        mkChallenge (name tgt) s ∉ challenges_issued agent) →
     ∃ out, process_command rt (WithdrawsChallenge agent_name target_name s) g
            = Some (out, g))
  ∧ (∀ agent_name kind ps c,
       (∀ ref agent,
          agent_named rt g agent_name = Some (ref, agent) →
          mkInference (list_to_set ps) c
            ∉ match kind with
              | committive => committive_inferences agent
              | permissive => permissive_inferences agent
              end) →
       ∃ out, process_command rt (RemovesInference agent_name kind ps c) g
              = Some (out, g))
  ∧ (∀ agent_name ss,
       (∀ ref agent,
          agent_named rt g agent_name = Some (ref, agent) →
          list_to_set ss ∉ incompatibilities agent) →
       ∃ out, process_command rt (RemovesIncompatibility agent_name ss) g
              = Some (out, g))
  ∧ (∀ agent_name target_name kind ps c ss s,
       is_Some (process_command rt (WithdrawsChallenge agent_name target_name s) g)
       ∧ is_Some (process_command rt (RemovesInference agent_name kind ps c) g)
       ∧ is_Some (process_command rt (RemovesIncompatibility agent_name ss) g))
  ∧ (∀ self agent s,
       mkChallenge (name agent) s ∉ challenges_issued self →
       withdraws_challenge self agent s = self).
Proof.
  split_and!.
  - intros an tn s Habs. simpl.
    destruct (agent_named rt g an) as [[ref agent]|] eqn:Ha; [|by eexists].
    destruct (agent_named rt g tn) as [[j tgt]|] eqn:Ht; [|by eexists].
    rewrite withdraws_challenge_absent by (by eapply Habs).
    rewrite store_agent_same by (by eapply agent_named_lookup). by eexists.
  - intros an kind ps c Habs. simpl.
    destruct (agent_named rt g an) as [[ref agent]|] eqn:Ha; [|by eexists].
    specialize (Habs ref agent eq_refl).
    destruct kind; rewrite discard_absent by done.
    + replace (set_committive_inferences (committive_inferences agent) agent)
        with agent by (by destruct agent).
      rewrite store_agent_same by (by eapply agent_named_lookup). by eexists.
    + replace (set_permissive_inferences (permissive_inferences agent) agent)
        with agent by (by destruct agent).
      rewrite store_agent_same by (by eapply agent_named_lookup). by eexists.
  - intros an ss Habs. simpl.
    destruct (agent_named rt g an) as [[ref agent]|] eqn:Ha; [|by eexists].
    specialize (Habs ref agent eq_refl).
    destruct (decide (list_to_set ss ∈ incompatibilities agent)); [done|]. simpl.
    replace (set_incompatibilities (incompatibilities agent) agent)
      with agent by (by destruct agent).
    rewrite store_agent_same by (by eapply agent_named_lookup). by eexists.
  - intros an tn kind ps c ss s. split_and!; simpl.
    + destruct (agent_named rt g an) as [[ref agent]|]; [|by eexists].
      destruct (agent_named rt g tn) as [[j tgt]|]; by eexists.
    + destruct (agent_named rt g an) as [[ref agent]|]; by eexists.
    + destruct (agent_named rt g an) as [[ref agent]|]; [|by eexists].
      destruct (decide (list_to_set ss ∈ incompatibilities agent)) as [Hin|]; simpl.
      * destruct (list_remove_is_Some _ _ Hin) as [l' ->]. by eexists.
      * by eexists.
  - apply withdraws_challenge_absent.
Qed.

Lemma removal_of_absent_is_noop_witness :
  ∃ out, process_command rt_ascending
           (RemovesIncompatibility "Ann" ["A is red"; "A is yellow"]) new_game
         = Some (out, new_game).
Proof.
  apply (removal_of_absent_is_noop rt_ascending new_game).
  intros ref agent Hnamed.
  assert (agent_named rt_ascending new_game "Ann" = Some (0%nat, default_Agent "Ann"))
    as Hann by by_compute.
  rewrite Hann in Hnamed. injection Hnamed as <- <-. by_compute.
Defined.

(** ** More on the bounded fixed point *)

(** X1.  [fixed_point s times func] is [func] applied [times] times to [s]:
    stopping early, when [func] returns its argument, changes no result.  Once
    the result is a fixed point of [func], a larger bound gives the same
    result. *)
Theorem fixed_point_early_exit {A : Type} `{EqDecision A} (s : A) (times : nat)
    (f : A → A) :
  fixed_point s times f = Nat.iter times f s
  ∧ (∀ more, f (fixed_point s times f) = fixed_point s times f →
             fixed_point s (times + more) f = fixed_point s times f).
Proof.
  split; [apply fixed_point_is_iter|].
  intros more Hfix. rewrite !fixed_point_is_iter in *.
  rewrite Nat.add_comm, Nat.iter_add. by apply iter_fixed.
Qed.

(** X2.  The commitments a scorekeeper attributes hold everything the other
    agent avowed, and beyond that only conclusions of the scorekeeper's
    committive inferences. *)
Theorem commitments_between (scorekeeper other : Agent) :
  commitments_avowed other ⊆ commitments scorekeeper other
  ∧ commitments scorekeeper other
    ⊆ commitments_avowed other
      ∪ set_map conclusion (committive_inferences scorekeeper).
Proof.
  split.
  - rewrite commitments_is_iter.
    apply (iter_grows _ 0 (intelligence scorekeeper)); [|lia].
    apply consequences_once_superset.
  - unfold commitments.
    apply (fixed_point_preserves
             (λ X, X ⊆ commitments_avowed other
                       ∪ set_map conclusion (committive_inferences scorekeeper))).
    + intros X HX z [Hz | (inf & Hin & _ & <-)]%elem_of_consequences_once.
      * by apply HX.
      * apply elem_of_union_r, elem_of_map. by exists inf.
    + apply union_subseteq_l.
Qed.

(** X3.  Attributed commitments grow with the scorekeeper's intelligence and
    with what the other agent has avowed. *)
Theorem commitments_monotone (scorekeeper other : Agent) :
  (∀ n, (intelligence scorekeeper ≤ n)%nat →
        commitments scorekeeper other
        ⊆ commitments (set_intelligence n scorekeeper) other)
  ∧ (∀ other', commitments_avowed other ⊆ commitments_avowed other' →
               commitments scorekeeper other ⊆ commitments scorekeeper other').
Proof.
  split.
  - intros n Hle. rewrite !commitments_is_iter. simpl.
    apply iter_grows; [apply consequences_once_superset|done].
  - intros other' Hle. rewrite !commitments_is_iter.
    apply iter_mono; [apply consequences_once_mono|done].
Qed.

(** X4.  A scorekeeper whose intelligence is at least the number of its
    committive inferences attributes commitments that are closed under those
    inferences: one more round of [consequences_once] adds nothing, every
    inference whose premises are attributed has its conclusion attributed, and
    a larger intelligence changes nothing. *)
Theorem commitments_closed_when_smart (scorekeeper other : Agent) :
  (size (committive_inferences scorekeeper) ≤ intelligence scorekeeper)%nat →
  consequences_once (committive_inferences scorekeeper) (commitments scorekeeper other)
  = commitments scorekeeper other
  ∧ (∀ inf, inf ∈ committive_inferences scorekeeper →
            premises inf ⊆ commitments scorekeeper other →
            conclusion inf ∈ commitments scorekeeper other)
  ∧ (∀ n, (intelligence scorekeeper ≤ n)%nat →
          commitments (set_intelligence n scorekeeper) other
          = commitments scorekeeper other).
Proof.
  intros Hsmart.
  assert (consequences_once (committive_inferences scorekeeper)
            (commitments scorekeeper other) = commitments scorekeeper other) as Hfix.
  { unfold commitments.
    apply (fixed_point_converges (λ _, True) _
             (set_map conclusion (committive_inferences scorekeeper))); [| |done|].
    - intros x _. split; [apply consequences_once_superset|done].
    - intros x z [Hz | (inf & Hin & _ & <-)]%elem_of_consequences_once.
      + by apply elem_of_union_l.
      + apply elem_of_union_r, elem_of_map. by exists inf.
    - etransitivity; [|exact Hsmart]. etransitivity; [|apply size_conclusions].
      apply subseteq_size. apply subseteq_difference_l. done. }
  split_and!; [done| |].
  - intros inf Hin Hsub. rewrite <- Hfix. apply elem_of_consequences_once.
    right. by exists inf.
  - intros n Hle. rewrite !commitments_is_iter in *. simpl.
    replace n with (intelligence scorekeeper + (n - intelligence scorekeeper))%nat by lia.
    rewrite Nat.add_comm, Nat.iter_add. by apply iter_fixed.
Qed.

Lemma commitments_closed_when_smart_witness :
  consequences_once (committive_inferences (default_Agent "Ann"))
    (commitments (default_Agent "Ann") bob_no_rules)
  = commitments (default_Agent "Ann") bob_no_rules.
Proof.
  apply (proj1 (commitments_closed_when_smart (default_Agent "Ann") bob_no_rules
                  ltac:(by_compute))).
Defined.

(** ** More on pruning and entitlements *)

Lemma compatible_with_committed incs coms x :
  x ∈ coms → compatible_with incs coms x = true.
Proof.
  intros Hx. apply compatible_with_true. intros inc _ Hsub z Hz.
  specialize (Hsub z Hz). apply elem_of_union in Hsub as [| ->%elem_of_singleton]; done.
Qed.

(** X5.  [remove_incompatibles] keeps a subset of the sentences, keeps every
    sentence that is already a commitment, judges each sentence on its own (it
    distributes over union) and is idempotent. *)
Theorem remove_incompatibles_independent (sentences commitments : gset string)
    (incompatibilities : list (gset string)) :
  remove_incompatibles sentences commitments incompatibilities ⊆ sentences
  ∧ sentences ∩ commitments
    ⊆ remove_incompatibles sentences commitments incompatibilities
  ∧ (∀ more, remove_incompatibles (sentences ∪ more) commitments incompatibilities
             = remove_incompatibles sentences commitments incompatibilities
               ∪ remove_incompatibles more commitments incompatibilities)
  ∧ remove_incompatibles
      (remove_incompatibles sentences commitments incompatibilities)
      commitments incompatibilities
    = remove_incompatibles sentences commitments incompatibilities.
Proof.
  split_and!.
  - intros x [Hx _]%elem_of_remove_incompatibles. done.
  - intros x [Hx Hc]%elem_of_intersection. apply elem_of_remove_incompatibles.
    split; [done|]. by apply compatible_with_committed.
  - intros more. apply set_eq. intros x.
    rewrite elem_of_union, !elem_of_remove_incompatibles, elem_of_union. tauto.
  - apply set_eq. intros x. rewrite !elem_of_remove_incompatibles. tauto.
Qed.

Lemma expand_entitlements_ok sk ot X times :
  entitled_ok sk ot
    (expand_entitlements (commitments sk ot) X (incompatibilities sk)
       (committive_inferences sk) (permissive_inferences sk) times).
Proof. intros x [Hc _]%elem_of_expand_entitlements. done. Qed.

Lemma expand_entitlements_grows sk ot X times :
  entitled_ok sk ot X →
  X ⊆ expand_entitlements (commitments sk ot) X (incompatibilities sk)
        (committive_inferences sk) (permissive_inferences sk) times.
Proof.
  intros Hok x Hx. apply elem_of_expand_entitlements. split; [by apply Hok|by left].
Qed.

Lemma base_ok g sk ot :
  entitled_ok sk ot
    (remove_incompatibles (all_unchallenged_assertions g) (commitments sk ot)
       (incompatibilities sk)).
Proof. intros x [_ Hc]%elem_of_remove_incompatibles. done. Qed.

Lemma iter_grows_on (P : gset string → Prop) (f : gset string → gset string) n m s :
  (∀ x, P x → x ⊆ f x ∧ P (f x)) → P s → (n ≤ m)%nat →
  P (Nat.iter n f s) ∧ Nat.iter n f s ⊆ Nat.iter m f s.
Proof.
  intros Hf Hs Hle.
  assert (∀ k, P (Nat.iter k f s)) as HP.
  { induction k as [|k IH]; simpl; [done|]. by apply Hf. }
  split; [done|]. induction Hle as [|m Hle IH]; [done|].
  simpl. etransitivity; [exact IH|]. by apply Hf.
Qed.

Lemma iter_ext {A : Type} (f f' : A → A) n s :
  (∀ x, f x = f' x) → Nat.iter n f s = Nat.iter n f' s.
Proof. intros Hf. induction n as [|n IH]; simpl; [done|]. by rewrite IH, Hf. Qed.

Lemma entitlements_is_iter g sk ot :
  entitlements g sk ot
  = Nat.iter (intelligence ot)
      (λ s, expand_entitlements (commitments sk ot) s (incompatibilities sk)
              (committive_inferences sk) (permissive_inferences sk) (intelligence ot))
      (remove_incompatibles (all_unchallenged_assertions g) (commitments sk ot)
         (incompatibilities sk)).
Proof. unfold entitlements. apply fixed_point_is_iter. Qed.

(** X6.  No entitlement completes an incompatibility set of the scorekeeper
    that the attributed commitments leave incomplete.  The unchallenged
    assertions of the game that pass that test are entitlements, in particular
    every unchallenged assertion that is an attributed commitment. *)
Theorem entitlements_consistent (g : Game) (scorekeeper other : Agent) :
  (∀ x inc, x ∈ entitlements g scorekeeper other →
            inc ∈ incompatibilities scorekeeper →
            inc ⊆ commitments scorekeeper other ∪ {[x]} →
            inc ⊆ commitments scorekeeper other)
  ∧ remove_incompatibles (all_unchallenged_assertions g)
      (commitments scorekeeper other) (incompatibilities scorekeeper)
    ⊆ entitlements g scorekeeper other
  ∧ all_unchallenged_assertions g ∩ commitments scorekeeper other
    ⊆ entitlements g scorekeeper other.
Proof.
  assert (entitled_ok scorekeeper other (entitlements g scorekeeper other)
          ∧ remove_incompatibles (all_unchallenged_assertions g)
              (commitments scorekeeper other) (incompatibilities scorekeeper)
            ⊆ entitlements g scorekeeper other) as [Hok Hbase].
  { rewrite entitlements_is_iter.
    pose proof (iter_grows_on (entitled_ok scorekeeper other)
                  (λ s, expand_entitlements (commitments scorekeeper other) s
                          (incompatibilities scorekeeper)
                          (committive_inferences scorekeeper)
                          (permissive_inferences scorekeeper) (intelligence other))) as Hgrow.
    split.
    - apply (Hgrow (intelligence other) (intelligence other)); [|apply base_ok|done].
      intros X HX. split; [by apply expand_entitlements_grows|apply expand_entitlements_ok].
    - apply (Hgrow 0%nat (intelligence other)); [|apply base_ok|lia].
      intros X HX. split; [by apply expand_entitlements_grows|apply expand_entitlements_ok]. }
  split_and!.
  - intros x inc Hx Hinc Hsub.
    by apply (proj1 (compatible_with_true _ _ _) (Hok x Hx) inc).
  - done.
  - etransitivity; [|exact Hbase].
    intros x [Hx Hc]%elem_of_intersection. apply elem_of_remove_incompatibles.
    split; [done|]. by apply compatible_with_committed.
Qed.

(** X7.  Every entitlement has a ground: it is an unchallenged assertion of
    some agent of the game, or the conclusion of a committive inference of the
    scorekeeper whose premises are entitlements, or the conclusion of a
    permissive inference of the scorekeeper whose premises are entitlements and
    attributed commitments. *)
Theorem entitlements_justified (g : Game) (scorekeeper other : Agent) (x : string) :
  x ∈ entitlements g scorekeeper other →
  x ∈ all_unchallenged_assertions g
  ∨ (∃ inf, inf ∈ committive_inferences scorekeeper
            ∧ conclusion inf = x
            ∧ premises inf ⊆ entitlements g scorekeeper other)
  ∨ (∃ inf, inf ∈ permissive_inferences scorekeeper
            ∧ conclusion inf = x
            ∧ premises inf ⊆ entitlements g scorekeeper other
            ∧ premises inf ⊆ commitments scorekeeper other).
Proof.
  set (coms := commitments scorekeeper other).
  set (step := λ s, expand_entitlements coms s (incompatibilities scorekeeper)
                      (committive_inferences scorekeeper)
                      (permissive_inferences scorekeeper) (intelligence other)).
  set (just := λ X : gset string, ∀ x, x ∈ X →
         x ∈ all_unchallenged_assertions g
         ∨ (∃ inf, inf ∈ committive_inferences scorekeeper
                   ∧ conclusion inf = x ∧ premises inf ⊆ X)
         ∨ (∃ inf, inf ∈ permissive_inferences scorekeeper
                   ∧ conclusion inf = x ∧ premises inf ⊆ X ∧ premises inf ⊆ coms)).
  assert (∀ n X, entitled_ok scorekeeper other X → just X →
                 just (Nat.iter n step X)) as Hiter.
  { induction n as [|n IH]; intros X Hok HX; [done|].
    rewrite Nat.iter_succ_r. apply IH; [apply expand_entitlements_ok|].
    pose proof (expand_entitlements_grows scorekeeper other X (intelligence other) Hok)
      as Hgrow.
    intros y [_ [Hy|[(inf & Hin & Hp & Hc)|(inf & Hin & Hp & Hc)]]]%elem_of_expand_entitlements.
    - destruct (HX y Hy) as [|[(inf & Hin & Hc & Hp)|(inf & Hin & Hc & Hp & Hpc)]].
      + by left.
      + right; left. exists inf. split_and!; [done..|]. by transitivity X.
      + right; right. exists inf. split_and!; [done..| |done]. by transitivity X.
    - right; left. exists inf. split_and!; [done..|]. by transitivity X.
    - right; right. exists inf. split_and!; [done..| |].
      + transitivity X; [|done]. intros z Hz. specialize (Hp z Hz).
        by apply elem_of_intersection in Hp as [? _].
      + intros z Hz. specialize (Hp z Hz). by apply elem_of_intersection in Hp as [_ ?]. }
  intros Hx. rewrite entitlements_is_iter in *. fold coms in Hx |- *. fold step in Hx |- *.
  apply (Hiter (intelligence other) _ (base_ok g scorekeeper other)); [|done].
  intros y [Hy _]%elem_of_remove_incompatibles. by left.
Qed.

Lemma entitlements_justified_witness :
  "A is colored" ∈ all_unchallenged_assertions game_bob_zero
  ∨ (∃ inf, inf ∈ committive_inferences bob_zero
            ∧ conclusion inf = "A is colored"
            ∧ premises inf ⊆ entitlements game_bob_zero bob_zero (default_Agent "Ann"))
  ∨ (∃ inf, inf ∈ permissive_inferences bob_zero
            ∧ conclusion inf = "A is colored"
            ∧ premises inf ⊆ entitlements game_bob_zero bob_zero (default_Agent "Ann")
            ∧ premises inf ⊆ commitments bob_zero (default_Agent "Ann")).
Proof.
  apply (entitlements_justified game_bob_zero bob_zero (default_Agent "Ann")).
  by_compute.
Defined.

(** X8.  When the intelligence of the agent scored is at least the number
    of the scorekeeper's committive and permissive inferences together, the
    entitlements are closed: [expand_entitlements] adds nothing to them, and
    every inference of the scorekeeper whose premises are entitlements (and, for
    a permissive one, attributed commitments) has its conclusion among them
    unless the conclusion is pruned as incompatible. *)
Theorem entitlements_closed_when_smart (g : Game) (scorekeeper other : Agent) :
  (size (committive_inferences scorekeeper) + size (permissive_inferences scorekeeper)
   ≤ intelligence other)%nat →
  expand_entitlements (commitments scorekeeper other) (entitlements g scorekeeper other)
    (incompatibilities scorekeeper) (committive_inferences scorekeeper)
    (permissive_inferences scorekeeper) (intelligence other)
  = entitlements g scorekeeper other
  ∧ (∀ inf, inf ∈ committive_inferences scorekeeper →
            premises inf ⊆ entitlements g scorekeeper other →
            compatible_with (incompatibilities scorekeeper)
              (commitments scorekeeper other) (conclusion inf) = true →
            conclusion inf ∈ entitlements g scorekeeper other)
  ∧ (∀ inf, inf ∈ permissive_inferences scorekeeper →
            premises inf ⊆ entitlements g scorekeeper other →
            premises inf ⊆ commitments scorekeeper other →
            compatible_with (incompatibilities scorekeeper)
              (commitments scorekeeper other) (conclusion inf) = true →
            conclusion inf ∈ entitlements g scorekeeper other).
Proof.
  intros Hsmart.
  set (C := (set_map conclusion (committive_inferences scorekeeper) : gset string)
            ∪ set_map conclusion (permissive_inferences scorekeeper)).
  assert (expand_entitlements (commitments scorekeeper other)
            (entitlements g scorekeeper other)
            (incompatibilities scorekeeper) (committive_inferences scorekeeper)
            (permissive_inferences scorekeeper) (intelligence other)
          = entitlements g scorekeeper other) as Hfix.
  { unfold entitlements.
    apply (fixed_point_converges (entitled_ok scorekeeper other)
             (λ s, expand_entitlements (commitments scorekeeper other) s
                     (incompatibilities scorekeeper)
                     (committive_inferences scorekeeper)
                     (permissive_inferences scorekeeper) (intelligence other)) C).
    - intros X HX. split; [by apply expand_entitlements_grows|apply expand_entitlements_ok].
    - intros X z [_ [Hz|[(inf & Hin & _ & <-)|(inf & Hin & _ & <-)]]]%elem_of_expand_entitlements.
      + by apply elem_of_union_l.
      + apply elem_of_union_r, elem_of_union_l, elem_of_map. by exists inf.
      + apply elem_of_union_r, elem_of_union_r, elem_of_map. by exists inf.
    - apply base_ok.
    - etransitivity; [|exact Hsmart].
      etransitivity; [apply subseteq_size, subseteq_difference_l; reflexivity|].
      unfold C. rewrite size_union_alt.
      etransitivity; [apply Nat.add_le_mono; [apply size_conclusions|]|].
      + etransitivity; [apply subseteq_size, subseteq_difference_l; reflexivity|].
        apply size_conclusions.
      + done. }
  split_and!; [done| |].
  - intros inf Hin Hp Hc. rewrite <- Hfix. apply elem_of_expand_entitlements.
    split; [done|]. right; left. by exists inf.
  - intros inf Hin Hp Hpc Hc. rewrite <- Hfix. apply elem_of_expand_entitlements.
    split; [done|]. right; right. exists inf. split_and!; [done| |done].
    intros z Hz. apply elem_of_intersection. split; [by apply Hp|by apply Hpc].
Qed.

Lemma entitlements_closed_when_smart_witness :
  expand_entitlements (commitments (default_Agent "Ann") bob_no_rules)
    (entitlements game_challenged (default_Agent "Ann") bob_no_rules)
    (incompatibilities (default_Agent "Ann"))
    (committive_inferences (default_Agent "Ann"))
    (permissive_inferences (default_Agent "Ann")) (intelligence bob_no_rules)
  = entitlements game_challenged (default_Agent "Ann") bob_no_rules.
Proof.
  apply (proj1 (entitlements_closed_when_smart game_challenged
                  (default_Agent "Ann") bob_no_rules ltac:(by_compute))).
Defined.

(** ** Attributed incompatibilities *)

Lemma elem_of_incompatibles sk ot inc :
  inc ∈ incompatibles sk ot ↔ inc ∈ incompatibilities sk ∧ inc ⊆ commitments sk ot.
Proof.
  unfold incompatibles. rewrite elem_of_list_to_set, list_elem_of_filter. tauto.
Qed.

Lemma commitments_more_rounds sk ot n :
  (intelligence sk ≤ n)%nat → commitments sk ot ⊆ commitments (set_intelligence n sk) ot.
Proof.
  intros Hle. rewrite !commitments_is_iter. simpl.
  apply iter_grows; [|done]. intros x. apply consequences_once_superset.
Qed.

(** X9.  [incompatibles] returns exactly the incompatibility sets of the
    scorekeeper that lie within the attributed commitments; there are no fewer
    of them when the scorekeeper's intelligence grows or when the other agent
    asserts one more sentence. *)
Theorem incompatibles_spec (scorekeeper other : Agent) :
  (∀ inc, inc ∈ incompatibles scorekeeper other ↔
          inc ∈ incompatibilities scorekeeper ∧ inc ⊆ commitments scorekeeper other)
  ∧ (∀ n, (intelligence scorekeeper ≤ n)%nat →
          incompatibles scorekeeper other
          ⊆ incompatibles (set_intelligence n scorekeeper) other)
  ∧ (∀ sentence, incompatibles scorekeeper other
                 ⊆ incompatibles scorekeeper (asserts other sentence)).
Proof.
  split_and!.
  - apply elem_of_incompatibles.
  - intros n Hle inc [Hin Hsub]%elem_of_incompatibles. apply elem_of_incompatibles.
    split; [done|]. etransitivity; [exact Hsub|]. by apply commitments_more_rounds.
  - intros sentence inc [Hin Hsub]%elem_of_incompatibles. apply elem_of_incompatibles.
    split; [done|]. etransitivity; [exact Hsub|].
    rewrite !commitments_is_iter. simpl. apply iter_mono.
    + apply consequences_once_mono.
    + apply union_subseteq_l.
Qed.

Lemma compatible_with_skip_committed incs coms x :
  compatible_with (filter (λ inc, ¬ inc ⊆ coms) incs) coms x = compatible_with incs coms x.
Proof.
  induction incs as [|inc incs IH]; [done|]. rewrite filter_cons.
  destruct (decide (¬ inc ⊆ coms)) as [Hn|Hy]; simpl.
  - by rewrite IH.
  - rewrite IH. apply dec_stable in Hy.
    by rewrite (bool_decide_eq_true_2 (inc ⊆ coms)), andb_false_r.
Qed.

(** X10.  An incompatibility set that the attributed commitments already
    hold in full (one that [incompatibles] reports) blocks no entitlement:
    entitlements are the same with these sets struck from the scorekeeper's
    list. *)
Theorem committed_incompatibilities_block_nothing (g : Game) (scorekeeper other : Agent) :
  entitlements g
    (set_incompatibilities
       (filter (λ inc, ¬ inc ⊆ commitments scorekeeper other)
               (incompatibilities scorekeeper)) scorekeeper) other
  = entitlements g scorekeeper other.
Proof.
  rewrite !entitlements_is_iter. simpl.
  assert (commitments
            (set_incompatibilities
               (filter (λ inc, ¬ inc ⊆ commitments scorekeeper other)
                       (incompatibilities scorekeeper)) scorekeeper) other
          = commitments scorekeeper other) as -> by done.
  assert (∀ X, remove_incompatibles X (commitments scorekeeper other)
                 (filter (λ inc, ¬ inc ⊆ commitments scorekeeper other)
                         (incompatibilities scorekeeper))
               = remove_incompatibles X (commitments scorekeeper other)
                   (incompatibilities scorekeeper)) as Hrem.
  { intros X. apply set_eq. intros x.
    by rewrite !elem_of_remove_incompatibles, compatible_with_skip_committed. }
  rewrite Hrem. apply iter_ext. intros X.
  unfold expand_entitlements, consequences_once_and_prune. by rewrite !Hrem.
Qed.

(** ** The order of the agent set *)

Lemma assertions_challenged_Permutation g1 g2 a :
  agents g1 ≡ₚ agents g2 → assertions_challenged g1 a = assertions_challenged g2 a.
Proof.
  intros Hperm. apply set_eq. intros x. rewrite !elem_of_assertions_challenged.
  by setoid_rewrite Hperm.
Qed.

Lemma all_unchallenged_assertions_Permutation g1 g2 :
  agents g1 ≡ₚ agents g2 → all_unchallenged_assertions g1 = all_unchallenged_assertions g2.
Proof.
  intros Hperm. apply set_eq. intros x. rewrite !elem_of_all_unchallenged_assertions.
  unfold assertions_unchallenged.
  split; intros (a & Ha & Hx); exists a.
  - by rewrite <- Hperm, <- (assertions_challenged_Permutation g1 g2 a Hperm).
  - by rewrite Hperm, (assertions_challenged_Permutation g1 g2 a Hperm).
Qed.

Lemma entitlements_Permutation g1 g2 sk ot :
  agents g1 ≡ₚ agents g2 → entitlements g1 sk ot = entitlements g2 sk ot.
Proof.
  intros Hperm. unfold entitlements.
  by rewrite (all_unchallenged_assertions_Permutation g1 g2 Hperm).
Qed.

(** X11.  The engine does not depend on the order in which the agent set is
    visited: games whose agents are the same up to order have the same
    challenged and unchallenged assertions and the same entitlements. *)
Theorem engine_order_independent (g1 g2 : Game) :
  agents g1 ≡ₚ agents g2 →
  (∀ agent, assertions_challenged g1 agent = assertions_challenged g2 agent)
  ∧ (∀ agent, assertions_unchallenged g1 agent = assertions_unchallenged g2 agent)
  ∧ all_unchallenged_assertions g1 = all_unchallenged_assertions g2
  ∧ (∀ scorekeeper other,
       entitlements g1 scorekeeper other = entitlements g2 scorekeeper other).
Proof.
  intros Hperm. split_and!.
  - intros agent. by apply assertions_challenged_Permutation.
  - intros agent. unfold assertions_unchallenged.
    by rewrite (assertions_challenged_Permutation g1 g2 agent Hperm).
  - by apply all_unchallenged_assertions_Permutation.
  - intros sk ot. by apply entitlements_Permutation.
Qed.

Lemma engine_order_independent_witness :
  all_unchallenged_assertions game_challenged
  = all_unchallenged_assertions (mkGame (reverse (agents game_challenged))).
Proof.
  apply (proj1 (proj2 (proj2 (engine_order_independent game_challenged
                                (mkGame (reverse (agents game_challenged)))
                                (symmetry (reverse_Permutation _)))))).
Defined.



(** ** Looking an agent up *)

Lemma NoDup_fmap_eq {A B : Type} (f : A → B) (l : list A) (a b : A) :
  NoDup (f <$> l) → a ∈ l → b ∈ l → f a = f b → a = b.
Proof.
  induction l as [|x l IH]; intros Hnd Ha Hb Hf; [by apply elem_of_nil in Ha|].
  rewrite fmap_cons in Hnd. apply NoDup_cons in Hnd as [Hx Hnd].
  apply elem_of_cons in Ha as [->|Ha], Hb as [->|Hb]; [done| | |by apply IH].
  - exfalso. apply Hx. rewrite Hf. by apply list_elem_of_fmap_2.
  - exfalso. apply Hx. rewrite <- Hf. by apply list_elem_of_fmap_2.
Qed.

Lemma agent_named_Some rt g nm ref agent :
  agent_named rt g nm = Some (ref, agent) →
  agents g !! ref = Some agent ∧ str_lower rt (name agent) = str_lower rt nm.
Proof. unfold agent_named. intros (Hl & Hp & _)%list_find_Some. done. Qed.

Lemma agent_named_unique rt g nm ref agent b :
  unique_names rt g →
  agent_named rt g nm = Some (ref, agent) →
  b ∈ agents g → str_lower rt (name b) = str_lower rt nm → b = agent.
Proof.
  intros Huniq [Hl Hp]%agent_named_Some Hb Hbn.
  apply (NoDup_fmap_eq (λ a, str_lower rt (name a)) (agents g)); [done|done| |].
  - by apply list_elem_of_lookup_2 in Hl.
  - by rewrite Hp.
Qed.

(** X13.  When no two agents have names equal up to case, [agent_named]
    finds the same agent (or none) whatever the order of the agent set. *)
Theorem agent_named_order_independent (rt : Runtime) (g1 g2 : Game) (nm : string) :
  unique_names rt g1 →
  agents g1 ≡ₚ agents g2 →
  snd <$> agent_named rt g1 nm = snd <$> agent_named rt g2 nm.
Proof.
  intros Huniq Hperm.
  destruct (agent_named rt g1 nm) as [[i a]|] eqn:H1;
    destruct (agent_named rt g2 nm) as [[j b]|] eqn:H2; simpl; [|exfalso|exfalso|done].
  - f_equal. symmetry. apply (agent_named_unique rt g1 nm i a b Huniq H1).
    + apply agent_named_Some in H2 as [Hl _]. rewrite Hperm.
      by apply list_elem_of_lookup_2 in Hl.
    + by apply agent_named_Some in H2 as [_ ?].
  - apply agent_named_Some in H1 as [Hl Hp]. unfold agent_named in H2.
    apply list_find_None in H2. rewrite <- Hperm in H2.
    apply list_elem_of_lookup_2 in Hl. by apply (proj1 (Forall_forall _ _) H2 a Hl).
  - apply agent_named_Some in H2 as [Hl Hp]. unfold agent_named in H1.
    apply list_find_None in H1. rewrite Hperm in H1.
    apply list_elem_of_lookup_2 in Hl. by apply (proj1 (Forall_forall _ _) H1 b Hl).
Qed.

Lemma agent_named_order_independent_witness :
  snd <$> agent_named rt_ascending new_game "bob"
  = snd <$> agent_named rt_ascending (mkGame (reverse (agents new_game))) "bob".
Proof.
  apply (agent_named_order_independent rt_ascending new_game
           (mkGame (reverse (agents new_game))) "bob").
  - by_compute.
  - symmetry. apply reverse_Permutation.
Defined.

(** ** Commands: what a command can change *)

(** An agent put back under its own name is found where it was. *)
Lemma list_find_insert_same {A : Type} (P : A → Prop) `{∀ x, Decision (P x)}
    (l : list A) (i : nat) (x y : A) :
  l !! i = Some x → (P x ↔ P y) →
  list_find P (<[i:=y]> l)
  = (λ p : nat * A, (p.1, if decide (p.1 = i) then y else p.2)) <$> list_find P l.
Proof.
  revert i. induction l as [|z l IH]; intros i Hl HP; [done|].
  destruct i as [|i]; simpl in *.
  - injection Hl as ->. destruct (decide (P y)) as [Hy|Hy].
    + rewrite decide_True by (by apply HP). done.
    + rewrite decide_False by (by rewrite HP).
      destruct (list_find P l) as [[k b]|]; done.
  - destruct (decide (P z)); [done|]. rewrite (IH i Hl HP).
    destruct (list_find P l) as [[k b]|]; simpl; [|done].
    destruct (decide (k = i)) as [->|Hne].
    + by rewrite decide_True.
    + rewrite decide_False; [done|]. by intros [= ->].
Qed.

Lemma agent_named_store rt g ref a a' nm :
  agents g !! ref = Some a → name a' = name a →
  agent_named rt (store_agent g ref a') nm
  = (λ p : nat * Agent, (p.1, if decide (p.1 = ref) then a' else p.2))
      <$> agent_named rt g nm.
Proof.
  intros Hl Hname. unfold agent_named, store_agent. simpl.
  apply (list_find_insert_same _ _ _ a); [done|]. by rewrite Hname.
Qed.

Lemma agent_named_store_same rt g ref a a' nm :
  agent_named rt g nm = Some (ref, a) → name a' = name a →
  agent_named rt (store_agent g ref a') nm = Some (ref, a').
Proof.
  intros Hn Hname. rewrite (agent_named_store rt g ref a a' nm); [| |done].
  - rewrite Hn. simpl. by rewrite decide_True.
  - by apply agent_named_lookup in Hn.
Qed.

Lemma store_agent_fmap {B : Type} (f : Agent → B) g ref a a' :
  agents g !! ref = Some a → f a' = f a →
  f <$> agents (store_agent g ref a') = f <$> agents g.
Proof.
  intros Hl Hf. unfold store_agent. simpl. rewrite list_fmap_insert, Hf.
  apply list_insert_id. by rewrite list_lookup_fmap, Hl.
Qed.

Lemma store_agent_lookup_ne g ref a' i :
  i ≠ ref → agents (store_agent g ref a') !! i = agents g !! i.
Proof. intros Hne. unfold store_agent. simpl. by apply list_lookup_insert_ne. Qed.

Lemma store_agent_lookup g ref a a' :
  agents g !! ref = Some a → agents (store_agent g ref a') !! ref = Some a'.
Proof.
  intros Hl. unfold store_agent. simpl. apply list_lookup_insert_eq.
  by apply lookup_lt_Some in Hl.
Qed.

(** What a run of [process_command] leaves behind: the game as it was, or
    the game with one agent replaced by an agent of the same name and
    intelligence, and then the reply is the score table of the new game. *)
Lemma process_command_cases rt cmd g r g' :
  process_command rt cmd g = Some (r, g') →
  g' = g
  ∨ ∃ ref a a', agents g !! ref = Some a ∧ name a' = name a
                ∧ intelligence a' = intelligence a
                ∧ g' = store_agent g ref a' ∧ r = score_all rt g'.
Proof.
  destruct cmd as [skn otn| |an s|an s|an tn s|an tn s|an k ps c|an k ps c|an ss|an ss];
    simpl.
  - destruct (agent_named rt g skn) as [[? sk]|]; [|intros [= <- <-]; by left].
    destruct (agent_named rt g otn) as [[? ot]|]; intros [= <- <-]; by left.
  - intros [= <- <-]. by left.
  - destruct (agent_named rt g an) as [[ref a]|] eqn:Ha; intros [= <- <-]; [|by left].
    right. exists ref, a, (asserts a s). apply agent_named_lookup in Ha. done.
  - destruct (agent_named rt g an) as [[ref a]|] eqn:Ha; [|intros [= <- <-]; by left].
    destruct (decide (s ∉ commitments_avowed a)); intros [= <- <-]; [by left|].
    right. exists ref, a, (disavows a s). apply agent_named_lookup in Ha. done.
  - destruct (agent_named rt g an) as [[ref a]|] eqn:Ha; [|intros [= <- <-]; by left].
    destruct (agent_named rt g tn) as [[j t]|] eqn:Ht; [|intros [= <- <-]; by left].
    destruct (decide (s ∉ commitments_avowed t)); intros [= <- <-]; [by left|].
    right. exists ref, a, (challenges a t s). apply agent_named_lookup in Ha.
    unfold challenges. destruct (decide (s ∈ commitments_avowed t)). all: by split_and!.
  - destruct (agent_named rt g an) as [[ref a]|] eqn:Ha; [|intros [= <- <-]; by left].
    destruct (agent_named rt g tn) as [[j t]|] eqn:Ht; intros [= <- <-]; [|by left].
    right. exists ref, a, (withdraws_challenge a t s). apply agent_named_lookup in Ha. done.
  - destruct (agent_named rt g an) as [[ref a]|] eqn:Ha; intros [= <- <-]; [|by left].
    right. apply agent_named_lookup in Ha. destruct k; eexists ref, a, _; (split; [done|]; split; [|split; [|split; reflexivity]]; done).
  - destruct (agent_named rt g an) as [[ref a]|] eqn:Ha; intros [= <- <-]; [|by left].
    right. apply agent_named_lookup in Ha. destruct k; eexists ref, a, _; (split; [done|]; split; [|split; [|split; reflexivity]]; done).
  - destruct (agent_named rt g an) as [[ref a]|] eqn:Ha; intros [= <- <-]; [|by left].
    right. apply agent_named_lookup in Ha. eexists ref, a, _; (split; [done|]; split; [|split; [|split; reflexivity]]; done).
  - destruct (agent_named rt g an) as [[ref a]|] eqn:Ha; [|intros [= <- <-]; by left].
    apply agent_named_lookup in Ha.
    destruct (decide (list_to_set ss ∈ incompatibilities a)) as [Hin|]; simpl.
    + destruct (list_remove (list_to_set ss) (incompatibilities a)) as [l'|]; simpl;
        [|done].
      intros [= <- <-]. right. eexists ref, a, _; (split; [done|]; split; [|split; [|split; reflexivity]]; done).
    + intros [= <- <-]. right. eexists ref, a, _; (split; [done|]; split; [|split; [|split; reflexivity]]; done).
Qed.

Lemma process_command_is_Some rt cmd g : is_Some (process_command rt cmd g).
Proof.
  destruct cmd as [skn otn| |an s|an s|an tn s|an tn s|an k ps c|an k ps c|an ss|an ss];
    simpl; try done.
  - destruct (agent_named rt g skn) as [[? sk]|]; [|done].
    destruct (agent_named rt g otn) as [[? ot]|]; done.
  - destruct (agent_named rt g an) as [[ref a]|]; done.
  - destruct (agent_named rt g an) as [[ref a]|]; [|done].
    destruct (decide (s ∉ commitments_avowed a)); done.
  - destruct (agent_named rt g an) as [[ref a]|]; [|done].
    destruct (agent_named rt g tn) as [[j t]|]; [|done].
    destruct (decide (s ∉ commitments_avowed t)); done.
  - destruct (agent_named rt g an) as [[ref a]|]; [|done].
    destruct (agent_named rt g tn) as [[j t]|]; done.
  - destruct (agent_named rt g an) as [[ref a]|]; done.
  - destruct (agent_named rt g an) as [[ref a]|]; done.
  - destruct (agent_named rt g an) as [[ref a]|]; done.
  - destruct (agent_named rt g an) as [[ref a]|]; [|done].
    destruct (decide (list_to_set ss ∈ incompatibilities a)) as [Hin|]; simpl; [|done].
    destruct (list_remove_is_Some _ _ Hin) as [l' ->]. done.
Qed.

Lemma store_agent_unique_names rt g ref a a' :
  agents g !! ref = Some a → name a' = name a →
  unique_names rt g → unique_names rt (store_agent g ref a').
Proof.
  intros Hl Hname. unfold unique_names.
  rewrite (store_agent_fmap (λ a, str_lower rt (name a)) g ref a a'); [done|done|].
  by rewrite Hname.
Qed.

(** X14.  A command of [process_command] never adds, removes, renames or
    reorders agents and never changes an intelligence; it keeps names unique up
    to case and leaves every name found where it was.  Either the game is
    unchanged, or the reply is the score table of the new game and at most one
    agent, the one acting, differs. *)
Theorem process_command_frame (rt : Runtime) (cmd : Command) (g g' : Game) (r : string) :
  process_command rt cmd g = Some (r, g') →
  name <$> agents g' = name <$> agents g
  ∧ intelligence <$> agents g' = intelligence <$> agents g
  ∧ (unique_names rt g → unique_names rt g')
  ∧ (∀ nm, fst <$> agent_named rt g' nm = fst <$> agent_named rt g nm)
  ∧ (g' = g
     ∨ (r = score_all rt g'
        ∧ ∃ ref, ∀ i, i ≠ ref → agents g' !! i = agents g !! i)).
Proof.
  intros [->|(ref & a & a' & Hl & Hname & Hint & -> & ->)]%process_command_cases.
  - split_and!; [done..|by left].
  - split_and!.
    + by apply (store_agent_fmap name g ref a a').
    + by apply (store_agent_fmap intelligence g ref a a').
    + by apply (store_agent_unique_names rt g ref a a').
    + intros nm. rewrite (agent_named_store rt g ref a a' nm Hl Hname).
      by destruct (agent_named rt g nm) as [[i b]|].
    + right. split; [done|]. exists ref. intros i Hi. by apply store_agent_lookup_ne.
Qed.

Lemma process_command_frame_witness :
  name <$> agents game_challenged
  = name <$> agents (mkGame [default_Agent "Ann"; asserts (default_Agent "Bob") "A is red"]).
Proof.
  apply (proj1 (process_command_frame rt_ascending
                  (Challenges "Ann" "Bob" "A is red")
                  (mkGame [default_Agent "Ann"; asserts (default_Agent "Bob") "A is red"])
                  game_challenged (score_all rt_ascending game_challenged)
                  ltac:(by_compute))).
Defined.

(** ** The agent set *)

Lemma agent_named_None rt g nm :
  agent_named rt g nm = None ↔
  ∀ a, a ∈ agents g → str_lower rt (name a) ≠ str_lower rt nm.
Proof. unfold agent_named. rewrite list_find_None, Forall_forall. done. Qed.

Lemma unique_names_add rt g nm a' :
  agent_named rt g nm = None → name a' = nm →
  unique_names rt g → unique_names rt (mkGame (agents g ++ [a'])).
Proof.
  intros Hnone Hname Huniq. unfold unique_names. simpl. rewrite fmap_app.
  apply NoDup_app. split_and!; [done| |apply NoDup_singleton].
  intros x (a & -> & Ha)%list_elem_of_fmap Hin%list_elem_of_singleton.
  rewrite Hname in Hin. by apply (proj1 (agent_named_None rt g nm) Hnone a Ha).
Qed.

Lemma unique_names_delete rt g ref :
  unique_names rt g → unique_names rt (mkGame (delete ref (agents g))).
Proof.
  unfold unique_names. simpl. intros Huniq. rewrite list_fmap_delete.
  eapply sublist_NoDup; [exact Huniq|apply sublist_delete].
Qed.

Lemma unique_names_NoDup rt g : unique_names rt g → NoDup (name <$> agents g).
Proof.
  unfold unique_names. intros Huniq.
  rewrite (list_fmap_compose name (str_lower rt)) in Huniq.
  by apply NoDup_fmap_1 in Huniq.
Qed.

Lemma process_input_unique_names rt inp g r g' :
  str_lower rt "Ann" ≠ str_lower rt "Bob" →
  unique_names rt g →
  process_input rt inp g = Some (r, g') → unique_names rt g'.
Proof.
  intros Hab Huniq. destruct inp as [nm|nm| |nm int|an digits v|cmd]; simpl.
  - unfold add_agent. destruct (agent_named rt g nm) as [[ref a]|] eqn:Hn;
      intros [= <- <-]; [done|]. by apply (unique_names_add rt g nm).
  - unfold remove_agent. destruct (agent_named rt g nm) as [[ref a]|] eqn:Hn;
      intros [= <- <-]; [|done]. by apply unique_names_delete.
  - intros [= <- <-]. unfold unique_names. simpl.
    apply NoDup_cons. split; [|apply NoDup_singleton].
    intros Hin%list_elem_of_singleton. done.
  - unfold enh_add_agent. destruct (agent_named rt g nm) as [[ref a]|] eqn:Hn;
      intros [= <- <-]; [done|]. by apply (unique_names_add rt g nm).
  - unfold enh_set_intelligence. destruct (agent_named rt g an) as [[ref a]|] eqn:Hn;
      intros [= <- <-]; [|done].
    apply (store_agent_unique_names rt g ref a); [|done|done].
    by apply agent_named_lookup in Hn.
  - intros [->|(ref & a & a' & Hl & Hname & _ & -> & _)]%process_command_cases; [done|].
    by apply (store_agent_unique_names rt g ref a).
Qed.

(** X15.  Names stay unique up to case: a sequence of inputs (adding and
    removing agents, new game, setting an intelligence, and the commands) that
    runs to its end from a game in which no two agents have names equal up to
    case ends in such a game; in particular no two agents have the same name,
    which is what membership in the agent set goes by. *)
Theorem unique_names_invariant (rt : Runtime) (inps : list Input) (g g' : Game) :
  str_lower rt "Ann" ≠ str_lower rt "Bob" →
  unique_names rt g →
  run_inputs rt inps g = Some g' →
  unique_names rt g' ∧ NoDup (name <$> agents g').
Proof.
  intros Hab. revert g. induction inps as [|inp inps IH]; intros g Huniq; simpl.
  - intros [= <-]. split; [done|]. by apply (unique_names_NoDup rt).
  - destruct (process_input rt inp g) as [[r g1]|] eqn:Hstep; [|done]. simpl.
    apply IH. by apply (process_input_unique_names rt inp g r g1).
Qed.

Lemma unique_names_invariant_witness :
  unique_names rt_ascending (mkGame [default_Agent "Ann"; default_Agent "Sal"])
  ∧ NoDup (name <$> agents (mkGame [default_Agent "Ann"; default_Agent "Sal"])).
Proof.
  apply (unique_names_invariant rt_ascending
           [AddAgent "Sal"; AddAgent "sal"; RemoveAgent "bob";
            AgentCommand (Asserts "SAL" "A is red");
            AgentCommand (Disavows "Sal" "A is red")] new_game).
  - by_compute.
  - by_compute.
  - by_compute.
Defined.

(** ** Adding an agent *)

Lemma exists_fmap_eq {A B : Type} (f : A → B) (l1 l2 : list A) (Q : B → Prop) :
  f <$> l1 = f <$> l2 → (∃ b, b ∈ l1 ∧ Q (f b)) → ∃ b, b ∈ l2 ∧ Q (f b).
Proof.
  intros Heq (b & Hb & HQ).
  assert (f b ∈ f <$> l2) as (b' & Hfb & Hb')%list_elem_of_fmap.
  { rewrite <- Heq. by apply list_elem_of_fmap_2. }
  exists b'. split; [done|]. by rewrite <- Hfb.
Qed.

(** The challenged and the unchallenged assertions are read off the agents'
    names, avowals and challenges. *)
Lemma assertions_challenged_view g1 g2 a1 a2 :
  challenges_issued <$> agents g1 = challenges_issued <$> agents g2 →
  name a1 = name a2 →
  assertions_challenged g1 a1 = assertions_challenged g2 a2.
Proof.
  intros Heq Hname. apply set_eq. intros x. rewrite !elem_of_assertions_challenged.
  rewrite Hname. split.
  - apply (exists_fmap_eq challenges_issued _ _
             (λ cs, mkChallenge (name a2) x ∈ cs)). done.
  - apply (exists_fmap_eq challenges_issued _ _
             (λ cs, mkChallenge (name a2) x ∈ cs)). done.
Qed.

Lemma all_unchallenged_assertions_view g1 g2 :
  (λ a, (name a, commitments_avowed a)) <$> agents g1
  = (λ a, (name a, commitments_avowed a)) <$> agents g2 →
  challenges_issued <$> agents g1 = challenges_issued <$> agents g2 →
  all_unchallenged_assertions g1 = all_unchallenged_assertions g2.
Proof.
  intros Hview Hch.
  assert (∀ h1 h2,
            (λ a, (name a, commitments_avowed a)) <$> agents h1
            = (λ a, (name a, commitments_avowed a)) <$> agents h2 →
            challenges_issued <$> agents h1 = challenges_issued <$> agents h2 →
            all_unchallenged_assertions h1 ⊆ all_unchallenged_assertions h2) as Hsub.
  { intros h1 h2 Hv Hc x (a & Ha & Hx)%elem_of_all_unchallenged_assertions.
    apply elem_of_all_unchallenged_assertions.
    assert ((name a, commitments_avowed a)
            ∈ (λ a, (name a, commitments_avowed a)) <$> agents h2)
      as (a' & [= Hn Hav] & Ha')%list_elem_of_fmap.
    { rewrite <- Hv. by apply (list_elem_of_fmap_2 (λ a, (name a, commitments_avowed a))). }
    exists a'. split; [done|]. unfold assertions_unchallenged in *.
    by rewrite <- Hav, <- (assertions_challenged_view h1 h2 a a' Hc Hn). }
  apply set_eq. intros x. split; apply Hsub; done.
Qed.

Lemma all_unchallenged_assertions_add g a' :
  commitments_avowed a' = ∅ → challenges_issued a' = ∅ →
  all_unchallenged_assertions (mkGame (agents g ++ [a'])) = all_unchallenged_assertions g.
Proof.
  intros Hav Hch. apply set_eq. intros x. rewrite !elem_of_all_unchallenged_assertions.
  unfold assertions_unchallenged. simpl.
  assert (∀ b, assertions_challenged (mkGame (agents g ++ [a'])) b
               = assertions_challenged g b) as Hsame.
  { intros b. apply set_eq. intros y. rewrite !elem_of_assertions_challenged. simpl.
    split.
    - intros (c & [Hc| ->%list_elem_of_singleton]%elem_of_app & Hy); [by exists c|].
      rewrite Hch in Hy. by apply elem_of_empty in Hy.
    - intros (c & Hc & Hy). exists c. split; [|done]. apply elem_of_app. by left. }
  split.
  - intros (b & [Hb| ->%list_elem_of_singleton]%elem_of_app & Hx).
    + exists b. split; [done|]. by rewrite <- Hsame.
    + rewrite Hav in Hx. apply elem_of_difference in Hx as [Hx _].
      by apply elem_of_empty in Hx.
  - intros (b & Hb & Hx). exists b. split; [apply elem_of_app; by left|].
    by rewrite Hsame.
Qed.

(** X16.  [add agent]: a name equal up to case to that of an agent of the game
    is refused and the game stays as it is.  Otherwise the new agent, with the
    default inferences and incompatibilities, is found under its name, every
    agent found before is found as before, and nothing changes in the
    unchallenged assertions or in anybody's entitlements. *)
Theorem add_agent_spec (rt : Runtime) (nm : string) (g : Game) :
  (∀ a, a ∈ agents g → str_lower rt (name a) = str_lower rt nm →
        (add_agent rt nm g).2 = g)
  ∧ (agent_named rt g nm = None →
     agent_named rt (add_agent rt nm g).2 nm
     = Some (List.length (agents g), default_Agent nm)
     ∧ (∀ other, is_Some (agent_named rt g other) →
                 agent_named rt (add_agent rt nm g).2 other = agent_named rt g other)
     ∧ all_unchallenged_assertions (add_agent rt nm g).2 = all_unchallenged_assertions g
     ∧ (∀ scorekeeper other,
          entitlements (add_agent rt nm g).2 scorekeeper other
          = entitlements g scorekeeper other)).
Proof.
  split.
  - intros a Ha Hlow. unfold add_agent.
    destruct (agent_named rt g nm) as [[ref b]|] eqn:Hn; [done|].
    exfalso. by apply (proj1 (agent_named_None rt g nm) Hn a Ha).
  - intros Hnone. unfold add_agent. rewrite Hnone. simpl.
    assert (all_unchallenged_assertions (mkGame (agents g ++ [default_Agent nm]))
            = all_unchallenged_assertions g) as Hall
      by (by apply all_unchallenged_assertions_add).
    split_and!.
    + unfold agent_named in *. simpl. rewrite list_find_app_r by done. simpl.
      rewrite decide_True by done. done.
    + intros other [[i b] Hsome]. rewrite Hsome. unfold agent_named in *. simpl.
      by apply list_find_app_l.
    + done.
    + intros sk ot. unfold entitlements. by rewrite Hall.
Qed.

Lemma add_agent_spec_witness :
  (add_agent rt_ascending "ANN" new_game).2 = new_game.
Proof.
  apply (proj1 (add_agent_spec rt_ascending "ANN" new_game) (default_Agent "Ann")).
  - by_compute.
  - by_compute.
Defined.

(** ** Removing an agent *)

Lemma list_find_delete_unique {A : Type} (P : A → Prop) `{∀ x, Decision (P x)}
    (l : list A) (i : nat) (x : A) :
  list_find P l = Some (i, x) →
  (∀ j y, l !! j = Some y → P y → j = i) →
  list_find P (delete i l) = None.
Proof.
  intros Hfind Honly. apply list_find_None, Forall_forall. intros y Hy Py.
  apply list_elem_of_lookup in Hy as [j Hj].
  destruct (decide (j < i)%nat) as [Hlt|Hge].
  - rewrite list_lookup_delete_lt in Hj by done. specialize (Honly j y Hj Py). lia.
  - rewrite list_lookup_delete_ge in Hj by lia. specialize (Honly (S j) y Hj Py). lia.
Qed.

Lemma unique_names_index rt g i j a b :
  unique_names rt g →
  agents g !! i = Some a → agents g !! j = Some b →
  str_lower rt (name a) = str_lower rt (name b) → i = j.
Proof.
  intros Huniq Hi Hj Hlow.
  apply (NoDup_lookup _ i j (str_lower rt (name a)) Huniq).
  - by rewrite list_lookup_fmap, Hi.
  - by rewrite list_lookup_fmap, Hj, Hlow.
Qed.

Lemma elem_of_delete_unique rt g ref agent b :
  unique_names rt g → agents g !! ref = Some agent →
  b ∈ delete ref (agents g) ↔ b ∈ agents g ∧ b ≠ agent.
Proof.
  intros Huniq Hl. split.
  - intros Hb. split.
    + eapply elem_of_sublist; [done|apply sublist_delete].
    + intros ->. apply list_elem_of_lookup in Hb as [j Hj].
      destruct (decide (j < ref)%nat) as [Hlt|Hge].
      * rewrite list_lookup_delete_lt in Hj by done.
        pose proof (unique_names_index rt g j ref agent agent Huniq Hj Hl eq_refl). lia.
      * rewrite list_lookup_delete_ge in Hj by lia.
        pose proof (unique_names_index rt g (S j) ref agent agent Huniq Hj Hl eq_refl).
        lia.
  - intros [Hb Hne]. apply list_elem_of_lookup in Hb as [j Hj].
    apply list_elem_of_lookup. destruct (decide (j < ref)%nat) as [Hlt|Hge].
    + exists j. by rewrite list_lookup_delete_lt.
    + destruct (decide (j = ref)) as [->|Hjr]; [congruence|].
      exists (pred j). rewrite list_lookup_delete_ge by lia.
      replace (S (pred j)) with j by lia. done.
Qed.

Lemma agent_named_removed rt g nm ref agent :
  unique_names rt g → agent_named rt g nm = Some (ref, agent) →
  agent_named rt (mkGame (delete ref (agents g))) nm = None.
Proof.
  intros Huniq Hn. pose proof (agent_named_Some rt g nm ref agent Hn) as [Hl Hlow].
  unfold agent_named in *. simpl. apply (list_find_delete_unique _ _ _ agent); [done|].
  intros j y Hj Py. apply (unique_names_index rt g j ref y agent Huniq Hj Hl).
  by rewrite Py, Hlow.
Qed.

(** X17.  [remove agent], in a game where names are unique up to case: the
    name is no longer found, the game has one agent fewer, the agents left are
    those of the game other than the one removed, and every other name finds
    the agent it found before. *)
Theorem remove_agent_spec (rt : Runtime) (nm : string) (g : Game) (ref : nat)
    (agent : Agent) :
  unique_names rt g →
  agent_named rt g nm = Some (ref, agent) →
  agent_named rt (remove_agent rt nm g).2 nm = None
  ∧ List.length (agents (remove_agent rt nm g).2) = (List.length (agents g) - 1)%nat
  ∧ (∀ b, b ∈ agents (remove_agent rt nm g).2 ↔ b ∈ agents g ∧ b ≠ agent)
  ∧ (∀ other, str_lower rt other ≠ str_lower rt nm →
              snd <$> agent_named rt (remove_agent rt nm g).2 other
              = snd <$> agent_named rt g other).
Proof.
  intros Huniq Hn. unfold remove_agent. rewrite Hn. simpl.
  pose proof (agent_named_Some rt g nm ref agent Hn) as [Hl Hlow].
  pose proof (λ b, elem_of_delete_unique rt g ref agent b Huniq Hl) as Hmem.
  split_and!.
  - by apply (agent_named_removed rt g nm ref agent).
  - rewrite length_delete; [done|]. by eexists.
  - done.
  - intros other Hother.
    destruct (agent_named rt (mkGame (delete ref (agents g))) other) as [[i a]|] eqn:H1;
      destruct (agent_named rt g other) as [[j b]|] eqn:H2; simpl; [|exfalso|exfalso|done].
    + f_equal. apply (agent_named_unique rt g other j b a Huniq H2).
      * apply agent_named_Some in H1 as [Hl1 _]. simpl in Hl1.
        apply list_elem_of_lookup_2 in Hl1. by apply Hmem in Hl1 as [? _].
      * by apply agent_named_Some in H1 as [_ ?].
    + apply agent_named_Some in H1 as [Hl1 Hp]. simpl in Hl1.
      apply list_elem_of_lookup_2 in Hl1. apply Hmem in Hl1 as [Hin _].
      by apply (proj1 (agent_named_None rt g other) H2 a Hin).
    + apply agent_named_Some in H2 as [Hl2 Hp].
      apply (proj1 (agent_named_None rt _ other) H1 b); [|done]. simpl.
      apply Hmem. split; [by apply list_elem_of_lookup_2 in Hl2|].
      intros ->. apply Hother. by rewrite <- Hp, Hlow.
Qed.

Lemma remove_agent_spec_witness :
  agent_named rt_ascending (remove_agent rt_ascending "bob" new_game).2 "bob" = None.
Proof.
  apply (proj1 (remove_agent_spec rt_ascending "bob" new_game 1 (default_Agent "Bob")
                  ltac:(by_compute) ltac:(by_compute))).
Defined.

(** ** What a command does to the score *)

Lemma commitments_avowed_subseteq sk ot : commitments_avowed ot ⊆ commitments sk ot.
Proof.
  rewrite commitments_is_iter.
  apply (iter_grows (consequences_once (committive_inferences sk)) 0 (intelligence sk));
    [|lia].
  intros x. apply consequences_once_superset.
Qed.

Lemma entitlements_base g sk ot :
  remove_incompatibles (all_unchallenged_assertions g) (commitments sk ot)
    (incompatibilities sk)
  ⊆ entitlements g sk ot.
Proof.
  rewrite entitlements_is_iter.
  apply (iter_grows_on (entitled_ok sk ot)
           (λ s, expand_entitlements (commitments sk ot) s (incompatibilities sk)
                   (committive_inferences sk) (permissive_inferences sk)
                   (intelligence ot)) 0 (intelligence ot)); [|apply base_ok|lia].
  intros X HX. split; [by apply expand_entitlements_grows|apply expand_entitlements_ok].
Qed.

Lemma elem_of_store_agent g ref a' b :
  b ∈ agents (store_agent g ref a') →
  b = a' ∨ ∃ i, i ≠ ref ∧ agents g !! i = Some b.
Proof.
  unfold store_agent. simpl. intros [i Hi]%list_elem_of_lookup.
  destruct (decide (i = ref)) as [->|Hne].
  - left. apply list_lookup_insert_Some in Hi as [(_ & <- & _)|[? _]]; done.
  - right. exists i. split; [done|]. by rewrite list_lookup_insert_ne in Hi.
Qed.

Lemma store_agent_elem_of g ref a a' :
  agents g !! ref = Some a → a' ∈ agents (store_agent g ref a').
Proof.
  intros Hl. apply list_elem_of_lookup. exists ref. by apply (store_agent_lookup g ref a).
Qed.

Lemma store_agent_keeps g ref a a' b :
  agents g !! ref = Some a → b ∈ agents g → b ≠ a → b ∈ agents (store_agent g ref a').
Proof.
  intros Hl [i Hi]%list_elem_of_lookup Hne. apply list_elem_of_lookup. exists i.
  rewrite store_agent_lookup_ne; [done|]. intros ->. congruence.
Qed.

(** X18.  After [X asserts s] the agent found under X is the old one with [s]
    avowed; every scorekeeper attributes the commitment [s] to it; no
    unchallenged assertion of the game is lost; and if [s] does not stand
    challenged for X, [s] is an unchallenged assertion and every scorekeeper
    counts X entitled to it. *)
Theorem asserts_effect (rt : Runtime) (g : Game) (nm s : string) (ref : nat)
    (agent : Agent) :
  agent_named rt g nm = Some (ref, agent) →
  ∃ g', process_command rt (Asserts nm s) g = Some (score_all rt g', g')
        ∧ agent_named rt g' nm = Some (ref, asserts agent s)
        ∧ (∀ scorekeeper, s ∈ commitments scorekeeper (asserts agent s))
        ∧ all_unchallenged_assertions g ⊆ all_unchallenged_assertions g'
        ∧ (s ∉ assertions_challenged g agent →
           s ∈ all_unchallenged_assertions g'
           ∧ ∀ scorekeeper, s ∈ entitlements g' scorekeeper (asserts agent s)).
Proof.
  intros Hn. pose proof (agent_named_lookup rt g nm ref agent Hn) as Hl.
  exists (store_agent g ref (asserts agent s)).
  assert (∀ b b', name b = name b' →
            assertions_challenged (store_agent g ref (asserts agent s)) b
            = assertions_challenged g b') as Hch.
  { intros b b' Hname. apply assertions_challenged_view; [|done].
    by apply (store_agent_fmap challenges_issued g ref agent). }
  assert (∀ scorekeeper, s ∈ commitments scorekeeper (asserts agent s)) as Hcom.
  { intros sk. apply commitments_avowed_subseteq. simpl.
    apply elem_of_union_r, elem_of_singleton. done. }
  split_and!.
  - simpl. by rewrite Hn.
  - by apply (agent_named_store_same rt g ref agent).
  - done.
  - intros x (b & Hb & Hx)%elem_of_all_unchallenged_assertions.
    apply elem_of_all_unchallenged_assertions.
    unfold assertions_unchallenged in *. apply elem_of_difference in Hx as [Hav Hnch].
    destruct (decide (b = agent)) as [->|Hne].
    + exists (asserts agent s). split; [by apply (store_agent_elem_of g ref agent)|].
      apply elem_of_difference. split; [simpl; by apply elem_of_union_l|].
      by rewrite (Hch (asserts agent s) agent).
    + exists b. split; [by apply (store_agent_keeps g ref agent)|].
      apply elem_of_difference. split; [done|]. by rewrite (Hch b b).
  - intros Hnch.
    assert (s ∈ all_unchallenged_assertions (store_agent g ref (asserts agent s))) as Hall.
    { apply elem_of_all_unchallenged_assertions. exists (asserts agent s).
      split; [by apply (store_agent_elem_of g ref agent)|].
      unfold assertions_unchallenged. apply elem_of_difference. split.
      - simpl. apply elem_of_union_r, elem_of_singleton. done.
      - by rewrite (Hch (asserts agent s) agent). }
    split; [done|]. intros sk. apply entitlements_base, elem_of_remove_incompatibles.
    split; [done|]. apply compatible_with_committed, Hcom.
Qed.

Lemma asserts_effect_witness :
  ∃ g', process_command rt_ascending (Asserts "bob" "A is red") new_game
        = Some (score_all rt_ascending g', g')
        ∧ agent_named rt_ascending g' "bob"
          = Some (1%nat, asserts (default_Agent "Bob") "A is red")
        ∧ (∀ scorekeeper,
             "A is red" ∈ commitments scorekeeper (asserts (default_Agent "Bob") "A is red"))
        ∧ all_unchallenged_assertions new_game ⊆ all_unchallenged_assertions g'
        ∧ ("A is red" ∉ assertions_challenged new_game (default_Agent "Bob") →
           "A is red" ∈ all_unchallenged_assertions g'
           ∧ ∀ scorekeeper,
               "A is red" ∈ entitlements g' scorekeeper
                              (asserts (default_Agent "Bob") "A is red")).
Proof.
  apply (asserts_effect rt_ascending new_game "bob" "A is red" 1 (default_Agent "Bob")).
  by_compute.
Defined.

(** X19.  After [X challenges Y's entitlement to s], [s] having been avowed by
    Y, the sentence [s] is a challenged and not an unchallenged assertion of
    every agent named as Y is; and if no agent of another name has avowed [s],
    it is no unchallenged assertion of the game at all. *)
Theorem challenges_effect (rt : Runtime) (g : Game) (agent_name target_name s : string)
    (ref j : nat) (agent target : Agent) :
  agent_named rt g agent_name = Some (ref, agent) →
  agent_named rt g target_name = Some (j, target) →
  s ∈ commitments_avowed target →
  ∃ g', process_command rt (Challenges agent_name target_name s) g
        = Some (score_all rt g', g')
        ∧ (∀ b, name b = name target →
                s ∈ assertions_challenged g' b ∧ s ∉ assertions_unchallenged g' b)
        ∧ ((∀ b, b ∈ agents g → name b ≠ name target → s ∉ commitments_avowed b) →
           s ∉ all_unchallenged_assertions g').
Proof.
  intros Hn Ht Hs. pose proof (agent_named_lookup rt g _ ref agent Hn) as Hl.
  exists (store_agent g ref (challenges agent target s)).
  assert (challenges agent target s
          = set_challenges_issued
              (challenges_issued agent ∪ {[mkChallenge (name target) s]}) agent) as Heq.
  { unfold challenges. by rewrite decide_True. }
  assert (∀ b, name b = name target →
               s ∈ assertions_challenged
                     (store_agent g ref (challenges agent target s)) b) as Hch.
  { intros b Hb. apply elem_of_assertions_challenged.
    exists (challenges agent target s).
    split; [by apply (store_agent_elem_of g ref agent)|].
    rewrite Heq, Hb. simpl. apply elem_of_union_r, elem_of_singleton. done. }
  split_and!.
  - simpl. rewrite Hn, Ht. rewrite decide_False; [done|]. by intros Hc.
  - intros b Hb. split; [by apply Hch|]. unfold assertions_unchallenged.
    intros [_ Hnot]%elem_of_difference. by apply Hnot, Hch.
  - intros Hothers (b & Hb & Hx)%elem_of_all_unchallenged_assertions.
    unfold assertions_unchallenged in Hx. apply elem_of_difference in Hx as [Hav Hnch].
    destruct (decide (name b = name target)) as [Hname|Hname]; [by apply Hnch, Hch|].
    apply elem_of_store_agent in Hb as [->|(i & Hi & Hb)].
    + apply (Hothers agent).
      * by apply list_elem_of_lookup_2 in Hl.
      * by rewrite Heq in Hname.
      * by rewrite Heq in Hav.
    + apply (Hothers b); [|done..]. by apply list_elem_of_lookup_2 in Hb.
Qed.

Lemma challenges_effect_witness :
  ∃ g', process_command rt_ascending (Challenges "Ann" "Bob" "A is red")
          (mkGame [default_Agent "Ann"; asserts (default_Agent "Bob") "A is red"])
        = Some (score_all rt_ascending g', g')
        ∧ (∀ b, name b = "Bob" →
                "A is red" ∈ assertions_challenged g' b
                ∧ "A is red" ∉ assertions_unchallenged g' b)
        ∧ ((∀ b, b ∈ [default_Agent "Ann"; asserts (default_Agent "Bob") "A is red"] →
                 name b ≠ "Bob" → "A is red" ∉ commitments_avowed b) →
           "A is red" ∉ all_unchallenged_assertions g').
Proof.
  apply (challenges_effect rt_ascending
           (mkGame [default_Agent "Ann"; asserts (default_Agent "Bob") "A is red"])
           "Ann" "Bob" "A is red" 0 1 (default_Agent "Ann")
           (asserts (default_Agent "Bob") "A is red")).
  - by_compute.
  - by_compute.
  - by_compute.
Defined.

(** ** Doing and undoing *)

Lemma store_agent_twice g ref a' a'' :
  store_agent (store_agent g ref a') ref a'' = store_agent g ref a''.
Proof. unfold store_agent. simpl. by rewrite list_insert_insert_eq. Qed.

Lemma store_agent_back g ref a a' :
  agents g !! ref = Some a → store_agent (store_agent g ref a') ref a = g.
Proof. intros Hl. rewrite store_agent_twice. by apply store_agent_same. Qed.

Lemma add_discard `{Countable A} (x : A) (X : gset A) : x ∉ X → (X ∪ {[x]}) ∖ {[x]} = X.
Proof.
  intros Habs. apply set_eq. intros y.
  rewrite elem_of_difference, elem_of_union, elem_of_singleton.
  split; [tauto|]. intros Hy. split; [by left|]. by intros ->.
Qed.

Lemma list_remove_snoc {A : Type} `{EqDecision A} (x : A) (l : list A) :
  x ∉ l → list_remove x (l ++ [x]) = Some l.
Proof.
  induction l as [|y l IH]; intros Habs; simpl.
  - by rewrite decide_True.
  - apply not_elem_of_cons in Habs as [Hne Habs].
    rewrite decide_False by done. by rewrite IH.
Qed.

(** X20.  Undoing restores the game exactly: asserting a sentence not yet
    avowed and disavowing it, issuing a challenge not yet issued and
    withdrawing it, adding an inference not yet accepted and removing it, adding
    an incompatibility set not yet listed and removing it. *)
Theorem undo_restores (rt : Runtime) (g : Game) (agent_name : string) (ref : nat)
    (agent : Agent) :
  agent_named rt g agent_name = Some (ref, agent) →
  (∀ s, s ∉ commitments_avowed agent →
        run_commands rt [Asserts agent_name s; Disavows agent_name s] g = Some g)
  ∧ (∀ target_name j target s,
       agent_named rt g target_name = Some (j, target) →
       s ∈ commitments_avowed target →
       mkChallenge (name target) s ∉ challenges_issued agent →
       run_commands rt [Challenges agent_name target_name s;
                        WithdrawsChallenge agent_name target_name s] g = Some g)
  ∧ (∀ ps c,
       mkInference (list_to_set ps) c ∉ committive_inferences agent →
       run_commands rt [AddsInference agent_name committive ps c;
                        RemovesInference agent_name committive ps c] g = Some g)
  ∧ (∀ ps c,
       mkInference (list_to_set ps) c ∉ permissive_inferences agent →
       run_commands rt [AddsInference agent_name permissive ps c;
                        RemovesInference agent_name permissive ps c] g = Some g)
  ∧ (∀ ss,
       list_to_set ss ∉ incompatibilities agent →
       run_commands rt [AddsIncompatibility agent_name ss;
                        RemovesIncompatibility agent_name ss] g = Some g).
Proof.
  intros Hn. pose proof (agent_named_lookup rt g _ ref agent Hn) as Hl.
  split_and!.
  - intros s Habs. cbn [run_commands process_command]. rewrite Hn. cbn [mbind option_bind snd].
    rewrite (agent_named_store_same rt g ref agent (asserts agent s) agent_name Hn eq_refl).
    rewrite decide_False.
    2:{ intros Hc. apply Hc. simpl. apply elem_of_union_r, elem_of_singleton. done. }
    cbn [mbind option_bind snd]. f_equal.
    replace (disavows (asserts agent s) s) with agent.
    + by apply store_agent_back.
    + unfold disavows, asserts, set_commitments_avowed. simpl.
      rewrite add_discard by done. by destruct agent.
  - intros tn j target s Ht Hs Habs. cbn [run_commands process_command].
    rewrite Hn, Ht. rewrite decide_False by (by intros Hc).
    cbn [mbind option_bind snd].
    assert (challenges agent target s
            = set_challenges_issued
                (challenges_issued agent ∪ {[mkChallenge (name target) s]}) agent) as Heq.
    { unfold challenges. by rewrite decide_True. }
    rewrite (agent_named_store_same rt g ref agent _ agent_name Hn
               (eq_trans (f_equal name Heq) eq_refl)).
    rewrite (agent_named_store rt g ref agent _ tn Hl
               (eq_trans (f_equal name Heq) eq_refl)).
    rewrite Ht. cbn [fmap option_fmap option_map fst snd mbind option_bind].
    f_equal.
    assert (name (if decide (j = ref) then challenges agent target s else target)
            = name target) as Hname.
    { destruct (decide (j = ref)) as [->|]; [|done].
      apply agent_named_lookup in Ht. rewrite Heq. simpl. congruence. }
    replace (withdraws_challenge (challenges agent target s)
               (if decide (j = ref) then challenges agent target s else target) s)
      with agent.
    + by apply store_agent_back.
    + unfold withdraws_challenge. rewrite Hname, Heq. unfold set_challenges_issued. simpl.
      rewrite add_discard by done. by destruct agent.
  - intros ps c Habs. cbn [run_commands process_command]. rewrite Hn.
    cbn [mbind option_bind snd].
    rewrite (agent_named_store_same rt g ref agent
               (set_committive_inferences
                  (committive_inferences agent ∪ {[mkInference (list_to_set ps) c]}) agent)
               agent_name Hn eq_refl).
    cbn [mbind option_bind snd]. f_equal.
    unfold set_committive_inferences. simpl. rewrite add_discard by done.
    rewrite store_agent_twice. apply store_agent_same. by destruct agent.
  - intros ps c Habs. cbn [run_commands process_command]. rewrite Hn.
    cbn [mbind option_bind snd].
    rewrite (agent_named_store_same rt g ref agent
               (set_permissive_inferences
                  (permissive_inferences agent ∪ {[mkInference (list_to_set ps) c]}) agent)
               agent_name Hn eq_refl).
    cbn [mbind option_bind snd]. f_equal.
    unfold set_permissive_inferences. simpl. rewrite add_discard by done.
    rewrite store_agent_twice. apply store_agent_same. by destruct agent.
  - intros ss Habs. cbn [run_commands process_command]. rewrite Hn.
    cbn [mbind option_bind snd].
    rewrite (agent_named_store_same rt g ref agent
               (set_incompatibilities (incompatibilities agent ++ [list_to_set ss]) agent)
               agent_name Hn eq_refl).
    simpl incompatibilities.
    rewrite decide_True by (apply elem_of_app; right; apply list_elem_of_singleton; done).
    rewrite list_remove_snoc by done.
    cbn [mbind option_bind snd]. f_equal.
    unfold set_incompatibilities. simpl.
    rewrite store_agent_twice. apply store_agent_same. by destruct agent.
Qed.

Lemma undo_restores_witness :
  run_commands rt_ascending
    [Asserts "Ann" "A is red"; Disavows "Ann" "A is red"] new_game = Some new_game.
Proof.
  apply (proj1 (undo_restores rt_ascending new_game "Ann" 0 (default_Agent "Ann")
                  ltac:(by_compute)) "A is red").
  by_compute.
Defined.

(** ** The incompatibility list *)

Lemma compatible_with_ext incs incs' coms x :
  (∀ inc, inc ∈ incs' ↔ inc ∈ incs) →
  compatible_with incs' coms x = compatible_with incs coms x.
Proof.
  intros Hsame.
  destruct (compatible_with incs coms x) eqn:Hc.
  - apply compatible_with_true. intros inc Hin. apply Hsame in Hin.
    by apply (proj1 (compatible_with_true incs coms x) Hc).
  - apply compatible_with_false. apply compatible_with_false in Hc as (inc & Hin & ?).
    exists inc. split; [by apply Hsame|done].
Qed.

Lemma entitlements_incompatibilities_ext g sk ot incs' :
  (∀ x, compatible_with incs' (commitments sk ot) x
        = compatible_with (incompatibilities sk) (commitments sk ot) x) →
  entitlements g (set_incompatibilities incs' sk) ot = entitlements g sk ot.
Proof.
  intros Hext. rewrite !entitlements_is_iter. simpl.
  assert (commitments (set_incompatibilities incs' sk) ot = commitments sk ot) as -> by done.
  assert (∀ X, remove_incompatibles X (commitments sk ot) incs'
               = remove_incompatibles X (commitments sk ot) (incompatibilities sk)) as Hrem.
  { intros X. apply set_eq. intros x. by rewrite !elem_of_remove_incompatibles, Hext. }
  rewrite Hrem. apply iter_ext. intros X.
  unfold expand_entitlements, consequences_once_and_prune. by rewrite !Hrem.
Qed.

(** X21.  Scores read the scorekeeper's incompatibility list as a set: a list
    with the same members, in any order and with any repetitions, gives the same
    commitments, entitlements and incompatibles. *)
Theorem incompatibilities_as_a_set (g : Game) (scorekeeper other : Agent)
    (incs' : list (gset string)) :
  (∀ inc, inc ∈ incs' ↔ inc ∈ incompatibilities scorekeeper) →
  commitments (set_incompatibilities incs' scorekeeper) other
  = commitments scorekeeper other
  ∧ entitlements g (set_incompatibilities incs' scorekeeper) other
    = entitlements g scorekeeper other
  ∧ incompatibles (set_incompatibilities incs' scorekeeper) other
    = incompatibles scorekeeper other.
Proof.
  intros Hsame. split_and!.
  - done.
  - apply entitlements_incompatibilities_ext. intros x. by apply compatible_with_ext.
  - apply set_eq. intros inc. rewrite !elem_of_incompatibles. simpl.
    assert (commitments (set_incompatibilities incs' scorekeeper) other
            = commitments scorekeeper other) as -> by done.
    by rewrite Hsame.
Qed.

Lemma incompatibilities_as_a_set_witness :
  entitlements game_challenged
    (set_incompatibilities (reverse (incompatibilities (default_Agent "Ann")))
       (default_Agent "Ann")) bob_no_rules
  = entitlements game_challenged (default_Agent "Ann") bob_no_rules.
Proof.
  apply (proj1 (proj2 (incompatibilities_as_a_set game_challenged (default_Agent "Ann")
                         bob_no_rules
                         (reverse (incompatibilities (default_Agent "Ann")))
                         (λ inc, elem_of_reverse inc _)))).
Defined.

Lemma list_remove_Permutation {A : Type} `{EqDecision A} (x : A) (l l' : list A) :
  list_remove x l = Some l' → l ≡ₚ x :: l'.
Proof.
  revert l'. induction l as [|y l IH]; intros l'; simpl; [done|].
  destruct (decide (y = x)) as [->|Hne]; [by intros [= ->]|].
  destruct (list_remove x l) as [l0|]; simpl; [|done]. intros [= <-].
  rewrite (IH l0 eq_refl). apply Permutation_swap.
Qed.

Lemma list_remove_app_l {A : Type} `{EqDecision A} (x : A) (l k : list A) :
  x ∈ l → list_remove x (l ++ k)%list = (λ l' : list A, (l' ++ k)%list) <$> list_remove x l.
Proof.
  induction l as [|y l IH]; intros Hin; simpl; [by apply elem_of_nil in Hin|].
  destruct (decide (y = x)) as [->|Hne]; [done|].
  apply elem_of_cons in Hin as [->|Hin]; [done|]. rewrite (IH Hin).
  destruct (list_remove x l); done.
Qed.

(** X22.  [adds incompatibility] appends without looking for a copy: adding a
    set already listed makes the list one longer and changes no entitlement, and
    one [removes incompatibility] afterwards takes out the first copy only, so
    the list has its former members and the set is still listed. *)
Theorem duplicate_incompatibility (rt : Runtime) (g : Game) (agent_name : string)
    (ss : list string) (ref : nat) (agent : Agent) :
  agent_named rt g agent_name = Some (ref, agent) →
  list_to_set ss ∈ incompatibilities agent →
  ∃ a1 a2,
    process_command rt (AddsIncompatibility agent_name ss) g
    = Some (score_all rt (store_agent g ref a1), store_agent g ref a1)
    ∧ process_command rt (RemovesIncompatibility agent_name ss) (store_agent g ref a1)
      = Some (score_all rt (store_agent g ref a2), store_agent g ref a2)
    ∧ List.length (incompatibilities a1) = S (List.length (incompatibilities agent))
    ∧ incompatibilities a2 ≡ₚ incompatibilities agent
    ∧ list_to_set ss ∈ incompatibilities a2
    ∧ (∀ other, entitlements (store_agent g ref a1) a1 other
                = entitlements (store_agent g ref a1) agent other).
Proof.
  intros Hn Hin. pose proof (agent_named_lookup rt g _ ref agent Hn) as Hl.
  destruct (list_remove_is_Some _ _ Hin) as [l' Hrem].
  pose proof (list_remove_Permutation _ _ _ Hrem) as Hperm.
  exists (set_incompatibilities (incompatibilities agent ++ [list_to_set ss]) agent),
         (set_incompatibilities (l' ++ [list_to_set ss]) agent).
  split_and!.
  - simpl. by rewrite Hn.
  - cbn [process_command].
    rewrite (agent_named_store_same rt g ref agent
               (set_incompatibilities (incompatibilities agent ++ [list_to_set ss]) agent)
               agent_name Hn eq_refl).
    simpl incompatibilities.
    rewrite decide_True by (apply elem_of_app; by left).
    rewrite (list_remove_app_l _ _ _ Hin), Hrem.
    cbn [fmap option_fmap option_map mbind option_bind].
    by rewrite store_agent_twice.
  - simpl. rewrite length_app. simpl. lia.
  - simpl. rewrite Hperm. rewrite (Permutation_app_comm l'). done.
  - simpl. apply elem_of_app. right. by apply list_elem_of_singleton.
  - intros other.
    apply (entitlements_incompatibilities_ext _ agent other
             (incompatibilities agent ++ [list_to_set ss])).
    intros x. apply compatible_with_ext. intros inc. rewrite elem_of_app.
    split; [|by left]. intros [?| ->%list_elem_of_singleton]; done.
Qed.

Lemma duplicate_incompatibility_witness :
  ∃ a1 a2,
    process_command rt_ascending
      (AddsIncompatibility "Ann" ["A is red"; "A is blue"]) new_game
    = Some (score_all rt_ascending (store_agent new_game 0 a1), store_agent new_game 0 a1)
    ∧ process_command rt_ascending
        (RemovesIncompatibility "Ann" ["A is red"; "A is blue"]) (store_agent new_game 0 a1)
      = Some (score_all rt_ascending (store_agent new_game 0 a2), store_agent new_game 0 a2)
    ∧ List.length (incompatibilities a1)
      = S (List.length (incompatibilities (default_Agent "Ann")))
    ∧ incompatibilities a2 ≡ₚ incompatibilities (default_Agent "Ann")
    ∧ list_to_set ["A is red"; "A is blue"] ∈ incompatibilities a2
    ∧ (∀ other, entitlements (store_agent new_game 0 a1) a1 other
                = entitlements (store_agent new_game 0 a1) (default_Agent "Ann") other).
Proof.
  apply (duplicate_incompatibility rt_ascending new_game "Ann" ["A is red"; "A is blue"]
           0 (default_Agent "Ann")).
  - by_compute.
  - by_compute.
Defined.

(** ** Intelligence, [gogar_enh.py] *)

Lemma entitlements_more_rounds g sk ot n :
  (intelligence ot ≤ n)%nat →
  entitlements g sk ot ⊆ entitlements g sk (set_intelligence n ot).
Proof.
  intros Hle.
  assert (entitlements g sk (set_intelligence n ot)
          = Nat.iter n
              (λ s, expand_entitlements (commitments sk ot) s (incompatibilities sk)
                      (committive_inferences sk) (permissive_inferences sk)
                      (intelligence ot))
              (remove_incompatibles (all_unchallenged_assertions g)
                 (commitments sk ot) (incompatibilities sk))) as ->.
  { rewrite entitlements_is_iter. by apply iter_ext. }
  rewrite entitlements_is_iter.
  apply (iter_grows_on (entitled_ok sk ot)); [|apply base_ok|done].
  intros X HX. split; [by apply expand_entitlements_grows|apply expand_entitlements_ok].
Qed.

Lemma set_intelligence_back n (a : Agent) :
  set_intelligence (intelligence a) (set_intelligence n a) = a.
Proof. by destruct a. Qed.

(** X23.  [set intelligence of X to n], [gogar_enh.py]: X is found where it was,
    with the new intelligence and nothing else changed; names and unchallenged
    assertions are as before.  Every other agent of the game is as it was,
    the entitlements it attributes to the others are unchanged, and so are the
    commitments it attributes to X; what X attributes to it as commitments, and
    the entitlements it attributes to X, do not shrink when [n] is no less than
    the old value and do not grow when [n] is no more.  The commitments X
    attributes to itself move the same way; its entitlements in its own score
    need not. *)
Theorem set_intelligence_effect (rt : Runtime) (g : Game) (agent_name digits : string)
    (value ref : nat) (agent : Agent) :
  agent_named rt g agent_name = Some (ref, agent) →
  agent_named rt (enh_set_intelligence rt agent_name digits value g).2 agent_name
  = Some (ref, set_intelligence value agent)
  ∧ name <$> agents (enh_set_intelligence rt agent_name digits value g).2
    = name <$> agents g
  ∧ all_unchallenged_assertions (enh_set_intelligence rt agent_name digits value g).2
    = all_unchallenged_assertions g
  ∧ (∀ i other, i ≠ ref → agents g !! i = Some other →
       agents (enh_set_intelligence rt agent_name digits value g).2 !! i = Some other
       ∧ (∀ j other', j ≠ ref → agents g !! j = Some other' →
            entitlements (enh_set_intelligence rt agent_name digits value g).2
              other other'
            = entitlements g other other')
       ∧ commitments other (set_intelligence value agent) = commitments other agent
       ∧ ((intelligence agent ≤ value)%nat →
          commitments agent other ⊆ commitments (set_intelligence value agent) other
          ∧ entitlements g other agent
            ⊆ entitlements (enh_set_intelligence rt agent_name digits value g).2
                other (set_intelligence value agent))
       ∧ ((value ≤ intelligence agent)%nat →
          commitments (set_intelligence value agent) other ⊆ commitments agent other
          ∧ entitlements (enh_set_intelligence rt agent_name digits value g).2
              other (set_intelligence value agent)
            ⊆ entitlements g other agent))
  ∧ ((intelligence agent ≤ value)%nat →
     commitments agent agent
     ⊆ commitments (set_intelligence value agent) (set_intelligence value agent))
  ∧ ((value ≤ intelligence agent)%nat →
     commitments (set_intelligence value agent) (set_intelligence value agent)
     ⊆ commitments agent agent).
Proof.
  intros Hn. pose proof (agent_named_lookup rt g _ ref agent Hn) as Hl.
  unfold enh_set_intelligence. rewrite Hn. cbn [snd].
  assert (all_unchallenged_assertions (store_agent g ref (set_intelligence value agent))
          = all_unchallenged_assertions g) as Hall.
  { apply all_unchallenged_assertions_view.
    - by apply (store_agent_fmap (λ a, (name a, commitments_avowed a)) g ref agent).
    - by apply (store_agent_fmap challenges_issued g ref agent). }
  assert (∀ sk ot, entitlements (store_agent g ref (set_intelligence value agent)) sk ot
                   = entitlements g sk ot) as Hents.
  { intros sk ot. unfold entitlements. by rewrite Hall. }
  assert (∀ other, (value ≤ intelligence agent)%nat →
                   commitments (set_intelligence value agent) other
                   ⊆ commitments agent other) as Hdown.
  { intros other Hle.
    rewrite <- (set_intelligence_back value agent) at 2.
    by apply commitments_more_rounds. }
  split_and!.
  - by apply (agent_named_store_same rt g ref agent).
  - by apply (store_agent_fmap name g ref agent).
  - done.
  - intros i other Hi Hother. split_and!.
    + by rewrite store_agent_lookup_ne.
    + intros j other' _ _. apply Hents.
    + done.
    + intros Hle. split; [by apply commitments_more_rounds|].
      rewrite Hents. by apply entitlements_more_rounds.
    + intros Hle. split; [by apply Hdown|]. rewrite Hents.
      rewrite <- (set_intelligence_back value agent) at 2.
      by apply entitlements_more_rounds.
  - intros Hle. by apply (commitments_more_rounds agent agent value).
  - intros Hle. by apply (Hdown agent).
Qed.

Lemma set_intelligence_effect_witness :
  agent_named rt_ascending
    (enh_set_intelligence rt_ascending "bob" "50" 50 new_game).2 "bob"
  = Some (1%nat, set_intelligence 50 (default_Agent "Bob")).
Proof.
  apply (proj1 (set_intelligence_effect rt_ascending new_game "bob" "50" 50 1
                  (default_Agent "Bob") ltac:(by_compute))).
Defined.

(** Raising an agent's intelligence can cost it an entitlement in its own
    score: at intelligence 0 Ann does not attribute "A is colored" to herself,
    so Bob's unchallenged "A is transparent" is compatible; at intelligence 1
    she does, and it is pruned. *)
Example own_entitlements_can_shrink :
  entitlements (game_transparent 0) (ann_transparent 0) (ann_transparent 0)
  = {["A is red"; "A is transparent"]}
  ∧ entitlements (game_transparent 1) (ann_transparent 1) (ann_transparent 1)
    = {["A is red"; "A is colored"]}
  ∧ commitments (ann_transparent 0) (ann_transparent 0) = {["A is red"]}
  ∧ commitments (ann_transparent 1) (ann_transparent 1) = {["A is red"; "A is colored"]}.
Proof. split_and!; by_compute. Qed.

(** ** Challenges name their target *)

Lemma agent_named_lower rt g nm nm' :
  str_lower rt nm = str_lower rt nm' → agent_named rt g nm = agent_named rt g nm'.
Proof. intros Hlow. unfold agent_named. by rewrite Hlow. Qed.

(** X24.  A challenge names its target.  When an agent is removed and an
    agent of the same name is added, a challenge that another agent had issued
    against the old one stands against the new one: the sentence is a challenged
    assertion of the newcomer from the start. *)
Theorem challenges_outlive_their_target (rt : Runtime) (g : Game) (nm s : string)
    (ref : nat) (agent challenger : Agent) :
  unique_names rt g →
  agent_named rt g nm = Some (ref, agent) →
  challenger ∈ agents g → challenger ≠ agent →
  mkChallenge (name agent) s ∈ challenges_issued challenger →
  agent_named rt (add_agent rt (name agent) (remove_agent rt nm g).2).2 (name agent)
  = Some ((List.length (agents g) - 1)%nat, default_Agent (name agent))
  ∧ (∀ a, name a = name agent →
          s ∈ assertions_challenged
                (add_agent rt (name agent) (remove_agent rt nm g).2).2 a
          ∧ s ∉ assertions_unchallenged
                  (add_agent rt (name agent) (remove_agent rt nm g).2).2 a).
Proof.
  intros Huniq Hn Hb Hne Hch.
  pose proof (agent_named_Some rt g nm ref agent Hn) as [Hl Hlow].
  assert (agent_named rt (mkGame (delete ref (agents g))) (name agent) = None) as Hgone.
  { rewrite (agent_named_lower rt _ (name agent) nm Hlow).
    by apply (agent_named_removed rt g nm ref agent). }
  unfold remove_agent. rewrite Hn. cbn [snd].
  unfold add_agent. rewrite Hgone. cbn [snd].
  assert (∀ a, name a = name agent →
               s ∈ assertions_challenged
                     (mkGame (agents (mkGame (delete ref (agents g)))
                              ++ [default_Agent (name agent)])) a) as Hchal.
  { intros a Ha. apply elem_of_assertions_challenged. exists challenger. simpl. split.
    - apply elem_of_app. left. by apply (elem_of_delete_unique rt g ref agent).
    - by rewrite Ha. }
  split.
  - unfold agent_named in *. simpl in *. rewrite list_find_app_r by done. simpl.
    rewrite decide_True by done. simpl. rewrite length_delete by (by eexists). done.
  - intros a Ha. split; [by apply Hchal|]. unfold assertions_unchallenged.
    intros [_ Hnot]%elem_of_difference. by apply Hnot, Hchal.
Qed.

Lemma challenges_outlive_their_target_witness :
  agent_named rt_ascending
    (add_agent rt_ascending (name bob_no_rules)
       (remove_agent rt_ascending "bob" game_challenged).2).2 (name bob_no_rules)
  = Some ((List.length (agents game_challenged) - 1)%nat,
          default_Agent (name bob_no_rules)).
Proof.
  apply (proj1 (challenges_outlive_their_target rt_ascending game_challenged "bob"
                  "A is red" 1 (asserts (default_Agent "Bob") "A is red")
                  (challenges (default_Agent "Ann")
                     (asserts (default_Agent "Bob") "A is red") "A is red")
                  ltac:(by_compute) ltac:(by_compute) ltac:(by_compute)
                  ltac:(by_compute) ltac:(by_compute))).
Defined.

(** ** The transcript *)

(** X25.  The transcript, for the inputs embedded here (adding and removing
    agents, new game, setting an intelligence, and the commands): an input
    that is answered leaves its line and reply as the last entry, and the
    transcript never holds more than 100.  [new game] empties it first, so it
    then holds that one entry; after any other input it is one longer, up to
    100, the oldest entry being dropped when it was full. *)
Theorem transcript_bounded (rt : Runtime) (line : string) (inp : Input) (g g' : Game)
    (r : string) (transcript : list (string * string)) :
  (List.length transcript ≤ transcript_maxlen)%nat →
  process_input rt inp g = Some (r, g') →
  ∃ transcript',
    process_input_logged rt line inp (g, transcript) = Some (r, (g', transcript'))
    ∧ (List.length transcript' ≤ transcript_maxlen)%nat
    ∧ last transcript' = Some (line, r)
    ∧ (inp = NewGame → transcript' = [(line, r)])
    ∧ (inp ≠ NewGame →
       List.length transcript' = Nat.min (S (List.length transcript)) transcript_maxlen
       ∧ ((List.length transcript < transcript_maxlen)%nat →
          transcript' = (transcript ++ [(line, r)])%list)
       ∧ (List.length transcript = transcript_maxlen →
          transcript' = (drop 1 transcript ++ [(line, r)])%list)).
Proof.
  intros Hlen Hr.
  assert (∀ t : list (string * string),
            (List.length t ≤ transcript_maxlen)%nat →
            List.length (transcript_append t (line, r))
            = Nat.min (S (List.length t)) transcript_maxlen
            ∧ last (transcript_append t (line, r)) = Some (line, r)
            ∧ ((List.length t < transcript_maxlen)%nat →
               transcript_append t (line, r) = (t ++ [(line, r)])%list)
            ∧ (List.length t = transcript_maxlen →
               transcript_append t (line, r) = (drop 1 t ++ [(line, r)])%list)) as Happ.
  { intros t Ht. unfold transcript_append.
    assert (List.length (t ++ [(line, r)]) = S (List.length t)) as Hl
      by (rewrite length_app; simpl; lia).
    rewrite Hl. unfold transcript_maxlen in *. split_and!.
    - rewrite length_drop, Hl. lia.
    - rewrite drop_app_le by lia. apply last_snoc.
    - intros Hlt. replace (S (List.length t) - 100)%nat with 0%nat by lia. done.
    - intros Heq. rewrite Heq. replace (101 - 100)%nat with 1%nat by lia.
      rewrite drop_app_le by lia. done. }
  unfold process_input_logged. cbn [fst snd]. rewrite Hr. cbn [mbind option_bind fst snd].
  eexists. split; [reflexivity|].
  assert (inp = NewGame ∨ inp ≠ NewGame) as [->|Hne]
    by (destruct inp; (by left) || (by right)).
  - destruct (Happ [] ltac:(unfold transcript_maxlen; simpl; lia))
      as (Hl & Hlast & Hshort & _).
    split_and!; [rewrite Hl; unfold transcript_maxlen; simpl; lia|done| |done].
    intros _. apply Hshort. unfold transcript_maxlen. simpl. lia.
  - assert (match inp with NewGame => [] | _ => transcript end = transcript) as ->
      by (by destruct inp).
    destruct (Happ transcript Hlen) as (Hl & Hlast & Hshort & Hfull).
    split_and!; [rewrite Hl; lia|done|done|done].
Qed.

Lemma transcript_bounded_witness :
  ∃ transcript',
    process_input_logged rt_ascending "new game" NewGame
      (game_challenged, [("score", "text")])
    = Some (startup_message, (new_game, transcript'))
    ∧ (List.length transcript' ≤ transcript_maxlen)%nat
    ∧ last transcript' = Some ("new game", startup_message)
    ∧ (NewGame = NewGame → transcript' = [("new game", startup_message)])
    ∧ (NewGame ≠ NewGame →
       List.length transcript'
       = Nat.min (S (List.length [("score", "text")])) transcript_maxlen
       ∧ ((List.length [("score", "text")] < transcript_maxlen)%nat →
          transcript' = ([("score", "text")] ++ [("new game", startup_message)])%list)
       ∧ (List.length [("score", "text")] = transcript_maxlen →
          transcript' = (drop 1 [("score", "text")]
                         ++ [("new game", startup_message)])%list)).
Proof.
  apply (transcript_bounded rt_ascending "new game" NewGame game_challenged new_game
           startup_message [("score", "text")]).
  - unfold transcript_maxlen. simpl. lia.
  - reflexivity.
Defined.

(** ** [wrap] *)

Lemma wrap_loop_width (len : string → nat) (indent : string) (width : nat)
    (all ws : list string) (lines : list string) (line : string) :
  (∀ a b, len (a ++ b) = (len a + len b)%nat) → len " " = 1%nat →
  (∀ w, w ∈ ws → w ∈ all) →
  (∀ l, l ∈ line :: lines →
        (len l ≤ width)%nat ∨ ∃ word, word ∈ all ∧ l = indent ++ word) →
  ∀ l, l ∈ (foldl (wrap_step len indent width) (lines, line) ws).2
           :: (foldl (wrap_step len indent width) (lines, line) ws).1 →
       (len l ≤ width)%nat ∨ ∃ word, word ∈ all ∧ l = indent ++ word.
Proof.
  intros Happ Hsp. revert lines line.
  assert (len EmptyString = 0%nat) as Hnil.
  { pose proof (Happ EmptyString EmptyString) as H0.
    change (EmptyString ++ EmptyString) with EmptyString in H0. lia. }
  induction ws as [|w ws IH]; intros lines line Hsub Hinv; [done|].
  cbn [foldl]. destruct (wrap_step len indent width (lines, line) w) as [lines' line'] eqn:Hstep.
  apply IH; [intros w' Hw'; apply Hsub; by right|].
  unfold wrap_step in Hstep.
  destruct (decide (width < len line + len w + 1)%nat) as [Hlong|Hfit];
    injection Hstep as <- <-.
  - intros l [->|Hl]%elem_of_cons.
    + right. exists w. split; [apply Hsub; by left|done].
    + apply Hinv. apply elem_of_app in Hl as [Hl| ->%list_elem_of_singleton].
      * by right.
      * by left.
  - intros l [->|Hl]%elem_of_cons.
    + left. rewrite !Happ.
      destruct (decide (line = EmptyString)); [rewrite Hnil|rewrite Hsp]; lia.
    + apply Hinv. by right.
Qed.

(** X26.  Every line that [wrap] produces is at most [width] characters
    long, unless it is the indent followed by a single word: only a word too
    long to fit is left to overflow. *)
Theorem wrap_lines_width (len : string → nat) (words : list string) (indent : string)
    (width : nat) :
  (∀ a b, len (a ++ b) = (len a + len b)%nat) → len " " = 1%nat →
  ∀ line, line ∈ wrap_lines len words indent width →
          (len line ≤ width)%nat
          ∨ ∃ word, word ∈ words ∧ line = indent ++ word.
Proof.
  intros Happ Hsp line. unfold wrap_lines.
  pose proof (wrap_loop_width len indent width words words [] EmptyString Happ Hsp
                (λ w Hw, Hw)) as Hloop.
  destruct (foldl (wrap_step len indent width) ([], EmptyString) words) as [lines last_line].
  simpl in Hloop.
  assert (∀ l, l ∈ last_line :: lines →
               (len l ≤ width)%nat ∨ ∃ word, word ∈ words ∧ l = indent ++ word) as Hall.
  { apply Hloop. intros l [->|Hl]%elem_of_cons; [|by apply elem_of_nil in Hl].
    left. pose proof (Happ EmptyString EmptyString) as H0.
    change (EmptyString ++ EmptyString) with EmptyString in H0. lia. }
  destruct (decide (last_line = EmptyString)); intros Hin; apply Hall.
  - by right.
  - apply elem_of_app in Hin as [Hl| ->%list_elem_of_singleton]; [by right|by left].
Qed.

Lemma wrap_lines_width_witness :
  Forall (λ line, (String.length line ≤ 12)%nat
                  ∨ ∃ word, word ∈ ["Commitments"; "avowed:"; "set()"]
                            ∧ line = "  " ++ word)
         (wrap_lines String.length ["Commitments"; "avowed:"; "set()"] "  " 12).
Proof.
  apply Forall_forall.
  apply (wrap_lines_width String.length ["Commitments"; "avowed:"; "set()"] "  " 12).
  - intros a b. induction a as [|c a IH]; simpl; [done|]. by rewrite IH.
  - done.
Defined.

(** ** Taking back *)

(** X27.  [X disavows s]: when X has not avowed [s] the reply says so and the
    game stays as it is.  Otherwise X is found with [s] no longer avowed; a
    scorekeeper none of whose committive inferences concludes [s] no longer
    attributes [s] to X; no scorekeeper attributes to X a commitment it did not
    attribute before; and the game gains no unchallenged assertion. *)
Theorem disavows_effect (rt : Runtime) (g : Game) (nm s : string) (ref : nat)
    (agent : Agent) :
  agent_named rt g nm = Some (ref, agent) →
  (s ∉ commitments_avowed agent →
   process_command rt (Disavows nm s) g
   = Some ("Agent " ++ nm ++ " has not asserted " ++ dquote ++ s ++ dquote ++ nl, g))
  ∧ (s ∈ commitments_avowed agent →
     ∃ g', process_command rt (Disavows nm s) g = Some (score_all rt g', g')
           ∧ agent_named rt g' nm = Some (ref, disavows agent s)
           ∧ (s ∉ commitments_avowed (disavows agent s))
           ∧ (∀ scorekeeper,
                (∀ inf, inf ∈ committive_inferences scorekeeper → conclusion inf ≠ s) →
                s ∉ commitments scorekeeper (disavows agent s))
           ∧ (∀ scorekeeper,
                commitments scorekeeper (disavows agent s)
                ⊆ commitments scorekeeper agent)
           ∧ all_unchallenged_assertions g' ⊆ all_unchallenged_assertions g).
Proof.
  intros Hn. pose proof (agent_named_lookup rt g nm ref agent Hn) as Hl. split.
  - intros Habs. simpl. rewrite Hn. by rewrite decide_True.
  - intros Hs. exists (store_agent g ref (disavows agent s)).
    assert (s ∉ commitments_avowed (disavows agent s)) as Hgone.
    { simpl. intros [_ Hne]%elem_of_difference. apply Hne. by apply elem_of_singleton. }
    split_and!.
    + simpl. rewrite Hn. rewrite decide_False; [done|]. by intros Hc.
    + by apply (agent_named_store_same rt g ref agent).
    + done.
    + intros sk Hno. by apply commitments_closed.
    + intros sk. rewrite !commitments_is_iter.
      apply iter_mono; [apply consequences_once_mono|]. simpl.
      intros x [Hx _]%elem_of_difference. done.
    + intros x (b & Hb & Hx)%elem_of_all_unchallenged_assertions.
      apply elem_of_all_unchallenged_assertions.
      unfold assertions_unchallenged in *. apply elem_of_difference in Hx as [Hav Hnch].
      assert (∀ b', name b = name b' →
                assertions_challenged (store_agent g ref (disavows agent s)) b
                = assertions_challenged g b') as Hch.
      { intros b' Hname. apply assertions_challenged_view; [|done].
        by apply (store_agent_fmap challenges_issued g ref agent). }
      apply elem_of_store_agent in Hb as [->|(i & Hi & Hb)].
      * exists agent. split; [by apply list_elem_of_lookup_2 in Hl|].
        apply elem_of_difference. split.
        -- simpl in Hav. by apply elem_of_difference in Hav as [? _].
        -- by rewrite <- (Hch agent).
      * exists b. split; [by apply list_elem_of_lookup_2 in Hb|].
        apply elem_of_difference. split; [done|]. by rewrite <- (Hch b).
Qed.

Lemma disavows_effect_witness :
  process_command rt_ascending (Disavows "Ann" "A is red") new_game
  = Some ("Agent " ++ "Ann" ++ " has not asserted " ++ dquote ++ "A is red" ++ dquote ++ nl,
          new_game).
Proof.
  apply (proj1 (disavows_effect rt_ascending new_game "Ann" "A is red" 0
                  (default_Agent "Ann") ltac:(by_compute))).
  by_compute.
Defined.

(** X28.  After [X withdraws ... Y ... s] the game has lost no unchallenged
    assertion; and if no agent other than X had issued that challenge, [s] is no
    longer a challenged assertion of any agent named as Y is. *)
Theorem withdraws_effect (rt : Runtime) (g : Game) (agent_name target_name s : string)
    (ref j : nat) (agent target : Agent) :
  agent_named rt g agent_name = Some (ref, agent) →
  agent_named rt g target_name = Some (j, target) →
  ∃ g', process_command rt (WithdrawsChallenge agent_name target_name s) g
        = Some (score_all rt g', g')
        ∧ all_unchallenged_assertions g ⊆ all_unchallenged_assertions g'
        ∧ ((∀ i b, i ≠ ref → agents g !! i = Some b →
                   mkChallenge (name target) s ∉ challenges_issued b) →
           ∀ b, name b = name target → s ∉ assertions_challenged g' b).
Proof.
  intros Hn Ht. pose proof (agent_named_lookup rt g _ ref agent Hn) as Hl.
  exists (store_agent g ref (withdraws_challenge agent target s)).
  assert (∀ b x, x ∈ assertions_challenged
                       (store_agent g ref (withdraws_challenge agent target s)) b →
                 x ∈ assertions_challenged g b) as Hless.
  { intros b x (a & Ha & Hx)%elem_of_assertions_challenged.
    apply elem_of_assertions_challenged.
    apply elem_of_store_agent in Ha as [->|(i & Hi & Ha)].
    - exists agent. split; [by apply list_elem_of_lookup_2 in Hl|].
      simpl in Hx. by apply elem_of_difference in Hx as [? _].
    - exists a. split; [by apply list_elem_of_lookup_2 in Ha|done]. }
  split_and!.
  - simpl. by rewrite Hn, Ht.
  - intros x (b & Hb & Hx)%elem_of_all_unchallenged_assertions.
    apply elem_of_all_unchallenged_assertions.
    unfold assertions_unchallenged in *. apply elem_of_difference in Hx as [Hav Hnch].
    destruct (decide (b = agent)) as [->|Hne].
    + exists (withdraws_challenge agent target s).
      split; [by apply (store_agent_elem_of g ref agent)|].
      apply elem_of_difference. split; [done|]. intros Hc. apply Hnch.
      apply (Hless _ x) in Hc. done.
    + exists b. split; [by apply (store_agent_keeps g ref agent)|].
      apply elem_of_difference. split; [done|]. intros Hc. by apply Hnch, Hless.
  - intros Hothers b Hb (a & Ha & Hx)%elem_of_assertions_challenged.
    rewrite Hb in Hx. apply elem_of_store_agent in Ha as [->|(i & Hi & Ha)].
    + simpl in Hx. apply elem_of_difference in Hx as [_ Hne]. apply Hne.
      by apply elem_of_singleton.
    + by apply (Hothers i a).
Qed.

Lemma withdraws_effect_witness :
  ∃ g', process_command rt_ascending (WithdrawsChallenge "Ann" "Bob" "A is red")
          game_challenged
        = Some (score_all rt_ascending g', g')
        ∧ all_unchallenged_assertions game_challenged ⊆ all_unchallenged_assertions g'
        ∧ ((∀ i b, i ≠ 0%nat → agents game_challenged !! i = Some b →
                   mkChallenge (name (asserts (default_Agent "Bob") "A is red")) "A is red"
                   ∉ challenges_issued b) →
           ∀ b, name b = name (asserts (default_Agent "Bob") "A is red") →
                "A is red" ∉ assertions_challenged g' b).
Proof.
  apply (withdraws_effect rt_ascending game_challenged "Ann" "Bob" "A is red" 0 1
           (challenges (default_Agent "Ann")
              (asserts (default_Agent "Bob") "A is red") "A is red")
           (asserts (default_Agent "Bob") "A is red")).
  - by_compute.
  - by_compute.
Defined.
